(** * epyp: the alias resolution engine

    A shallow embedding of [aliasing.py], [manager.py] and the parts of
    [datasource.py] that the engine calls, followed by the theorems that
    settle the properties stated for it.

    Python objects that are mutated in place are modelled by explicit state
    passing; exceptions by the [outcome] type; recursion through user supplied
    transforms by a fuel argument that bounds the nesting depth of
    [__getitem__] calls. *)

From Stdlib Require Import ZArith Ascii String.
From stdpp Require Import gmap strings list fin_maps sorting.



(** ** Exceptions and results *)

(** The exceptions the modelled code can raise, one constructor per raise
    site or per library error that a modelled path can reach. *)
Inductive exn : Type :=
| InfiniteLoopInSpy (key : string)
    (* ValueError(f"Infinite loop in aliasing spy: {key}") *)
| NotAValidVariableName (key : string)
    (* KeyError(f"'{key}' is not a valid variable name") *)
| KeyError (key : string)
    (* a dict or DataFrame lookup of an absent key *)
| NameError (name : string)
    (* evaluation of a name bound neither locally nor in the module *)
| AliasOrAliasFctRequired
    (* ValueError("alias or alias_fct is required") *)
| NoObjectsToConcatenate
    (* ValueError raised by pd.concat on an empty list *)
| IndexingError
    (* boolean Series indexer that does not cover the index *)
| IndexError
    (* positional access out of range (str.format, h5py) *)
| UnknownVarType (vtype v : string)
    (* TypeError(f"Unknown var type '{v_type}' for var '{v}'") *)
| UserError (msg : string).
    (* anything a transform or a predicate raises by itself *)

(** [OutOfFuel] stands for a computation whose chain of nested lookups is
    deeper than the fuel it was given; a computation that is [OutOfFuel] for
    every fuel is one that never returns. *)
Inductive outcome (A : Type) : Type :=
| Ok (a : A)
| Raise (e : exn)
| OutOfFuel.
Arguments Ok {A} a.
Arguments Raise {A} e.
Arguments OutOfFuel {A}.

#[global] Instance outcome_ret : MRet outcome := fun A a => Ok a.
#[global] Instance outcome_bind : MBind outcome := fun A B f m =>
  match m with
  | Ok a => f a
  | Raise e => Raise e
  | OutOfFuel => OutOfFuel
  end.
#[global] Instance outcome_fmap : FMap outcome := fun A B f m =>
  match m with
  | Ok a => Ok (f a)
  | Raise e => Raise e
  | OutOfFuel => OutOfFuel
  end.

(** A [for] loop whose body may raise: the state is threaded left to right
    and the first exception ends the loop. *)
Fixpoint for_each {A S : Type} (body : A -> S -> outcome S) (l : list A) (s : S)
  : outcome S :=
  match l with
  | [] => Ok s
  | x :: l' => s' ← body x s; for_each body l' s'
  end.

(** ** Regular expressions

    The engine only calls [re.search(a.regex, key)] and [match.groups()].
    The pattern language of the [regex] library is modelled by the fragment
    below: literal characters, [.], concatenation, [|], [*], and capture
    groups at the top level of the pattern. *)
Module Re.

Inductive regex : Type :=
| Eps
| Chr (c : ascii)
| Dot
| Cat (r1 r2 : regex)
| Alt (r1 r2 : regex)
| Star (r : regex).

(** A compiled pattern is a sequence of pieces; a piece flagged [true] is
    enclosed in a capture group. *)
Definition pattern : Type := list (bool * regex).

Definition newline : ascii := ascii_of_nat 10.

(** The loop of [*]: at most [n] further iterations of [body], the longest
    repetition first.  An iteration that consumes nothing is not repeated. *)
Fixpoint star_loop {A : Type}
    (body : list ascii -> (list ascii -> option A) -> option A)
    (k : list ascii -> option A) (n : nat) (s : list ascii) : option A :=
  match n with
  | O => k s
  | S n' =>
      match body s (fun s' =>
              if (length s' <? length s)%nat then star_loop body k n' s' else None) with
      | Some a => Some a
      | None => k s
      end
  end.

(** Backtracking matcher in continuation-passing style: [rmatch r s k]
    tries the ways [r] can match a prefix of [s], in priority order (left
    alternative first, longest repetition first), and hands the rest of the
    input to [k]; the first success is the result. *)
Fixpoint rmatch {A : Type} (r : regex) (s : list ascii)
    (k : list ascii -> option A) : option A :=
  match r with
  | Eps => k s
  | Chr c =>
      match s with
      | c' :: s' => if Ascii.eqb c c' then k s' else None
      | [] => None
      end
  | Dot =>
      match s with
      | c' :: s' => if Ascii.eqb c' newline then None else k s'
      | [] => None
      end
  | Cat r1 r2 => rmatch r1 s (fun s' => rmatch r2 s' k)
  | Alt r1 r2 =>
      match rmatch r1 s k with
      | Some a => Some a
      | None => rmatch r2 s k
      end
  | Star r1 => star_loop (rmatch r1) k (length s) s
  end.

(** Match the pieces of a pattern in sequence from the start of [s],
    collecting the text of each captured piece. *)
Fixpoint pmatch (p : pattern) (s : list ascii) (grps : list string)
  : option (list string) :=
  match p with
  | [] => Some grps
  | (cap, r) :: p' =>
      rmatch r s (fun s' =>
        let txt := string_of_list_ascii (take (length s - length s') s) in
        pmatch p' s' (if cap then grps ++ [txt] else grps))
  end.

(** [re.search]: the leftmost position from which the pattern matches. *)
Fixpoint search_from (p : pattern) (s : list ascii) : option (list string) :=
  match pmatch p s [] with
  | Some g => Some g
  | None =>
      match s with
      | [] => None
      | _ :: s' => search_from p s'
      end
  end.

(** [re.search(p, key)] followed by [match.groups()]; [None] when there is
    no match. *)
Definition search (p : pattern) (key : string) : option (list string) :=
  search_from p (list_ascii_of_string key).

(** The language of a regular expression, and of a pattern. *)
Inductive lang : regex -> list ascii -> Prop :=
| LEps : lang Eps []
| LChr c : lang (Chr c) [c]
| LDot c : c <> newline -> lang Dot [c]
| LCat r1 r2 s1 s2 : lang r1 s1 -> lang r2 s2 -> lang (Cat r1 r2) (s1 ++ s2)
| LAltL r1 r2 s : lang r1 s -> lang (Alt r1 r2) s
| LAltR r1 r2 s : lang r2 s -> lang (Alt r1 r2) s
| LStar0 r : lang (Star r) []
| LStarS r s1 s2 :
    s1 <> [] -> lang r s1 -> lang (Star r) s2 -> lang (Star r) (s1 ++ s2).

Inductive plang : pattern -> list ascii -> Prop :=
| PNil : plang [] []
| PCons cap r p s1 s2 :
    lang r s1 -> plang p s2 -> plang ((cap, r) :: p) (s1 ++ s2).

(** A pattern for a literal string, without groups. *)
Definition literal (s : string) : pattern :=
  map (fun c => (false, Chr c)) (list_ascii_of_string s).

End Re.

(** ** Tables

    What the engine uses of pandas.  A Series is a name and a column of
    cells under the default index [0 .. n-1]; a DataFrame is a list of
    labelled columns of one common length. *)

Inductive cell : Type :=
| Int (z : Z)
| NaN.

Record Series : Type := mkSeries { name : option string; values : list cell }.

(** What a transform returns: one column or a Python list of columns. *)
Inductive value : Type :=
| VSeries (s : Series)
| VList (l : list Series).

(** Column labels of a DataFrame: a name, or the position that [pd.concat]
    gives to a Series without a name. *)
Inductive label : Type :=
| Name (s : string)
| Pos (n : nat).

#[global] Instance label_eq_dec : EqDecision label.
Proof. solve_decision. Defined.

Definition DataFrame : Type := list (label * list cell).

Definition columns (df : DataFrame) : list label := map fst df.

(** [series.rename(vname)] *)
Definition rename (s : Series) (vname : string) : Series :=
  {| name := Some vname; values := values s |}.

(** [df[key]] on a DataFrame whose labels are pairwise distinct. *)
Fixpoint df_getitem (df : DataFrame) (key : string) : outcome value :=
  match df with
  | [] => Raise (KeyError key)
  | (l, cells) :: df' =>
      if decide (l = Name key)
      then Ok (VSeries {| name := Some key; values := cells |})
      else df_getitem df' key
  end.

(** The labels [pd.concat(axis=1)] gives to a list of Series: a named one
    keeps its name, the unnamed ones are numbered from 0 in order. *)
Fixpoint concat_labels (num : nat) (l : list Series) : list label :=
  match l with
  | [] => []
  | s :: l' =>
      match name s with
      | Some n => Name n :: concat_labels num l'
      | None => Pos num :: concat_labels (S num) l'
      end
  end.

Definition pad (n : nat) (cells : list cell) : list cell :=
  cells ++ replicate (n - length cells) NaN.

Definition max_length (l : list Series) : nat :=
  foldr (fun s m => Nat.max (length (values s)) m) 0%nat l.

(** [pd.concat(series_out, axis=1)]: the union of the default indexes is
    the longest one, shorter columns are filled with NaN. *)
Definition concat (series_out : list Series) : outcome DataFrame :=
  match series_out with
  | [] => Raise NoObjectsToConcatenate
  | _ =>
      Ok (zip (concat_labels 0 series_out)
              (map (fun s => pad (max_length series_out) (values s)) series_out))
  end.

Definition nrows (df : DataFrame) : nat :=
  match df with
  | [] => 0%nat
  | (_, cells) :: _ => length cells
  end.

(** Keep the entries of [cells] whose position is marked [true]. *)
Fixpoint select (mask : list bool) (cells : list cell) : list cell :=
  match mask, cells with
  | b :: mask', c :: cells' =>
      if b then c :: select mask' cells' else select mask' cells'
  | _, _ => []
  end.

(** [df.loc[mask]] for a boolean Series [mask]: the mask is reindexed to the
    index of [df], which fails when it does not cover it. *)
Definition loc_rows (mask : list bool) (df : DataFrame) : outcome DataFrame :=
  if (length mask <? nrows df)%nat then Raise IndexingError
  else Ok (map (fun '(l, cells) => (l, select mask cells)) df).

(** A positional row slice [start:stop]. *)
Record slice : Type := mkSlice { start : option Z; stop : option Z }.

(** Python's [slice.indices] for a step of 1. *)
Definition clamp (n : nat) (i : option Z) (default : nat) : nat :=
  match i with
  | None => default
  | Some z =>
      if (z <? 0)%Z then Z.to_nat (Z.max (z + Z.of_nat n) 0)
      else Nat.min (Z.to_nat z) n
  end.

Definition slice_cells (sl : slice) (cells : list cell) : list cell :=
  let n := length cells in
  let lo := clamp n (start sl) 0%nat in
  let hi := clamp n (stop sl) n in
  take (hi - lo) (drop lo cells).

(** [df.iloc[sl]] *)
Definition iloc_rows (sl : slice) (df : DataFrame) : DataFrame :=
  map (fun '(l, cells) => (l, slice_cells sl cells)) df.

(** ** Transforms and predicates

    A transform [fct(df, grps)] and a row-filter predicate [loc(df)] are
    Python callables that use their table argument through [df[key]].  They
    are modelled as programs over that single operation: [GetItem key k]
    evaluates [df[key]] and continues with [k] applied to the result, and
    [Throw] raises.  A callable that catches the exception of a lookup, or
    that reads other attributes of the table (the proxies forward them to
    the placeholder or to the fetched table), is outside this model. *)
Inductive prog (R : Type) : Type :=
| Ret (r : R)
| Throw (e : exn)
| GetItem (key : string) (k : value -> prog R).
Arguments Ret {R} r.
Arguments Throw {R} e.
Arguments GetItem {R} key k.

Abbreviation groups := (list string).
Abbreviation transform := (list string -> prog value).
Abbreviation predicate := (prog (list bool)).

(** Run a program against a table-like object whose [__getitem__] is
    [getitem] and whose state has type [S]. *)
Fixpoint exec {S R : Type} (getitem : string -> S -> outcome (value * S))
    (p : prog R) (s : S) : outcome (R * S) :=
  match p with
  | Ret r => Ok (r, s)
  | Throw e => Raise e
  | GetItem key k =>
      match getitem key s with
      | Ok (v, s') => exec getitem (k v) s'
      | Raise e => Raise e
      | OutOfFuel => OutOfFuel
      end
  end.

(** ** aliasing.py *)

(** A format string as [str.format] sees it once parsed: literal text and
    positional fields [{n}]. *)
Inductive fmt_piece : Type :=
| Lit (s : string)
| Field (n : nat).

(** [alias_str.format( *grps)]; [None] is the IndexError of a field beyond
    the captured groups. *)
Fixpoint format (alias_str : list fmt_piece) (grps : groups) : option string :=
  match alias_str with
  | [] => Some ""
  | Lit s :: rest => t ← format rest grps; Some (s +:+ t)
  | Field n :: rest => g ← grps !! n; t ← format rest grps; Some (g +:+ t)
  end.

Record Alias : Type := mkAlias {
  regex : Re.pattern;
  alias_fct : transform
}.

(** [Alias.__init__]: the transform is built from [alias_str] when it is
    given, else it is [alias_fct]. *)
Definition Alias_init (regex : Re.pattern) (alias_str : option (list fmt_piece))
    (alias_fct : option transform) : outcome Alias :=
  match alias_str with
  | Some fmt =>
      Ok {| regex := regex;
            alias_fct := fun grps =>
              match format fmt grps with
              | Some key => GetItem key Ret
              | None => Throw IndexError
              end |}
  | None =>
      match alias_fct with
      | Some f => Ok {| regex := regex; alias_fct := f |}
      | None => Raise AliasOrAliasFctRequired
      end
  end.

(** An alias group as the engine reads it: its name and its aliases in
    registration order. *)
Record AliasGroup : Type := mkAliasGroup {
  _name : string;
  aliases : list Alias
}.

(** An entry of the aliasing map: [None] for a terminal name, else the
    transform and the captured groups. *)
Abbreviation resolution := (option (transform * groups)).

(** The [for a in self._aliases] loop of the spy up to its first match. *)
Fixpoint find_alias (aliases : list Alias) (key : string)
  : option (transform * groups) :=
  match aliases with
  | [] => None
  | a :: rest =>
      match Re.search (regex a) key with
      | Some grps => Some (alias_fct a, grps)
      | None => find_alias rest key
      end
  end.

Module DFProxyGetItemSpy.

Record t : Type := mk {
  _aliases : list Alias;
  _aliasing_map : gmap string resolution;
  _vnames_used : list string;
  _vnames_valid : list string;
  _N_call : nat
}.

(** [self._df_dum['dum']] *)
Definition dum : value := VSeries {| name := Some "dum"; values := [Int 1] |}.

Definition init (aliases : list Alias) (vnames_valid : list string) : t :=
  {| _aliases := aliases; _aliasing_map := ∅; _vnames_used := [];
     _vnames_valid := vnames_valid; _N_call := 0 |}.

Definition incr_N_call (spy : t) : t :=
  {| _aliases := _aliases spy; _aliasing_map := _aliasing_map spy;
     _vnames_used := _vnames_used spy; _vnames_valid := _vnames_valid spy;
     _N_call := S (_N_call spy) |}.

Definition set_aliasing (key : string) (r : resolution) (spy : t) : t :=
  {| _aliases := _aliases spy; _aliasing_map := <[key := r]> (_aliasing_map spy);
     _vnames_used := _vnames_used spy; _vnames_valid := _vnames_valid spy;
     _N_call := _N_call spy |}.

Definition append_used (key : string) (spy : t) : t :=
  {| _aliases := _aliases spy; _aliasing_map := _aliasing_map spy;
     _vnames_used := _vnames_used spy ++ [key];
     _vnames_valid := _vnames_valid spy; _N_call := _N_call spy |}.

(** [DFProxyGetItemSpy.__getitem__] *)
Fixpoint getitem (fuel : nat) (key : string) (spy : t) : outcome (value * t) :=
  match fuel with
  | O => OutOfFuel
  | S fuel' =>
      let spy := incr_N_call spy in
      if (1000 <? _N_call spy)%nat then Raise (InfiniteLoopInSpy key)
      else
        match _aliasing_map spy !! key with
        | Some _ => Ok (dum, spy)
        | None =>
            match find_alias (_aliases spy) key with
            | Some (fct, grps) =>
                let spy := set_aliasing key (Some (fct, grps)) spy in
                exec (getitem fuel') (fct grps) spy
            | None =>
                if bool_decide (key ∈ _vnames_valid spy)
                then Ok (dum, append_used key (set_aliasing key None spy))
                else Raise (NotAValidVariableName key)
            end
        end
  end.

(** [reset] and [reset_vnames_used] *)
Definition reset (spy : t) : t :=
  {| _aliases := _aliases spy; _aliasing_map := ∅; _vnames_used := [];
     _vnames_valid := _vnames_valid spy; _N_call := 0 |}.

Definition reset_vnames_used (spy : t) : t :=
  {| _aliases := _aliases spy; _aliasing_map := _aliasing_map spy;
     _vnames_used := []; _vnames_valid := _vnames_valid spy;
     _N_call := _N_call spy |}.

End DFProxyGetItemSpy.

Module DFProxyAliasing.

Record t : Type := mk {
  _aliasing_map : gmap string resolution;
  _df : DataFrame
}.

(** [DFProxyAliasing.__getitem__]; the proxy has no state of its own, so the
    state threaded through [exec] is [unit]. *)
Fixpoint getitem (fuel : nat) (proxy : t) (key : string) (u : unit)
  : outcome (value * unit) :=
  match fuel with
  | O => OutOfFuel
  | S fuel' =>
      match _aliasing_map proxy !! key with
      | None => Raise (KeyError key)
      | Some None => v ← df_getitem (_df proxy) key; Ok (v, u)
      | Some (Some (fct, grps)) => exec (getitem fuel' proxy) (fct grps) u
      end
  end.

End DFProxyAliasing.

(** ** datasource.py

    The state of a [DataSourceEPH5] once its file has been loaded.  The file
    itself is represented by what [_load_data] and [get_df] read from it: the
    variable layout and the rows of the dataset [CalcData/VarValues].  The
    checksum test of [load] and the logging calls are not modelled. *)

Record var_layout : Type := mkLayout {
  v_type : string;
  v_unit : string;
  col : nat
}.

Record DataSourceEPH5 : Type := mkSource {
  src_name : string;
  _vardict : list (string * var_layout);   (* insertion-ordered dict *)
  alias_grp : option AliasGroup;
  preload_data : bool;
  _enums : list string;                    (* keys of [self._enums] *)
  VarValues : list (list Z)                (* rows of the dataset *)
}.

(** [self._vardict[v]] *)
Fixpoint vardict_get (vardict : list (string * var_layout)) (v : string)
  : option var_layout :=
  match vardict with
  | [] => None
  | (k, info) :: rest => if decide (k = v) then Some info else vardict_get rest v
  end.

(** [self._vardict.keys()] *)
Definition vardict_keys (src : DataSourceEPH5) : list string :=
  map fst (_vardict src).

(** [_DataSource._clean_var_list]: the known names without repetition, and
    the unknown ones (for which a warning is logged). *)
Fixpoint _clean_var_list_loop (list_existing : list string) (var_lst : list string)
    (clean_list unk_list : list string) : list string * list string :=
  match var_lst with
  | [] => (clean_list, unk_list)
  | v :: rest =>
      if bool_decide (v ∈ list_existing) then
        if bool_decide (v ∈ clean_list)
        then _clean_var_list_loop list_existing rest clean_list unk_list
        else _clean_var_list_loop list_existing rest (clean_list ++ [v]) unk_list
      else _clean_var_list_loop list_existing rest clean_list (unk_list ++ [v])
  end.

Definition _clean_var_list (src : DataSourceEPH5) (var_lst : list string)
  : list string * list string :=
  _clean_var_list_loop (vardict_keys src) var_lst [] [].

(** Stable insertion by column index, as [sorted(zipped, key=...)] orders. *)
Fixpoint insert_by_col (z : nat * string) (l : list (nat * string))
  : list (nat * string) :=
  match l with
  | [] => [z]
  | y :: l' => if (fst z <=? fst y)%nat then z :: y :: l' else y :: insert_by_col z l'
  end.

Definition sorted_by_col (l : list (nat * string)) : list (nat * string) :=
  foldr insert_by_col [] l.

(** [DataSourceEPH5._order_var_lst] *)
Definition _order_var_lst (src : DataSourceEPH5) (var_lst : list string)
  : outcome (list string) :=
  cols ← mapM (fun v => match vardict_get (_vardict src) v with
                        | Some info => Ok (col info)
                        | None => Raise (KeyError v)
                        end) var_lst;
  Ok (map snd (sorted_by_col (zip cols var_lst))).

(** [ds[:, c]]: column [c] of every row. *)
Definition ds_column (ds : list (list Z)) (c : nat) : outcome (list cell) :=
  mapM (fun row => match row !! c with
                   | Some z => Ok (Int z)
                   | None => Raise IndexError
                   end) ds.

(** [DataSourceEPH5._substitute_str_enum]: every column must have a known
    type.  The conversion of the cells to that type and the renaming of the
    categories do not change which cells a column holds and are left out. *)
Definition known_type (src : DataSourceEPH5) (t : string) : bool :=
  bool_decide (t ∈ ["Real"; "Integer"; "Boolean"; "String"]) ||
  bool_decide (t ∈ _enums src).

Definition _substitute_str_enum (src : DataSourceEPH5) (df : DataFrame)
  : outcome DataFrame :=
  _ ← for_each (fun l (_ : unit) =>
         match l with
         | Name v =>
             match vardict_get (_vardict src) v with
             | Some info =>
                 if known_type src (v_type info) then Ok tt
                 else Raise (UnknownVarType (v_type info) v)
             | None => Raise (KeyError v)
             end
         | Pos _ => Raise (KeyError "")
         end) (columns df) tt;
  Ok df.

(** [DataSourceEPH5.get_df].  With preloading enabled the method evaluates
    [super().get_df(var_lst, loc, iloc)], in which [loc] is unbound. *)
Definition get_df (src : DataSourceEPH5) (var_lst : option (list string))
  : outcome DataFrame :=
  if preload_data src then Raise (NameError "loc")
  else
    var_lst_c ← match var_lst with
                | None => Ok (vardict_keys src)
                | Some l => _order_var_lst src (fst (_clean_var_list src l))
                end;
    col_lst ← mapM (fun v => match vardict_get (_vardict src) v with
                             | Some info => Ok (col info)
                             | None => Raise (KeyError v)
                             end) var_lst_c;
    data ← mapM (ds_column (VarValues src)) col_lst;
    df ← _substitute_str_enum src (zip (map Name var_lst_c) data);
    Ok df.

(** ** manager.py: [getAliasedDF] *)

(** [loc(spy)]: the predicate is run on the spy for its lookups only. *)
Definition trace_loc (fuel : nat) (loc : option predicate)
    (spy : DFProxyGetItemSpy.t) : outcome DFProxyGetItemSpy.t :=
  match loc with
  | None => Ok spy
  | Some p => snd <$> exec (DFProxyGetItemSpy.getitem fuel) p spy
  end.

(** [for vname in vnames: _ = spy[vname]] *)
Definition trace_vnames (fuel : nat) (vnames : list string)
    (spy : DFProxyGetItemSpy.t) : outcome DFProxyGetItemSpy.t :=
  for_each (fun vname spy => snd <$> DFProxyGetItemSpy.getitem fuel vname spy)
           vnames spy.

(** One turn of the loop that fills [series_out]. *)
Definition collect (out : value) (vname : string) (series_out : list Series)
  : list Series :=
  match out with
  | VList l => series_out ++ l
  | VSeries s => series_out ++ [rename s vname]
  end.

(** [for vname in vnames: out = df_proxy[vname]; ...] *)
Definition build_series_out (fuel : nat) (df_proxy : DFProxyAliasing.t)
    (vnames : list string) : outcome (list Series) :=
  for_each (fun vname series_out =>
              r ← DFProxyAliasing.getitem fuel df_proxy vname tt;
              Ok (collect (fst r) vname series_out))
           vnames [].

Definition apply_iloc (iloc : option slice) (df : DataFrame) : DataFrame :=
  match iloc with
  | None => df
  | Some sl => iloc_rows sl df
  end.

(** The generic case of [getAliasedDF] from [aliasing_map = spy.aliasing_map]
    to the end, [spy] being the spy once the filter and the requested names
    have been traced.

    [vnames_loc] is bound to the list object [spy.vnames_used] itself, which
    the later lookups keep appending to, so that when [loc] is given
    [vnames_loc + spy.vnames_used] is that list twice.  [list(set(...))] is
    modelled by [remove_dups]; the iteration order of a Python set is not
    specified, and [get_df] reorders by column index, so that only the set
    of names matters ([SourceFacts.get_df_set]). *)
Definition materialize (fuel : nat) (source : DataSourceEPH5)
    (vnames : list string) (loc : option predicate) (iloc : option slice)
    (spy : DFProxyGetItemSpy.t) : outcome DataFrame :=
  let aliasing_map := DFProxyGetItemSpy._aliasing_map spy in
  let vnames_loc :=
    match loc with
    | None => []
    | Some _ => DFProxyGetItemSpy._vnames_used spy
    end in
  let vnames_used :=
    remove_dups (vnames_loc ++ DFProxyGetItemSpy._vnames_used spy) in
  df_used ← get_df source (Some vnames_used);
  let df_proxy := DFProxyAliasing.mk aliasing_map df_used in
  series_out ← build_series_out fuel df_proxy vnames;
  df ← concat series_out;
  df ← match loc with
       | None => Ok df
       | Some p =>
           r ← exec (DFProxyAliasing.getitem fuel df_proxy) p tt;
           loc_rows (fst r) df
       end;
  Ok (apply_iloc iloc df).

(** [getAliasedDF(source, vnames, loc, iloc)] *)
Definition getAliasedDF (fuel : nat) (source : DataSourceEPH5)
    (vnames : option (list string)) (loc : option predicate)
    (iloc : option slice) : outcome DataFrame :=
  let ag := alias_grp source in
  let alias_flag :=
    negb (match ag with
          | None => true
          | Some g => match aliases g with [] => true | _ => false end
          end) in
  let aliases := match ag with None => [] | Some g => aliases g end in
  let vnames_valid := vardict_keys source in
  let spy := DFProxyGetItemSpy.init aliases vnames_valid in
  spy ← trace_loc fuel loc spy;
  if bool_decide (vnames = None) || negb alias_flag then
    (* Handling cases without aliases *)
    let vnames :=
      match vnames with
      | Some (vname :: rest) => vname :: rest
      | _ => vnames_valid                      (* vnames or vnames_valid *)
      end in
    match loc with
    | None =>
        df ← get_df source (Some vnames);
        Ok (apply_iloc iloc df)
    | Some _ =>
        (* df = src.get_df(vnames + col_list_loc): [src] is unbound *)
        Raise (NameError "src")
    end
  else
    (* Generic case with aliases *)
    let vnames := default [] vnames in
    spy ← trace_vnames fuel vnames spy;
    materialize fuel source vnames loc iloc spy.

(** ** manager.py: the registry

    Sources, alias groups and aliases are Python objects that refer to each
    other.  They live in a store indexed by object identity; a method takes
    the manager and returns the manager it leaves behind together with its
    result, so that what a method did before it raised is kept. *)
Module Manager.

Definition ref : Type := nat.

Record AliasObj : Type := mkAliasObj {
  alias : Alias;
  ref_alias_grps : list ref        (* AliasGroups referencing the alias *)
}.

Record AliasGroupObj : Type := mkGroupObj {
  name : string;
  aliases : list ref;
  ref_sources : list ref           (* Sources referencing the group *)
}.

Record SourceObj : Type := mkSourceObj {
  data : DataSourceEPH5;           (* its [alias_grp] field is unused here *)
  alias_grp : option ref
}.

Record t : Type := mk {
  sources_ : gmap ref SourceObj;
  groups_ : gmap ref AliasGroupObj;
  aliases_ : gmap ref AliasObj;
  next : ref;
  _sources : gmap string ref;
  _alias_grps : gmap string ref;
  _aliases : list ref;
  _preload_data : bool
}.

(** [Manager.__init__] *)
Definition init : t :=
  {| sources_ := ∅; groups_ := ∅; aliases_ := ∅; next := 0;
     _sources := ∅; _alias_grps := ∅; _aliases := []; _preload_data := false |}.

Definition with_sources_ (f : gmap ref SourceObj -> gmap ref SourceObj) (m : t) : t :=
  {| sources_ := f (sources_ m); groups_ := groups_ m; aliases_ := aliases_ m;
     next := next m; _sources := _sources m; _alias_grps := _alias_grps m;
     _aliases := _aliases m; _preload_data := _preload_data m |}.

Definition with_groups_ (f : gmap ref AliasGroupObj -> gmap ref AliasGroupObj)
    (m : t) : t :=
  {| sources_ := sources_ m; groups_ := f (groups_ m); aliases_ := aliases_ m;
     next := next m; _sources := _sources m; _alias_grps := _alias_grps m;
     _aliases := _aliases m; _preload_data := _preload_data m |}.

Definition with_aliases_ (f : gmap ref AliasObj -> gmap ref AliasObj) (m : t) : t :=
  {| sources_ := sources_ m; groups_ := groups_ m; aliases_ := f (aliases_ m);
     next := next m; _sources := _sources m; _alias_grps := _alias_grps m;
     _aliases := _aliases m; _preload_data := _preload_data m |}.

(** [src.alias_grp = v] *)
Definition set_src_alias_grp (src : ref) (v : option ref) (m : t) : t :=
  with_sources_ (alter (fun o => {| data := data o; alias_grp := v |}) src) m.

(** [ag.ref_sources.append(src)] *)
Definition append_ref_source (ag src : ref) (m : t) : t :=
  with_groups_ (alter (fun g => {| name := name g; aliases := aliases g;
                                   ref_sources := ref_sources g ++ [src] |}) ag) m.

(** [ag.aliases.append(a)] *)
Definition append_alias (ag a : ref) (m : t) : t :=
  with_groups_ (alter (fun g => {| name := name g; aliases := aliases g ++ [a];
                                   ref_sources := ref_sources g |}) ag) m.

(** [list.remove(x)]: drop the first occurrence. *)
Fixpoint list_remove (x : ref) (l : list ref) : list ref :=
  match l with
  | [] => []
  | y :: l' => if decide (x = y) then l' else y :: list_remove x l'
  end.

(** [a.ref_alias_grps.append(ag)] and [a.ref_alias_grps.remove(ag)] *)
Definition append_ref_alias_grp (a ag : ref) (m : t) : t :=
  with_aliases_ (alter (fun o => {| alias := alias o;
                                    ref_alias_grps := ref_alias_grps o ++ [ag] |}) a) m.

Definition remove_ref_alias_grp (a ag : ref) (m : t) : t :=
  with_aliases_
    (alter (fun o => {| alias := alias o;
                        ref_alias_grps := list_remove ag (ref_alias_grps o) |})
           a) m.

(** [Manager.set_alias_grp]; an unknown group or source only logs a
    warning. *)
Definition set_alias_grp (name_ : string) (assigned_srcs : list string) (m : t) : t :=
  match _alias_grps m !! name_ with
  | None => m
  | Some ag =>
      foldl (fun m src_name =>
               match _sources m !! src_name with
               | Some src =>
                   append_ref_source ag src (set_src_alias_grp src (Some ag) m)
               | None => m
               end) m assigned_srcs
  end.

(** Evaluation of a name that no assignment, parameter or import binds. *)
Definition unbound_name {A : Type} (n : string) : outcome A := Raise (NameError n).

(** [Manager.del_alias_grp].  The second loop iterates over
    [alias_grp.aliases], and [alias_grp] is not a name of this scope; the
    final [del ag] only unbinds the local variable. *)
Definition del_alias_grp (name_ : string) (logKeyError : bool) (m : t)
  : t * outcome unit :=
  match _alias_grps m !! name_ with
  | None => (m, Ok tt)          (* a warning is logged if [logKeyError] *)
  | Some ag =>
      (* Deleting reference to alias_grp in sources *)
      let m :=
        foldl (fun m src => set_src_alias_grp src None m) m
              (default [] (ref_sources <$> groups_ m !! ag)) in
      (* Deleting reference to alias_grp in aliases *)
      match unbound_name "alias_grp" with
      | Ok alias_grp =>
          (foldl (fun m a => remove_ref_alias_grp a ag m) m
                 (default [] (aliases <$> groups_ m !! alias_grp)), Ok tt)
      | Raise e => (m, Raise e)
      | OutOfFuel => (m, OutOfFuel)
      end
  end.

(** [Manager.add_alias_grp] *)
Definition add_alias_grp (name_ : string) (assigned_srcs : list string) (m : t)
  : t * outcome unit :=
  (* If name was already used, deleting previous instance *)
  match del_alias_grp name_ false m with
  | (m, Ok _) =>
      (* Creating new alias_grp and assigning to sources *)
      let ag := next m in
      let m :=
        {| sources_ := sources_ m;
           groups_ := <[ag := {| name := name_; aliases := []; ref_sources := [] |}]>
                        (groups_ m);
           aliases_ := aliases_ m; next := S ag; _sources := _sources m;
           _alias_grps := <[name_ := ag]> (_alias_grps m);
           _aliases := _aliases m; _preload_data := _preload_data m |} in
      (set_alias_grp name_ assigned_srcs m, Ok tt)
  | (m, r) => (m, r)
  end.

(** [Manager.add_alias]; [assigned_alias_grps] is taken as a list. *)
Definition add_alias (regex : Re.pattern) (alias_str : option (list fmt_piece))
    (alias_fct : option transform) (assigned_alias_grps : list string) (m : t)
  : t * outcome unit :=
  match Alias_init regex alias_str alias_fct with
  | Ok a_obj =>
      let a := next m in
      let m :=
        {| sources_ := sources_ m; groups_ := groups_ m;
           aliases_ := <[a := {| alias := a_obj; ref_alias_grps := [] |}]> (aliases_ m);
           next := S a; _sources := _sources m; _alias_grps := _alias_grps m;
           _aliases := _aliases m ++ [a]; _preload_data := _preload_data m |} in
      (foldl (fun m ag_name =>
                match _alias_grps m !! ag_name with
                | Some ag => append_ref_alias_grp a ag (append_alias ag a m)
                | None => m
                end) m assigned_alias_grps, Ok tt)
  | Raise e => (m, Raise e)
  | OutOfFuel => (m, OutOfFuel)
  end.

(** [Manager.add_source_EP_h5], given what loading the file yields.  The
    constructor call passes [self.preload_data] in the position of
    [alias_grp], which the class ignores: the new source has no group and
    preloading disabled. *)
Definition add_source_EP_h5 (name_ : string) (file : DataSourceEPH5)
    (alias_grp_name : option string) (m : t) : t * outcome unit :=
  let src := next m in
  let obj :=
    {| data := mkSource name_ (_vardict file) None false (_enums file)
                        (VarValues file);
       alias_grp := None |} in
  let m :=
    {| sources_ := <[src := obj]> (sources_ m); groups_ := groups_ m;
       aliases_ := aliases_ m; next := S src;
       _sources := <[name_ := src]> (_sources m); _alias_grps := _alias_grps m;
       _aliases := _aliases m; _preload_data := _preload_data m |} in
  match alias_grp_name with
  | None => (m, Ok tt)
  | Some g =>
      match _alias_grps m !! g with
      | Some _ => (set_alias_grp g [name_] m, Ok tt)
      | None => add_alias_grp g [name_] m
      end
  end.

(** The source as [getAliasedDF] reads it: [source.alias_grp] and
    [ag.aliases] followed through the store. *)
Definition source_view (m : t) (src : ref) : option DataSourceEPH5 :=
  o ← sources_ m !! src;
  let ag :=
    r ← alias_grp o;
    g ← groups_ m !! r;
    Some (mkAliasGroup (name g)
            (omap (fun a => alias <$> aliases_ m !! a) (aliases g))) in
  Some (mkSource (src_name (data o)) (_vardict (data o)) ag
          (preload_data (data o)) (_enums (data o)) (VarValues (data o))).

End Manager.

(** ** Arithmetic on columns and sample registrations

    The cells of an ['Integer'] variable are 64-bit integers; arithmetic on
    a Series wraps around and leaves NaN in place. *)

Definition wrap64 (z : Z) : Z := ((z + 2 ^ 63) mod 2 ^ 64 - 2 ^ 63)%Z.

Definition cell_map (f : Z -> Z) (c : cell) : cell :=
  match c with
  | Int z => Int (wrap64 (f z))
  | NaN => NaN
  end.

Definition series_map (f : Z -> Z) (s : Series) : Series :=
  {| name := name s; values := map (cell_map f) (values s) |}.

(** [v * 2]: on a Python list the operator repeats the list. *)
Definition times2 (v : value) : prog value :=
  match v with
  | VSeries s => Ret (VSeries (series_map (fun z => z * 2)%Z s))
  | VList l => Ret (VList (l ++ l))
  end.

(** [v + 1]: on a Python list the operator raises a TypeError. *)
Definition plus1 (v : value) : prog value :=
  match v with
  | VSeries s => Ret (VSeries (series_map (fun z => z + 1)%Z s))
  | VList _ => Throw (UserError "can only concatenate list to list")
  end.

(** [v > 0] as a boolean column; a comparison with NaN is False. *)
Definition positive (v : value) : prog (list bool) :=
  match v with
  | VSeries s =>
      Ret (map (fun c => match c with Int z => (0 <? z)%Z | NaN => false end)
               (values s))
  | VList _ => Throw (UserError "'>' not supported between list and int")
  end.

Module Samples.

(** Alias ["B"] is [df["A"] * 2], alias ["A"] is [df["X"] + 1]. *)
Definition aliasB : Alias :=
  {| regex := Re.literal "B"; alias_fct := fun _ => GetItem "A" times2 |}.
Definition aliasA : Alias :=
  {| regex := Re.literal "A"; alias_fct := fun _ => GetItem "X" plus1 |}.

(** An alias whose transform asks for its own name, as
    [Alias("A", alias_str="A")] builds it. *)
Definition alias_self : Alias :=
  {| regex := Re.literal "A"; alias_fct := fun _ => GetItem "A" Ret |}.

(** Two aliases that ask for each other. *)
Definition alias_PQ : Alias :=
  {| regex := Re.literal "P"; alias_fct := fun _ => GetItem "Q" Ret |}.
Definition alias_QP : Alias :=
  {| regex := Re.literal "Q"; alias_fct := fun _ => GetItem "P" Ret |}.

(** Alias ["C"] is [df["Y"] * 2]. *)
Definition aliasC : Alias :=
  {| regex := Re.literal "C"; alias_fct := fun _ => GetItem "Y" times2 |}.

(** Two overlapping patterns, [v.*] registered before [v1]. *)
Definition alias_v_any : Alias :=
  {| regex := [(false, Re.Chr "v"); (true, Re.Star Re.Dot)];
     alias_fct := fun _ => GetItem "X" Ret |}.
Definition alias_v1 : Alias :=
  {| regex := Re.literal "v1"; alias_fct := fun _ => GetItem "Y" Ret |}.

(** An alias that expands to the two raw columns. *)
Definition alias_both : Alias :=
  {| regex := Re.literal "both";
     alias_fct := fun _ =>
       GetItem "Y" (fun y => GetItem "X" (fun x =>
         match y, x with
         | VSeries sy, VSeries sx => Ret (VList [sy; sx])
         | _, _ => Throw (UserError "not a column")
         end)) |}.

Definition layout (c : nat) : var_layout :=
  {| v_type := "Integer"; v_unit := "-"; col := c |}.

(** A file with the variables ["X"] and ["Y"] in columns 0 and 1, and three
    rows. *)
Definition file_XY (ag : option AliasGroup) : DataSourceEPH5 :=
  {| src_name := "run"; _vardict := [("X", layout 0); ("Y", layout 1)];
     alias_grp := ag; preload_data := false; _enums := [];
     VarValues := [[1; -10]; [2; 20]; [3; 30]]%Z |}.

Definition grp (l : list Alias) : option AliasGroup :=
  Some {| _name := "g"; aliases := l |}.

(** [lambda df: df["X"] > 0] and [lambda df: df["C"] > 0] *)
Definition loc_X : predicate := GetItem "X" positive.
Definition loc_C : predicate := GetItem "C" positive.

End Samples.

(** A registry with the source ["run"], the group ["g"] bound to it and one
    alias registered in the group. *)
Definition registry_g : Manager.t :=
  let m := fst (Manager.add_source_EP_h5 "run" (Samples.file_XY None) None
                  Manager.init) in
  let m := fst (Manager.add_alias_grp "g" ["run"] m) in
  fst (Manager.add_alias (Re.literal "A") None
         (Some (alias_fct Samples.aliasA)) ["g"] m).

(** What one requested name contributes to [series_out]. *)
Definition expand (out : value) (vname : string) : list Series :=
  match out with
  | VList l => l
  | VSeries s => [rename s vname]
  end.

(** The rows of a column that the filter and the slice keep, in order. *)
Definition select_rows (mask : option (list bool)) (iloc : option slice)
    (cells : list cell) : list cell :=
  let cells := match mask with
               | None => cells
               | Some m => select m cells
               end in
  match iloc with
  | None => cells
  | Some sl => slice_cells sl cells
  end.


(** The aliasing map after the trace of a name [b] whose transform asks for
    [a], whose transform asks for the terminal name [x]. *)
Definition chain_map (b a x : string) (tb ta : transform) (gb ga : groups)
  : gmap string resolution :=
  <[x := None]> (<[a := Some (ta, ga)]> (<[b := Some (tb, gb)]> ∅)).

(** ** Invariants of the tracing proxy *)
Module SpyInv.
Import DFProxyGetItemSpy.

(** What a lookup may change in the spy: the aliases and the valid names
    stay, the aliasing map and the list of used names only grow. *)
Record extends (s s' : t) : Prop := mkExtends {
  ext_aliases : _aliases s' = _aliases s;
  ext_valid : _vnames_valid s' = _vnames_valid s;
  ext_map : _aliasing_map s ⊆ _aliasing_map s';
  ext_used : exists l, _vnames_used s' = _vnames_used s ++ l;
  ext_calls : _N_call s <= _N_call s'
}.

(** Every entry of the aliasing map is the resolution of its key by the
    aliases; the terminal entries are the used names, which are valid. *)
Record consistent (s : t) : Prop := mkConsistent {
  cons_map : forall key e,
    _aliasing_map s !! key = Some e -> e = find_alias (_aliases s) key;
  cons_terminal : forall key,
    _aliasing_map s !! key = Some None <-> key ∈ _vnames_used s;
  cons_valid : forall key, key ∈ _vnames_used s -> key ∈ _vnames_valid s;
  cons_calls : _N_call s <= 1000
}.

Definition inv (s s' : t) : Prop :=
  extends s s' /\ (consistent s -> consistent s').

End SpyInv.

(** ** Resolution by the aliases alone

    The lookup of the materialize pass as the specification states it,
    written without the aliasing map: a name is resolved by the aliases
    themselves, first match first, its transform is applied to the captured
    groups and asks for further names in the same way; a name that no alias
    matches is read from the fetched table.  It is what the materializing
    proxy is compared with. *)
Fixpoint resolve_by_rules (fuel : nat) (aliases : list Alias) (df : DataFrame)
    (key : string) (u : unit) : outcome (value * unit) :=
  match fuel with
  | O => OutOfFuel
  | S fuel' =>
      match find_alias aliases key with
      | Some (fct, grps) => exec (resolve_by_rules fuel' aliases df) (fct grps) u
      | None => v ← df_getitem df key; Ok (v, u)
      end
  end.

(** ** Further samples and invariants *)

(** [Alias("v(.)", alias_str="{0}")] and [Alias("v(.)", alias_str="{1}")] *)
Definition alias_v_group : Alias :=
  {| regex := [(false, Re.Chr "v"); (true, Re.Dot)];
     alias_fct := fun grps =>
       match format [Field 0] grps with
       | Some key => GetItem key Ret
       | None => Throw IndexError
       end |}.

Definition alias_v_nogroup : Alias :=
  {| regex := [(false, Re.Chr "v"); (true, Re.Dot)];
     alias_fct := fun grps =>
       match format [Field 1] grps with
       | Some key => GetItem key Ret
       | None => Throw IndexError
       end |}.

(** The registry [registry_g] with a second group ["h"]. *)
Definition registry_gh : Manager.t :=
  fst (Manager.add_alias_grp "h" [] registry_g).

(** A lookup or a trace pass that keeps the list of used names free of
    repetitions. *)
Module SpyUsed.
Import DFProxyGetItemSpy SpyInv.

Definition keeps_NoDup (s s' : t) : Prop :=
  inv s s' /\ (consistent s -> NoDup (_vnames_used s) -> NoDup (_vnames_used s')).

End SpyUsed.

(** ** datasource.py: the variable layout that [_load_data] builds *)

(** The position that the index [i] denotes in a Python list of length [n]:
    a negative index counts from the end. *)
Definition py_index (n : nat) (i : Z) : option nat :=
  if (0 <=? i)%Z then
    if (i <? Z.of_nat n)%Z then Some (Z.to_nat i) else None
  else
    if (- Z.of_nat n <=? i)%Z then Some (Z.to_nat (i + Z.of_nat n)) else None.

(** [s.lstrip(c)] for a single character [c]. *)
Fixpoint lstrip (c : ascii) (s : list ascii) : list ascii :=
  match s with
  | [] => []
  | x :: s' => if Ascii.eqb x c then lstrip c s' else s
  end.

Definition is_digit (c : ascii) : bool :=
  (48 <=? nat_of_ascii c) && (nat_of_ascii c <=? 57).

(** The length of the match of [[0-9]*\]] at the start of [s], if any. *)
Fixpoint digits_close (s : list ascii) : option nat :=
  match s with
  | [] => None
  | c :: s' =>
      if Ascii.eqb c "]" then Some 1
      else if is_digit c then S <$> digits_close s' else None
  end.

(** The length of the match of [reg = \[[0-9]*\]] at the start of [s]. *)
Definition reg_match (s : list ascii) : option nat :=
  match s with
  | [] => None
  | c :: s' => if Ascii.eqb c "[" then S <$> digits_close s' else None
  end.

(** [f0 = lambda mo: mo.group(0).lstrip('0')] on the matched text. *)
Definition f0 (matched : list ascii) : list ascii := lstrip "0" matched.

(** [re.sub(reg, f0, v)] from left to right: a match is replaced by [f0] of
    it and the scan goes on behind it; [skip] counts the characters of the
    last match that are still to be passed over. *)
Fixpoint re_sub_from (skip : nat) (s : list ascii) : list ascii :=
  match s with
  | [] => []
  | c :: s' =>
      match skip with
      | S k => re_sub_from k s'
      | O =>
          match reg_match s with
          | Some n => f0 (take n s) ++ re_sub_from (n - 1) s'
          | None => c :: re_sub_from 0 s'
          end
      end
  end.

(** [fstr = lambda v: re.sub(reg, f0, v)] *)
Definition fstr (v : string) : string :=
  string_of_list_ascii (re_sub_from 0 (list_ascii_of_string v)).

(** A row of [Internal/Symbols], by the fields that are read: [t[0]],
    [t[4]], [t[13]] and [t[3]]. *)
Record symbol : Type := mkSymbol {
  sym_name : string;
  sym_type : string;
  sym_unit : Z;
  sym_col : nat
}.

(** [strs[i]] *)
Definition strs_get (strs : list string) (i : Z) : outcome string :=
  match py_index (length strs) i ≫= (fun n => strs !! n) with
  | Some s => Ok s
  | None => Raise IndexError
  end.

(** [vars_layout_list.sort(key=lambda x: x[3])]: a stable sort by column. *)
Fixpoint insert_layout (z : string * var_layout) (l : list (string * var_layout))
  : list (string * var_layout) :=
  match l with
  | [] => [z]
  | y :: l' =>
      if (col (snd z) <=? col (snd y))%nat then z :: y :: l'
      else y :: insert_layout z l'
  end.

Definition sort_layout (l : list (string * var_layout))
  : list (string * var_layout) :=
  foldr insert_layout [] l.

(** [d[k] = v] on an insertion-ordered dict: a key already present keeps
    its place and takes the new value. *)
Fixpoint dict_set (k : string) (v : var_layout) (d : list (string * var_layout))
  : list (string * var_layout) :=
  match d with
  | [] => [(k, v)]
  | (k', v') :: d' =>
      if decide (k' = k) then (k, v) :: d' else (k', v') :: dict_set k v d'
  end.

(** The dict comprehension [{t[0]: {...} for t in vars_layout_list}]. *)
Definition dict_of (l : list (string * var_layout)) : list (string * var_layout) :=
  foldl (fun d t => dict_set (fst t) (snd t) d) [] l.

(** The part of [DataSourceEPH5._load_data] that builds [self._vardict]
    from the strings and the symbols read from the file. *)
Definition vars_layout (strs : list string) (vars_arr : list symbol)
  : outcome (list (string * var_layout)) :=
  rows ← mapM (fun t =>
                 u ← strs_get strs (sym_unit t);
                 Ok (fstr (sym_name t),
                     {| v_type := sym_type t; v_unit := u; col := sym_col t |}))
              vars_arr;
  let vars_layout_list :=
    ("TIME", {| v_type := "Real"; v_unit := "s"; col := 13 |}) :: rows in
  Ok (dict_of (sort_layout vars_layout_list)).

(** The strings and symbols of a small file, and the layout they give. *)
Definition sample_strs : list string := ["m"; "s"].

Definition sample_symbols : list symbol :=
  [mkSymbol "B[010]" "Real" (-1) 14; mkSymbol "A" "Integer" 0 2].

Definition sample_layout : list (string * var_layout) :=
  [("A", {| v_type := "Integer"; v_unit := "m"; col := 2 |});
   ("TIME", {| v_type := "Real"; v_unit := "s"; col := 13 |});
   ("B[010]", {| v_type := "Real"; v_unit := "s"; col := 14 |})].

(** ** manager.py: the remaining methods of [Manager] *)
Module Registry.
Import Manager.

(** Library errors of these methods that the engine itself never raises. *)
Inductive error : Type :=
| ListIndexOutOfRange
    (* IndexError: list index out of range *)
| NotInList
    (* ValueError: list.remove(x): x not in list *)
| NoAttribute (attr : string).
    (* AttributeError: object has no attribute [attr] *)

(** The setter of [Manager.preload_data].  Its loop [for src in
    self._sources] runs over the keys of the dict, which are strings and
    have no attribute [preload_data]: no source is touched. *)
Definition set_preload_data (b : bool) (m : t) : t :=
  {| sources_ := sources_ m; groups_ := groups_ m; aliases_ := aliases_ m;
     next := next m; _sources := _sources m; _alias_grps := _alias_grps m;
     _aliases := _aliases m; _preload_data := b |}.

(** [Manager.del_source]: a source object has no attribute
    [ref_alias_grps], so the loop header raises for a registered name; an
    unknown name logs a warning. *)
Definition del_source (name_ : string) (m : t) : t * option error :=
  match _sources m !! name_ with
  | None => (m, None)
  | Some _ => (m, Some (NoAttribute "ref_alias_grps"))
  end.

(** [ag.aliases.remove(a)], once [a] is known to be in the list. *)
Definition remove_alias (ag a : ref) (m : t) : t :=
  with_groups_ (alter (fun g => {| name := name g;
                                   aliases := list_remove a (aliases g);
                                   ref_sources := ref_sources g |}) ag) m.

(** [for ag in a.ref_alias_grps: ag.aliases.remove(a)] *)
Fixpoint del_alias_loop (a : ref) (ags : list ref) (m : t) : t * option error :=
  match ags with
  | [] => (m, None)
  | ag :: rest =>
      if bool_decide (a ∈ default [] (aliases <$> groups_ m !! ag))
      then del_alias_loop a rest (remove_alias ag a m)
      else (m, Some NotInList)
  end.

(** [Manager.del_alias] *)
Definition del_alias (i : Z) (m : t) : t * option error :=
  match py_index (length (_aliases m)) i with
  | None => (m, Some ListIndexOutOfRange)
  | Some n =>
      match _aliases m !! n with
      | None => (m, Some ListIndexOutOfRange)
      | Some a =>
          match del_alias_loop a
                  (default [] (ref_alias_grps <$> aliases_ m !! a)) m with
          | (m, None) =>
              ({| sources_ := sources_ m; groups_ := groups_ m;
                  aliases_ := aliases_ m; next := next m;
                  _sources := _sources m; _alias_grps := _alias_grps m;
                  _aliases := delete n (_aliases m);
                  _preload_data := _preload_data m |}, None)
          | (m, Some e) => (m, Some e)
          end
      end
  end.

(** [Manager.get_df] for a non-empty list of source names; [df_dict] is the
    dict built so far.  An unknown name logs a warning and leaves the loop.
    (Without [sources], or with an empty list, the method runs over the
    registered names in the order of their registration, which the registry
    map of this model does not record.) *)
Fixpoint get_df_loop (fuel : nat) (m : t) (vnames : option (list string))
    (loc : option predicate) (iloc : option slice) (sources : list string)
    (df_dict : gmap string DataFrame) : outcome (gmap string DataFrame) :=
  match sources with
  | [] => Ok df_dict
  | src_name :: rest =>
      match _sources m !! src_name ≫= source_view m with
      | None => Ok df_dict
      | Some src =>
          df ← getAliasedDF fuel src vnames loc iloc;
          get_df_loop fuel m vnames loc iloc rest (<[src_name := df]> df_dict)
      end
  end.

Definition get_df (fuel : nat) (m : t) (vnames : option (list string))
    (sources : list string) (loc : option predicate) (iloc : option slice)
  : outcome (gmap string DataFrame) :=
  get_df_loop fuel m vnames loc iloc sources ∅.

(** A call of a method of the manager. *)
Inductive op : Type :=
| AddSource (name_ : string) (file : DataSourceEPH5)
    (alias_grp_name : option string)
| DelSource (name_ : string)
| SetAliasGrp (name_ : string) (assigned_srcs : list string)
| DelAliasGrp (name_ : string) (logKeyError : bool)
| AddAliasGrp (name_ : string) (assigned_srcs : list string)
| AddAlias (regex : Re.pattern) (alias_str : option (list fmt_piece))
    (alias_fct : option transform) (assigned_alias_grps : list string)
| DelAlias (i : Z)
| SetPreloadData (b : bool).

(** The manager a call leaves behind, whether it returns or raises. *)
Definition after (o : op) (m : t) : t :=
  match o with
  | AddSource name_ file g => fst (add_source_EP_h5 name_ file g m)
  | DelSource name_ => fst (del_source name_ m)
  | SetAliasGrp name_ srcs => set_alias_grp name_ srcs m
  | DelAliasGrp name_ b => fst (del_alias_grp name_ b m)
  | AddAliasGrp name_ srcs => fst (add_alias_grp name_ srcs m)
  | AddAlias re s f grps => fst (add_alias re s f grps m)
  | DelAlias i => fst (del_alias i m)
  | SetPreloadData b => set_preload_data b m
  end.

(** The manager after a sequence of calls on a new [Manager()]. *)
Definition run (ops : list op) : t := foldl (fun m o => after o m) init ops.

(** A group from whose list the alias [a] has been removed. *)
Definition without_alias (a : ref) (g : AliasGroupObj) : AliasGroupObj :=
  {| name := name g; aliases := filter (fun y => y <> a) (aliases g);
     ref_sources := ref_sources g |}.

(** How often [x] occurs in [l]. *)
Definition occurrences (x : ref) (l : list ref) : nat :=
  length (filter (fun y => y = x) l).

(** How many of the names [grps] denote the group [r]. *)
Definition assigned_count (m : t) (grps : list string) (r : ref) : nat :=
  length (filter (fun n => _alias_grps m !! n = Some r) grps).

(** A group to whose list the alias [a] has been appended [k] times. *)
Definition with_alias (k : nat) (a : ref) (g : AliasGroupObj) : AliasGroupObj :=
  {| name := name g; aliases := aliases g ++ replicate k a;
     ref_sources := ref_sources g |}.

(** What a call leaves of the sources: the registered names stay, the data
    of a source object does not change, and group names are only added. *)
Definition keeps_sources (m m' : t) : Prop :=
  _sources m' = _sources m
  /\ (forall r, data <$> sources_ m' !! r = data <$> sources_ m !! r)
  /\ (forall n r, _alias_grps m !! n = Some r -> _alias_grps m' !! n = Some r).

(** No source object has preloading enabled. *)
Definition no_preload (m : t) : Prop :=
  forall r o, sources_ m !! r = Some o -> preload_data (data o) = false.

(** The objects of a manager refer to each other consistently. *)
Record wf (m : t) : Prop := mkWf {
  wf_sources : forall n r, _sources m !! n = Some r -> is_Some (sources_ m !! r);
  wf_groups : forall n r,
    _alias_grps m !! n = Some r ->
    exists g, groups_ m !! r = Some g /\ name g = n;
  wf_registered : forall r g,
    groups_ m !! r = Some g -> _alias_grps m !! name g = Some r;
  wf_bound : forall r o ag,
    sources_ m !! r = Some o -> alias_grp o = Some ag ->
    is_Some (groups_ m !! ag);
  wf_aliases : NoDup (_aliases m);
  wf_stored : forall a, a ∈ _aliases m -> is_Some (aliases_ m !! a);
  wf_members : forall r g a,
    groups_ m !! r = Some g -> a ∈ aliases g -> a ∈ _aliases m;
  wf_count : forall a o r,
    a ∈ _aliases m -> aliases_ m !! a = Some o ->
    occurrences r (ref_alias_grps o)
    = occurrences a (default [] (aliases <$> groups_ m !! r));
  wf_fresh_sources : forall r, is_Some (sources_ m !! r) -> r < next m;
  wf_fresh_groups : forall r, is_Some (groups_ m !! r) -> r < next m;
  wf_fresh_aliases : forall r, is_Some (aliases_ m !! r) -> r < next m
}.

End Registry.

(** * Properties *)

(** ** The matcher finds every match of the language *)
Module ReFacts.
Import Re.

Lemma star_loop_complete {A : Type} (r : regex) (k : list ascii -> option A)
    (s2 : list ascii) :
  (forall s1, lang r s1 -> forall s2 (k : list ascii -> option A),
      is_Some (k s2) -> is_Some (rmatch r (s1 ++ s2) k)) ->
  is_Some (k s2) ->
  forall n s1, lang (Star r) s1 -> (length (s1 ++ s2) <= n)%nat ->
    is_Some (star_loop (rmatch r) k n (s1 ++ s2)).
Proof.
  intros IH Hk n. induction n as [|n IHn]; intros s1 Hl Hn.
  - destruct s1; [exact Hk | simpl in Hn; lia].
  - simpl. inversion Hl as [| | | | | |r'|r' a b Hne Ha Hb]; subst.
    + destruct (rmatch r _ _); [eauto | exact Hk].
    + assert (length (b ++ s2) < length ((a ++ b) ++ s2))%nat as Hlt.
      { rewrite !length_app. destruct a; [congruence | simpl; lia]. }
      destruct (IH a Ha (b ++ s2) (fun s' =>
                  if (length s' <? length ((a ++ b) ++ s2))%nat
                  then star_loop (rmatch r) k n s' else None)) as [x Hx].
      * rewrite (proj2 (Nat.ltb_lt _ _) Hlt). apply IHn; [exact Hb | lia].
      * rewrite <- app_assoc in Hx |- *.
        rewrite Hx. eauto.
Qed.

Lemma rmatch_complete {A : Type} (r : regex) :
  forall s1, lang r s1 ->
  forall (s2 : list ascii) (k : list ascii -> option A),
    is_Some (k s2) -> is_Some (rmatch r (s1 ++ s2) k).
Proof.
  induction r as [| c | | r1 IH1 r2 IH2 | r1 IH1 r2 IH2 | r IH];
    intros s1 Hl s2 k Hk.
  - inversion Hl; subst. exact Hk.
  - inversion Hl; subst. simpl. rewrite Ascii.eqb_refl. exact Hk.
  - inversion Hl as [| |c Hc| | | | |]; subst. simpl.
    destruct (Ascii.eqb c newline) eqn:E; [|exact Hk].
    apply Ascii.eqb_eq in E. contradiction.
  - inversion Hl as [| | |? ? a b Ha Hb| | | |]; subst. simpl.
    rewrite <- app_assoc. apply IH1; [exact Ha|]. apply IH2; assumption.
  - simpl. inversion Hl as [| | | |? ? ? Ha|? ? ? Hb| |]; subst.
    + destruct (IH1 _ Ha s2 k Hk) as [x ->]. eauto.
    + destruct (rmatch r1 (s1 ++ s2) k); [eauto|]. apply IH2; assumption.
  - simpl. apply star_loop_complete; auto.
Qed.

Lemma pmatch_complete (p : pattern) :
  forall s1, plang p s1 -> forall s2 grps, is_Some (pmatch p (s1 ++ s2) grps).
Proof.
  induction p as [|[cap r] p IH]; intros s1 Hl s2 grps.
  - simpl. eauto.
  - inversion Hl as [|? ? ? a b Ha Hb]; subst. simpl.
    rewrite <- app_assoc.
    apply (rmatch_complete r a Ha (b ++ s2)). apply IH. exact Hb.
Qed.

Lemma search_from_complete (p : pattern) (pre mid post : list ascii) :
  plang p mid -> is_Some (search_from p (pre ++ mid ++ post)).
Proof.
  intros Hl. induction pre as [|c pre IH].
  - simpl. destruct (pmatch_complete p mid Hl post []) as [g Hg].
    destruct (mid ++ post); simpl in *; rewrite Hg; eauto.
  - simpl. destruct (pmatch p _ []); eauto.
Qed.

(** [re.search] succeeds on every key that has a substring in the language
    of the pattern. *)
Lemma search_substring (p : pattern) (pre mid post : string) :
  plang p (list_ascii_of_string mid) ->
  is_Some (search p (pre +:+ mid +:+ post)).
Proof.
  intros Hl. unfold search.
  assert (Happ : forall a b, list_ascii_of_string (a +:+ b)
                  = list_ascii_of_string a ++ list_ascii_of_string b).
  { induction a as [|c a IHa]; intros b; simpl; [reflexivity | by rewrite IHa]. }
  rewrite !Happ. by apply search_from_complete.
Qed.

End ReFacts.

(** ** Every match of the matcher is in the language *)
Module ReSound.
Import Re.

Lemma star_loop_sound {A : Type} (r : regex) (k : list ascii -> option A) :
  (forall s (k : list ascii -> option A) x, rmatch r s k = Some x ->
     exists s1 s2, s = s1 ++ s2 /\ lang r s1 /\ k s2 = Some x) ->
  forall n s x, star_loop (rmatch r) k n s = Some x ->
    exists s1 s2, s = s1 ++ s2 /\ lang (Star r) s1 /\ k s2 = Some x.
Proof.
  intros IH n. induction n as [|n IHn]; intros s x H; simpl in H.
  - exists [], s. repeat split; [constructor | done].
  - destruct (rmatch r s _) as [y|] eqn:E.
    + injection H as ->. apply IH in E as (s1 & s2 & -> & Hl & Hk).
      destruct (Nat.ltb_spec (length s2) (length (s1 ++ s2))) as [Hlt|];
        [|discriminate].
      apply IHn in Hk as (t1 & t2 & -> & Hl' & Hk).
      exists (s1 ++ t1), t2. rewrite app_assoc. repeat split; [|done].
      constructor; [|done|done].
      intros ->. simpl in Hlt. lia.
    + exists [], s. repeat split; [constructor | done].
Qed.

Lemma rmatch_sound {A : Type} (r : regex) :
  forall s (k : list ascii -> option A) x, rmatch r s k = Some x ->
    exists s1 s2, s = s1 ++ s2 /\ lang r s1 /\ k s2 = Some x.
Proof.
  induction r as [| c | | r1 IH1 r2 IH2 | r1 IH1 r2 IH2 | r IH];
    intros s k x H; simpl in H.
  - exists [], s. repeat split; [constructor | done].
  - destruct s as [|c' s]; [done|].
    destruct (Ascii.eqb_spec c c') as [<-|]; [|done].
    exists [c], s. repeat split; [constructor | done].
  - destruct s as [|c' s]; [done|].
    destruct (Ascii.eqb_spec c' newline) as [|Hne]; [done|].
    exists [c'], s. repeat split; [by constructor | done].
  - apply IH1 in H as (s1 & s2 & -> & Hl1 & H).
    apply IH2 in H as (t1 & t2 & -> & Hl2 & H).
    exists (s1 ++ t1), t2. rewrite app_assoc. repeat split; [|done].
    by constructor.
  - destruct (rmatch r1 s k) as [y|] eqn:E.
    + injection H as ->. apply IH1 in E as (s1 & s2 & -> & Hl & Hk).
      exists s1, s2. repeat split; [by apply LAltL | done].
    + apply IH2 in H as (s1 & s2 & -> & Hl & Hk).
      exists s1, s2. repeat split; [by apply LAltR | done].
  - by apply star_loop_sound in H.
Qed.

Lemma pmatch_sound (p : pattern) : forall s grps g,
  pmatch p s grps = Some g -> exists s1 s2, s = s1 ++ s2 /\ plang p s1.
Proof.
  induction p as [|[cap r] p IH]; intros s grps g H; simpl in H.
  - exists [], s. split; [done | constructor].
  - apply rmatch_sound in H as (s1 & s2 & -> & Hl & H).
    apply IH in H as (t1 & t2 & -> & Hp).
    exists (s1 ++ t1), t2. rewrite app_assoc. split; [done | by constructor].
Qed.

(** [re.search] succeeds only on a key that has a substring in the
    language of the pattern. *)
Lemma search_from_sound (p : pattern) : forall s g,
  search_from p s = Some g ->
  exists pre mid post, s = pre ++ mid ++ post /\ plang p mid.
Proof.
  induction s as [|c s IH]; intros g H; simpl in H.
  - destruct (pmatch p [] []) as [g'|] eqn:E; [|done].
    apply pmatch_sound in E as (s1 & s2 & Hs & Hp).
    exists [], s1, s2. by split.
  - destruct (pmatch p (c :: s) []) as [g'|] eqn:E.
    + apply pmatch_sound in E as (s1 & s2 & Hs & Hp).
      exists [], s1, s2. by split.
    + apply IH in H as (pre & mid & post & -> & Hp).
      exists (c :: pre), mid, post. by split.
Qed.

End ReSound.

(** ** What running a program preserves *)

Lemma exec_preserves {S R : Type} (g : string -> S -> outcome (value * S))
    (P : S -> S -> Prop) :
  (forall s, P s s) ->
  (forall s1 s2 s3, P s1 s2 -> P s2 s3 -> P s1 s3) ->
  (forall key s v s', g key s = Ok (v, s') -> P s s') ->
  forall (p : prog R) s r s', exec g p s = Ok (r, s') -> P s s'.
Proof.
  intros Hrefl Htrans Hg p.
  induction p as [r0 | e | key k IH]; intros s r s' H; simpl in H.
  - injection H as _ <-. apply Hrefl.
  - discriminate.
  - destruct (g key s) as [[v s1] | |] eqn:E; try discriminate.
    eapply Htrans; [eapply Hg; exact E | eapply IH; exact H].
Qed.

(** ** Sequencing of programs and of loops *)



(** ** The invariants hold along the trace *)
Module SpyFacts.
Import DFProxyGetItemSpy SpyInv.

Lemma extends_refl s : extends s s.
Proof. split; auto. exists []. by rewrite app_nil_r. Qed.

Lemma extends_trans s1 s2 s3 : extends s1 s2 -> extends s2 s3 -> extends s1 s3.
Proof.
  intros [A1 V1 M1 [l1 U1] C1] [A2 V2 M2 [l2 U2] C2]. split.
  - congruence.
  - congruence.
  - by transitivity (_aliasing_map s2).
  - exists (l1 ++ l2). by rewrite U2, U1, app_assoc.
  - lia.
Qed.

Lemma inv_refl s : inv s s.
Proof. split; [apply extends_refl | auto]. Qed.

Lemma inv_trans s1 s2 s3 : inv s1 s2 -> inv s2 s3 -> inv s1 s3.
Proof.
  intros [E1 C1] [E2 C2]. split; [by eapply extends_trans | auto].
Qed.

Lemma init_consistent aliases valid : consistent (init aliases valid).
Proof.
  split; simpl.
  - intros key e H. by rewrite lookup_empty in H.
  - intros key. rewrite lookup_empty. split; [done | by intros ?%elem_of_nil].
  - by intros key ?%elem_of_nil.
  - lia.
Qed.

Lemma incr_inv s : _N_call s < 1000 -> inv s (incr_N_call s).
Proof.
  intros Hc. split.
  - constructor; simpl; auto. exists []. by rewrite app_nil_r.
  - intros [Cm Ct Cv Cc]. constructor; simpl; auto.
Qed.

Lemma resolve_inv s key fct grps :
  _aliasing_map s !! key = None ->
  find_alias (_aliases s) key = Some (fct, grps) ->
  inv s (set_aliasing key (Some (fct, grps)) s).
Proof.
  intros Emap Efind. split.
  - constructor; simpl; auto.
    + by apply insert_subseteq.
    + exists []. by rewrite app_nil_r.
  - intros [Cm Ct Cv Cc]. constructor; simpl; auto.
    + intros k e. rewrite lookup_insert. case_decide as Hk; [|apply Cm].
      subst k. intros [= <-]. by rewrite Efind.
    + intros k. rewrite lookup_insert. case_decide as Hk; [|apply Ct].
      subst k. split; [done|]. intros Hin. apply Ct in Hin. congruence.
Qed.

Lemma terminal_inv s key :
  _aliasing_map s !! key = None ->
  find_alias (_aliases s) key = None ->
  key ∈ _vnames_valid s ->
  inv s (append_used key (set_aliasing key None s)).
Proof.
  intros Emap Efind Hvalid. split.
  - constructor; simpl; auto.
    + by apply insert_subseteq.
    + eauto.
  - intros [Cm Ct Cv Cc]. constructor; simpl; auto.
    + intros k e. rewrite lookup_insert. case_decide as Hk; [|apply Cm].
      subst k. intros [= <-]. by rewrite Efind.
    + intros k. rewrite lookup_insert, elem_of_app, list_elem_of_singleton.
      case_decide as Hk.
      * subst k. split; auto.
      * rewrite Ct. split; [auto|]. intros [|]; [done | congruence].
    + intros k [Hin | ->%list_elem_of_singleton]%elem_of_app; auto.
Qed.

(** A successful lookup extends the spy, keeps it consistent, leaves its
    key resolved and counts at least one call. *)
Lemma getitem_inv fuel : forall key s v s',
  getitem fuel key s = Ok (v, s') ->
  inv s s' /\ is_Some (_aliasing_map s' !! key) /\ _N_call s < _N_call s'.
Proof.
  induction fuel as [|fuel IH]; intros key s v s' H; [discriminate|].
  simpl in H.
  destruct (Nat.ltb_spec 1000 (S (_N_call s))) as [|Hcalls]; [discriminate|].
  assert (Hincr : inv s (incr_N_call s)) by (apply incr_inv; lia).
  destruct (_aliasing_map s !! key) as [e|] eqn:Emap.
  - injection H as <- <-. split; [done|]. simpl. rewrite Emap. eauto.
  - destruct (find_alias (_aliases s) key) as [[fct grps]|] eqn:Efind.
    + pose proof (resolve_inv (incr_N_call s) key fct grps Emap Efind) as Hs1.
      apply (exec_preserves (getitem fuel)
               (fun a b => inv a b /\ _N_call a <= _N_call b)) in H.
      * destruct H as [Hex Hle]. split; [|split].
        -- eapply inv_trans; [exact Hincr|]. eapply inv_trans; [exact Hs1 | exact Hex].
        -- destruct Hex as [[_ _ Hm _ _] _].
           eapply lookup_weaken_is_Some; [|exact Hm]. simpl.
           rewrite lookup_insert_eq. eauto.
        -- simpl in Hle. lia.
      * intros a. split; [apply inv_refl | lia].
      * intros a b c [] []. split; [by eapply inv_trans | lia].
      * intros k a w b Hk. apply IH in Hk as (? & _ & ?). split; [done | lia].
    + destruct (bool_decide (key ∈ _vnames_valid s)) eqn:Evalid; [|discriminate].
      apply bool_decide_eq_true in Evalid. injection H as <- <-.
      split; [|split].
      * eapply inv_trans; [exact Hincr|]. by apply terminal_inv.
      * simpl. rewrite lookup_insert_eq. eauto.
      * simpl. lia.
Qed.

End SpyFacts.

(** ** The trace pass *)
Module TraceFacts.
Import DFProxyGetItemSpy SpyInv SpyFacts.

Lemma trace_loc_inv fuel loc s s' : trace_loc fuel loc s = Ok s' -> inv s s'.
Proof.
  destruct loc as [p|]; simpl.
  - destruct (exec (getitem fuel) p s) as [[r s1] | |] eqn:E; try discriminate.
    intros [= <-].
    apply (exec_preserves (getitem fuel) inv) in E; auto using inv_refl.
    + intros; by eapply inv_trans.
    + intros k a w b Hk. by apply getitem_inv in Hk as [? _].
  - intros [= <-]. apply inv_refl.
Qed.

Lemma trace_vnames_inv fuel vnames : forall s s',
  trace_vnames fuel vnames s = Ok s' ->
  inv s s' /\ forall v, v ∈ vnames -> is_Some (_aliasing_map s' !! v).
Proof.
  unfold trace_vnames.
  induction vnames as [|x l IH]; intros s s' H; simpl in H.
  - injection H as <-. split; [apply inv_refl | by intros v ?%elem_of_nil].
  - destruct (getitem fuel x s) as [[w s1] | |] eqn:E; try discriminate.
    simpl in H. apply getitem_inv in E as (Hx & Hsome & _).
    apply IH in H as [Hl Hall]. split; [by eapply inv_trans|].
    intros v [-> | Hin]%elem_of_cons; [|auto].
    destruct Hl as [[_ _ Hm _ _] _]. by eapply lookup_weaken_is_Some.
Qed.


(** A lookup of a name not yet resolved commits to what [find_alias]
    returns and runs that transform on the spy itself. *)
Lemma getitem_alias fuel key s fct grps :
  _N_call s < 1000 -> _aliasing_map s !! key = None ->
  find_alias (_aliases s) key = Some (fct, grps) ->
  getitem (S fuel) key s
  = exec (getitem fuel) (fct grps)
         (set_aliasing key (Some (fct, grps)) (incr_N_call s)).
Proof.
  intros Hc Emap Efind. simpl.
  destruct (Nat.ltb_spec 1000 (S (_N_call s))); [lia|].
  by rewrite Emap, Efind.
Qed.

(** ... and the entry it records is still there when the lookup returns. *)
Lemma getitem_commits fuel key s fct grps v s' :
  _N_call s < 1000 -> _aliasing_map s !! key = None ->
  find_alias (_aliases s) key = Some (fct, grps) ->
  getitem (S fuel) key s = Ok (v, s') ->
  _aliasing_map s' !! key = Some (Some (fct, grps)).
Proof.
  intros Hc Emap Efind H.
  rewrite (getitem_alias fuel key s fct grps) in H by done.
  apply (exec_preserves (getitem fuel) extends) in H.
  - destruct H as [_ _ Hm _ _]. eapply lookup_weaken; [|exact Hm].
    simpl. apply lookup_insert_eq.
  - apply extends_refl.
  - apply extends_trans.
  - intros k a w b Hk. by apply getitem_inv in Hk as [[? _] _].
Qed.

(** The first alias of the list that matches is the one found. *)
Lemma find_alias_first before a after key grps :
  (forall b, b ∈ before -> Re.search (regex b) key = None) ->
  Re.search (regex a) key = Some grps ->
  find_alias (before ++ a :: after) key = Some (alias_fct a, grps).
Proof.
  intros Hbefore Ha. induction before as [|b before IH]; simpl.
  - by rewrite Ha.
  - rewrite (Hbefore b) by (apply elem_of_cons; auto).
    apply IH. intros b' Hb'. apply Hbefore. apply elem_of_cons; auto.
Qed.

End TraceFacts.

(** ** The trace pass always ends *)
Module TerminationFacts.
Import DFProxyGetItemSpy SpyInv SpyFacts.

Lemma exec_not_out_of_fuel {R : Type} fuel bound (p : prog R) :
  (forall key s, bound <= _N_call s -> getitem fuel key s <> OutOfFuel) ->
  forall s, bound <= _N_call s -> exec (getitem fuel) p s <> OutOfFuel.
Proof.
  intros Hg. induction p as [r | e | key k IH]; intros s Hs; simpl; try done.
  destruct (getitem fuel key s) as [[v s'] | |] eqn:E; try done.
  - apply IH. apply getitem_inv in E as (_ & _ & ?). lia.
  - by apply Hg in E.
Qed.

(** The counter bounds the depth of the trace: with more fuel than calls
    left before the bound, a lookup of the spy returns or raises. *)
Lemma getitem_terminates fuel : forall key s,
  1000 - _N_call s < fuel -> getitem fuel key s <> OutOfFuel.
Proof.
  induction fuel as [|fuel IH]; intros key s Hfuel; [lia|].
  simpl. destruct (Nat.ltb_spec 1000 (S (_N_call s))); [done|].
  destruct (_aliasing_map s !! key); [done|].
  destruct (find_alias (_aliases s) key) as [[fct grps]|].
  - apply (exec_not_out_of_fuel fuel (S (_N_call s))); [|simpl; lia].
    intros k s' Hs'. apply IH. lia.
  - by destruct (bool_decide _).
Qed.

Lemma trace_loc_terminates fuel loc als valid :
  1000 < fuel -> trace_loc fuel loc (init als valid) <> OutOfFuel.
Proof.
  intros Hfuel. destruct loc as [p|]; simpl; [|done].
  pose proof (exec_not_out_of_fuel fuel 0 p
                (fun key s _ => getitem_terminates fuel key s ltac:(lia))
                (init als valid) ltac:(simpl; lia)) as H.
  by destruct (exec _ p _) as [[] | |].
Qed.

Lemma trace_vnames_terminates fuel vnames :
  1000 < fuel -> forall s, trace_vnames fuel vnames s <> OutOfFuel.
Proof.
  intros Hfuel. unfold trace_vnames.
  induction vnames as [|v vnames IH]; intros s; simpl; [done|].
  pose proof (getitem_terminates fuel v s ltac:(lia)) as H.
  destruct (getitem fuel v s) as [[w s'] | |]; simpl; [apply IH | done | done].
Qed.

End TerminationFacts.

(** ** More fuel does not change a result *)
Module FuelFacts.

Lemma exec_mono {S R : Type} (g g' : string -> S -> outcome (value * S))
    (p : prog R) :
  (forall key s, g key s <> OutOfFuel -> g' key s = g key s) ->
  forall s, exec g p s <> OutOfFuel -> exec g' p s = exec g p s.
Proof.
  intros Hg. induction p as [r | e | key k IH]; intros s H; simpl in *;
    try reflexivity.
  destruct (g key s) as [[v s'] | e |] eqn:E.
  - rewrite Hg, E by (rewrite E; discriminate). by apply IH.
  - rewrite Hg, E by (rewrite E; discriminate). reflexivity.
  - done.
Qed.

Lemma for_each_mono {A S : Type} (body body' : A -> S -> outcome S)
    (l : list A) :
  (forall x s, body x s <> OutOfFuel -> body' x s = body x s) ->
  forall s, for_each body l s <> OutOfFuel ->
            for_each body' l s = for_each body l s.
Proof.
  intros Hb. induction l as [|x l IH]; intros s H; simpl in *; [done|].
  destruct (body x s) as [s' | e |] eqn:E; simpl in *.
  - rewrite Hb, E by (rewrite E; discriminate). simpl. by apply IH.
  - rewrite Hb, E by (rewrite E; discriminate). reflexivity.
  - done.
Qed.

Lemma spy_getitem_S fuel : forall key s,
  DFProxyGetItemSpy.getitem fuel key s <> OutOfFuel ->
  DFProxyGetItemSpy.getitem (S fuel) key s = DFProxyGetItemSpy.getitem fuel key s.
Proof.
  induction fuel as [|fuel IH]; intros key s H; [done|].
  cbn [DFProxyGetItemSpy.getitem] in *.
  destruct (_ <? _)%nat; [done|].
  destruct (_ !! key); [done|].
  destruct (find_alias _ key) as [[fct grps]|]; [|done].
  by apply exec_mono.
Qed.

Lemma spy_getitem_mono fuel fuel' key s :
  fuel <= fuel' ->
  DFProxyGetItemSpy.getitem fuel key s <> OutOfFuel ->
  DFProxyGetItemSpy.getitem fuel' key s = DFProxyGetItemSpy.getitem fuel key s.
Proof.
  induction 1 as [|fuel' _ IH]; intros H; [done|].
  rewrite spy_getitem_S; rewrite IH; done.
Qed.

Lemma proxy_getitem_S proxy fuel : forall key u,
  DFProxyAliasing.getitem fuel proxy key u <> OutOfFuel ->
  DFProxyAliasing.getitem (S fuel) proxy key u
  = DFProxyAliasing.getitem fuel proxy key u.
Proof.
  induction fuel as [|fuel IH]; intros key u H; [done|].
  cbn [DFProxyAliasing.getitem] in *.
  destruct (_ !! key) as [[[fct grps]|]|]; [|done|done].
  by apply exec_mono.
Qed.

Lemma proxy_getitem_mono proxy fuel fuel' key u :
  fuel <= fuel' ->
  DFProxyAliasing.getitem fuel proxy key u <> OutOfFuel ->
  DFProxyAliasing.getitem fuel' proxy key u
  = DFProxyAliasing.getitem fuel proxy key u.
Proof.
  induction 1 as [|fuel' _ IH]; intros H; [done|].
  rewrite proxy_getitem_S; rewrite IH; done.
Qed.

Lemma bind_not_out_of_fuel {A B : Type} (m : outcome A) (f : A -> outcome B) :
  m ≫= f <> OutOfFuel -> m <> OutOfFuel.
Proof. by destruct m. Qed.

Lemma fmap_not_out_of_fuel {A B : Type} (m : outcome A) (f : A -> B) :
  f <$> m <> OutOfFuel -> m <> OutOfFuel.
Proof. by destruct m. Qed.

Lemma trace_loc_mono fuel fuel' loc s :
  fuel <= fuel' -> trace_loc fuel loc s <> OutOfFuel ->
  trace_loc fuel' loc s = trace_loc fuel loc s.
Proof.
  intros Hle H. destruct loc as [p|]; simpl in *; [|done].
  apply fmap_not_out_of_fuel in H.
  rewrite (exec_mono (DFProxyGetItemSpy.getitem fuel)); [done| |done].
  intros key s'. by apply spy_getitem_mono.
Qed.

Lemma trace_vnames_mono fuel fuel' vnames s :
  fuel <= fuel' -> trace_vnames fuel vnames s <> OutOfFuel ->
  trace_vnames fuel' vnames s = trace_vnames fuel vnames s.
Proof.
  intros Hle H. unfold trace_vnames in *. apply for_each_mono; [|done].
  intros v s' Hv. apply fmap_not_out_of_fuel in Hv.
  by rewrite (spy_getitem_mono fuel fuel').
Qed.

Lemma build_series_out_mono fuel fuel' proxy vnames :
  fuel <= fuel' -> build_series_out fuel proxy vnames <> OutOfFuel ->
  build_series_out fuel' proxy vnames = build_series_out fuel proxy vnames.
Proof.
  intros Hle H. unfold build_series_out in *. apply for_each_mono; [|done].
  intros v acc Hv. apply bind_not_out_of_fuel in Hv.
  by rewrite (proxy_getitem_mono proxy fuel fuel').
Qed.

Lemma materialize_mono fuel fuel' source vnames loc iloc spy :
  fuel <= fuel' -> materialize fuel source vnames loc iloc spy <> OutOfFuel ->
  materialize fuel' source vnames loc iloc spy
  = materialize fuel source vnames loc iloc spy.
Proof.
  intros Hle H. unfold materialize in *.
  destruct (get_df source _) as [df_used | e |]; simpl in *; try done.
  pose proof (bind_not_out_of_fuel _ _ H) as Hb.
  rewrite (build_series_out_mono fuel fuel') by done.
  destruct (build_series_out fuel _ vnames) as [series_out | e |];
    simpl in *; try done.
  destruct (concat series_out) as [df | e |]; simpl in *; try done.
  destruct loc as [p|]; [|done].
  apply bind_not_out_of_fuel, bind_not_out_of_fuel in H.
  rewrite (exec_mono
             (DFProxyAliasing.getitem fuel
                (DFProxyAliasing.mk (DFProxyGetItemSpy._aliasing_map spy)
                   df_used))); [done| |done].
  intros key u. by apply proxy_getitem_mono.
Qed.

(** Once a fetch returns or raises with some fuel, it does the same with
    any larger fuel. *)
Lemma getAliasedDF_mono fuel fuel' source vnames loc iloc :
  fuel <= fuel' ->
  getAliasedDF fuel source vnames loc iloc <> OutOfFuel ->
  getAliasedDF fuel' source vnames loc iloc
  = getAliasedDF fuel source vnames loc iloc.
Proof.
  intros Hle H. unfold getAliasedDF in *.
  pose proof (bind_not_out_of_fuel _ _ H) as H0.
  rewrite (trace_loc_mono fuel fuel') by done.
  destruct (trace_loc fuel loc _) as [spy0 | e |]; simpl in *; try done.
  destruct (_ || _); [done|].
  pose proof (bind_not_out_of_fuel _ _ H) as H1.
  rewrite (trace_vnames_mono fuel fuel') by done.
  destruct (trace_vnames fuel _ spy0) as [spy | e |]; simpl in *; try done.
  by apply materialize_mono.
Qed.

End FuelFacts.

(** ** What the source returns *)
Module SourceFacts.

Lemma mapM_Ok_length {A B : Type} (f : A -> outcome B) (l : list A) :
  forall r, mapM f l = Ok r -> length r = length l.
Proof.
  induction l as [|x l IH]; intros r H; simpl in H.
  - by injection H as <-.
  - destruct (f x) as [y | |]; try discriminate. simpl in H.
    destruct (mapM f l) as [r' | |]; try discriminate. simpl in H.
    injection H as <-. simpl. by rewrite (IH r').
Qed.

Lemma clean_loop_spec list_existing var_lst : forall clean_list unk_list x,
  x ∈ fst (_clean_var_list_loop list_existing var_lst clean_list unk_list)
  <-> x ∈ clean_list \/ (x ∈ var_lst /\ x ∈ list_existing).
Proof.
  induction var_lst as [|v rest IH]; intros clean_list unk_list x; simpl.
  - rewrite elem_of_nil. tauto.
  - rewrite elem_of_cons.
    destruct (bool_decide (v ∈ list_existing)) eqn:Ev.
    + apply bool_decide_eq_true in Ev.
      destruct (bool_decide (v ∈ clean_list)) eqn:Ec.
      * apply bool_decide_eq_true in Ec. rewrite IH.
        split; [tauto|]. intros [ | [[-> | ] ]]; tauto.
      * rewrite IH, elem_of_app, list_elem_of_singleton.
        split; [|intros [ | [[-> | ] ]]; tauto].
        intros [[ | -> ] | ]; tauto.
    + apply bool_decide_eq_false in Ev. rewrite IH.
      split; [tauto|]. intros [ | [[-> | ] ]]; tauto.
Qed.

(** The cleaned list holds the requested names that the source knows. *)
Lemma clean_var_list_spec source var_lst x :
  x ∈ fst (_clean_var_list source var_lst)
  <-> x ∈ var_lst /\ x ∈ vardict_keys source.
Proof.
  unfold _clean_var_list. rewrite clean_loop_spec, elem_of_nil. tauto.
Qed.

Lemma insert_by_col_perm z l : insert_by_col z l ≡ₚ z :: l.
Proof.
  induction l as [|y l IH]; simpl; [done|].
  destruct (_ <=? _)%nat; [done|]. rewrite IH. apply Permutation_swap.
Qed.

Lemma sorted_by_col_perm l : sorted_by_col l ≡ₚ l.
Proof.
  induction l as [|z l IH]; simpl; [done|].
  rewrite insert_by_col_perm. by constructor.
Qed.

(** Ordering by column index only permutes the names. *)
Lemma order_var_lst_perm source var_lst r :
  _order_var_lst source var_lst = Ok r -> r ≡ₚ var_lst.
Proof.
  unfold _order_var_lst.
  destruct (mapM _ var_lst) as [cols | |] eqn:E; try discriminate.
  simpl. intros [= <-]. apply mapM_Ok_length in E.
  rewrite sorted_by_col_perm. by rewrite snd_zip by lia.
Qed.

(** A fetch that succeeds returns one column for each requested name that
    the source knows. *)
Lemma get_df_columns source var_lst df :
  get_df source (Some var_lst) = Ok df ->
  forall x, x ∈ var_lst -> x ∈ vardict_keys source -> Name x ∈ columns df.
Proof.
  unfold get_df. destruct (preload_data source); [done|].
  destruct (_order_var_lst _ _) as [var_lst_c | |] eqn:Eord; try discriminate.
  simpl.
  destruct (mapM _ var_lst_c) as [col_lst | |] eqn:Ecol; try discriminate.
  simpl.
  destruct (mapM _ col_lst) as [data | |] eqn:Edata; try discriminate.
  simpl. unfold _substitute_str_enum.
  destruct (for_each _ _ _) as [[] | |]; try discriminate.
  simpl. intros [= <-] x Hx Hknown.
  apply mapM_Ok_length in Ecol, Edata.
  unfold columns. rewrite fst_zip by (rewrite length_map; lia).
  apply list_elem_of_fmap. exists x. split; [done|].
  apply order_var_lst_perm in Eord. rewrite Eord.
  by apply clean_var_list_spec.
Qed.

Lemma mapM_Ok_lookup {A B : Type} (f : A -> outcome B) (l : list A) :
  forall r, mapM f l = Ok r ->
  forall i y, r !! i = Some y -> exists x, l !! i = Some x /\ f x = Ok y.
Proof.
  induction l as [|x l IH]; intros r H i y Hy; simpl in H.
  - injection H as <-. by rewrite lookup_nil in Hy.
  - destruct (f x) as [y0 | |] eqn:Ex; try discriminate. simpl in H.
    destruct (mapM f l) as [r' | |]; try discriminate. simpl in H.
    injection H as <-. destruct i as [|i]; simpl in *.
    + injection Hy as <-. eauto.
    + by apply (IH r').
Qed.

(** Every column of a fetched table is the column of the dataset that the
    layout gives to its variable, with the rows in the order of the
    dataset. *)
Lemma get_df_cells source var_lst df v cells :
  get_df source (Some var_lst) = Ok df ->
  (Name v, cells) ∈ df ->
  exists info,
    vardict_get (_vardict source) v = Some info
    /\ ds_column (VarValues source) (col info) = Ok cells.
Proof.
  unfold get_df. destruct (preload_data source); [done|].
  destruct (_order_var_lst _ _) as [var_lst_c | |]; try discriminate.
  simpl.
  destruct (mapM _ var_lst_c) as [col_lst | |] eqn:Ecol; try discriminate.
  simpl.
  destruct (mapM _ col_lst) as [data | |] eqn:Edata; try discriminate.
  simpl. unfold _substitute_str_enum.
  destruct (for_each _ _ _) as [[] | |]; try discriminate.
  simpl. intros [= <-] Hin.
  apply elem_of_lookup_zip_with in Hin as (i & l & c & [= <- <-] & Hl & Hc).
  apply list_lookup_fmap_Some in Hl as (v' & [= <-] & Hv).
  destruct (mapM_Ok_lookup _ _ _ Edata _ _ Hc) as (n & Hn & Hcells).
  destruct (mapM_Ok_lookup _ _ _ Ecol _ _ Hn) as (v' & Hv' & Hcol).
  rewrite Hv in Hv'. injection Hv' as <-.
  destruct (vardict_get (_vardict source) v) as [info|]; [|done].
  injection Hcol as <-. eauto.
Qed.

Lemma df_getitem_Ok df key : forall out,
  df_getitem df key = Ok out ->
  exists cells,
    (Name key, cells) ∈ df
    /\ out = VSeries {| name := Some key; values := cells |}.
Proof.
  induction df as [|[l cells] df IH]; intros out H; simpl in H; [done|].
  destruct (decide (l = Name key)) as [->|].
  - injection H as <-. exists cells. split; [apply elem_of_cons; auto | done].
  - apply IH in H as (c & Hin & ->). exists c.
    split; [apply elem_of_cons; auto | done].
Qed.

Lemma clean_loop_NoDup list_existing var_lst : forall clean_list unk_list,
  NoDup clean_list ->
  NoDup (fst (_clean_var_list_loop list_existing var_lst clean_list unk_list)).
Proof.
  induction var_lst as [|v rest IH]; intros clean_list unk_list Hnd; simpl;
    [done|].
  destruct (bool_decide (v ∈ list_existing)); [|by apply IH].
  destruct (bool_decide (v ∈ clean_list)) eqn:Ec; [by apply IH|].
  apply bool_decide_eq_false in Ec. apply IH.
  apply NoDup_app. split; [done|]. split; [|apply NoDup_singleton].
  intros x Hx ->%list_elem_of_singleton. done.
Qed.

(** Two requests for the same set of names are cleaned to the same names. *)
Lemma clean_var_list_perm source l1 l2 :
  (forall x, x ∈ l1 <-> x ∈ l2) ->
  fst (_clean_var_list source l1) ≡ₚ fst (_clean_var_list source l2).
Proof.
  intros Hset. apply NoDup_Permutation.
  - apply clean_loop_NoDup, NoDup_nil_2.
  - apply clean_loop_NoDup, NoDup_nil_2.
  - intros x. rewrite !clean_var_list_spec, Hset. done.
Qed.

Lemma vardict_get_keys vardict v :
  v ∈ map fst vardict <-> is_Some (vardict_get vardict v).
Proof.
  induction vardict as [|[k info] vardict IH]; simpl.
  - rewrite elem_of_nil. split; [done | by intros [? ?]].
  - rewrite elem_of_cons. destruct (decide (k = v)) as [->|Hne].
    + split; eauto.
    + rewrite IH. split; [intros [|]; [congruence | done] | auto].
Qed.

Lemma insert_by_col_sorted z l :
  StronglySorted (fun z1 z2 : nat * string => z1.1 <= z2.1) l ->
  StronglySorted (fun z1 z2 : nat * string => z1.1 <= z2.1) (insert_by_col z l).
Proof.
  induction 1 as [|y l Hl IH Hy]; simpl.
  - repeat constructor.
  - destruct (Nat.leb_spec z.1 y.1) as [Hle|Hlt].
    + constructor; [by constructor|]. constructor; [done|].
      eapply Forall_impl; [exact Hy|]. simpl. intros; lia.
    + constructor; [done|]. rewrite insert_by_col_perm.
      constructor; [simpl; lia | done].
Qed.

Lemma sorted_by_col_sorted l :
  StronglySorted (fun z1 z2 : nat * string => z1.1 <= z2.1) (sorted_by_col l).
Proof.
  induction l as [|z l IH]; simpl; [constructor | by apply insert_by_col_sorted].
Qed.

(** When distinct variables lie in distinct columns, the order in which the
    names are requested does not matter to a fetch: only their set does. *)
Lemma get_df_set source l1 l2 :
  (forall v1 v2 i1 i2,
     vardict_get (_vardict source) v1 = Some i1 ->
     vardict_get (_vardict source) v2 = Some i2 ->
     col i1 = col i2 -> v1 = v2) ->
  (forall x, x ∈ l1 <-> x ∈ l2) ->
  get_df source (Some l1) = get_df source (Some l2).
Proof.
  intros Hinj Hset. unfold get_df. destruct (preload_data source); [done|].
  pose proof (clean_var_list_perm source l1 l2 Hset) as Hperm.
  assert (Hknown : forall l, Forall (fun v => v ∈ vardict_keys source)
                               (fst (_clean_var_list source l))).
  { intros l. apply Forall_forall. intros x Hx.
    by apply clean_var_list_spec in Hx as [_ ?]. }
  set (colof := fun v => match vardict_get (_vardict source) v with
                         | Some info => col info
                         | None => 0
                         end).
  assert (Hord : forall c, Forall (fun v => v ∈ vardict_keys source) c ->
            _order_var_lst source c
            = Ok (map snd (sorted_by_col (map (fun v => (colof v, v)) c)))).
  { intros c Hc. unfold _order_var_lst.
    assert (HmapM : mapM (fun v => match vardict_get (_vardict source) v with
                                   | Some info => Ok (col info)
                                   | None => Raise (KeyError v)
                                   end) c = Ok (map colof c)).
    { induction Hc as [|v c Hv _ IH]; simpl; [done|].
      apply vardict_get_keys in Hv as [info Hv]. unfold colof at 1.
      rewrite Hv. simpl. by rewrite IH. }
    rewrite HmapM. simpl. do 3 f_equal.
    clear. induction c as [|v c IH]; simpl; [done | by rewrite IH]. }
  rewrite !Hord by auto.
  replace (sorted_by_col (map (fun v => (colof v, v)) (_clean_var_list source l1).1))
    with (sorted_by_col (map (fun v => (colof v, v)) (_clean_var_list source l2).1));
    [done|].
  symmetry. apply (StronglySorted_unique_strong
                     (fun z1 z2 : nat * string => z1.1 <= z2.1)).
  - intros [c1 v1] [c2 v2] H1 H2 Hle Hge. simpl in *.
    rewrite sorted_by_col_perm in H1, H2.
    apply list_elem_of_fmap in H1 as (w1 & [= -> ->] & Hw1).
    apply list_elem_of_fmap in H2 as (w2 & [= -> ->] & Hw2).
    assert (Hk1 : is_Some (vardict_get (_vardict source) w1)).
    { apply vardict_get_keys. by apply clean_var_list_spec in Hw1 as [_ ?]. }
    assert (Hk2 : is_Some (vardict_get (_vardict source) w2)).
    { apply vardict_get_keys. by apply clean_var_list_spec in Hw2 as [_ ?]. }
    destruct Hk1 as [i1 Hi1], Hk2 as [i2 Hi2]. unfold colof in *.
    rewrite Hi1, Hi2 in *.
    assert (w1 = w2) as -> by (apply (Hinj _ _ _ _ Hi1 Hi2); lia).
    rewrite Hi1 in Hi2. by injection Hi2 as ->.
  - apply sorted_by_col_sorted.
  - apply sorted_by_col_sorted.
  - rewrite !sorted_by_col_perm. by apply fmap_Permutation.
Qed.

End SourceFacts.

(** ** The output table *)
Module OutputFacts.

Lemma collect_expand out vname series_out :
  collect out vname series_out = series_out ++ expand out vname.
Proof. by destruct out. Qed.

(** [series_out] is the concatenation, in request order, of what each
    requested name materializes to. *)
Lemma build_series_out_spec fuel df_proxy vnames series_out :
  build_series_out fuel df_proxy vnames = Ok series_out ->
  exists outs,
    Forall2 (fun vname out =>
               DFProxyAliasing.getitem fuel df_proxy vname tt = Ok (out, tt))
            vnames outs
    /\ series_out = mjoin (zip_with expand outs vnames).
Proof.
  unfold build_series_out.
  change series_out with ([] ++ series_out) at 2.
  cut (forall acc res,
        for_each (fun vname series_out =>
                    r ← DFProxyAliasing.getitem fuel df_proxy vname tt;
                    Ok (collect (fst r) vname series_out)) vnames acc = Ok res ->
        exists outs,
          Forall2 (fun vname out =>
                     DFProxyAliasing.getitem fuel df_proxy vname tt = Ok (out, tt))
                  vnames outs
          /\ res = acc ++ mjoin (zip_with expand outs vnames)).
  { intros Hcut H. destruct (Hcut [] series_out H) as (outs & ? & ->). eauto. }
  induction vnames as [|vname vnames IH]; intros acc res H; simpl in H.
  - injection H as <-. exists []. split; [constructor | by rewrite app_nil_r].
  - destruct (DFProxyAliasing.getitem fuel df_proxy vname tt)
      as [[out []] | |] eqn:E; try discriminate.
    simpl in H. apply IH in H as (outs & Hall & ->).
    exists (out :: outs). split; [by constructor|].
    simpl. by rewrite collect_expand, app_assoc.
Qed.

Lemma concat_labels_length l : forall num,
  length (concat_labels num l) = length l.
Proof.
  induction l as [|s l IH]; intros num; simpl; [done|].
  destruct (name s); simpl; by rewrite IH.
Qed.

Lemma concat_spec series_out df :
  concat series_out = Ok df ->
  series_out <> []
  /\ columns df = concat_labels 0 series_out
  /\ map snd df = map (fun s => pad (max_length series_out) (values s)) series_out.
Proof.
  unfold concat, columns. destruct series_out as [|s l] eqn:E; [done|].
  rewrite <- E. intros [= <-]. split; [by rewrite E|].
  split; [apply fst_zip | apply snd_zip];
    rewrite concat_labels_length, length_map; lia.
Qed.

Lemma loc_rows_spec mask df df' :
  loc_rows mask df = Ok df' ->
  columns df' = columns df /\ map snd df' = map (select mask) (map snd df).
Proof.
  unfold loc_rows, columns. destruct (_ <? _)%nat; [done|]. intros [= <-].
  rewrite !map_map. split; apply map_ext; by intros [l cells].
Qed.

Lemma iloc_rows_spec sl df :
  columns (iloc_rows sl df) = columns df
  /\ map snd (iloc_rows sl df) = map (slice_cells sl) (map snd df).
Proof.
  unfold iloc_rows, columns. rewrite !map_map.
  split; apply map_ext; by intros [l cells].
Qed.

(** Filtering and slicing keep the remaining rows in their order. *)
Lemma select_sublist mask : forall cells, sublist (select mask cells) cells.
Proof.
  induction mask as [|b mask IH]; intros [|c cells]; simpl;
    try apply sublist_nil_l.
  destruct b; [by apply sublist_skip | by apply sublist_cons].
Qed.

Lemma slice_cells_sublist sl cells : sublist (slice_cells sl cells) cells.
Proof.
  unfold slice_cells.
  etransitivity; [apply sublist_take | apply sublist_drop].
Qed.

Lemma select_rows_sublist mask iloc cells :
  sublist (select_rows mask iloc cells) cells.
Proof.
  unfold select_rows. destruct mask as [m|], iloc as [sl|]; try done.
  - etransitivity; [apply slice_cells_sublist | apply select_sublist].
  - apply select_sublist.
  - apply slice_cells_sublist.
Qed.

(** The table that the generic case returns, column by column. *)
Lemma materialize_spec fuel source vnames loc iloc spy df :
  materialize fuel source vnames loc iloc spy = Ok df ->
  exists df_used outs mask,
    get_df source
      (Some (remove_dups
               (match loc with
                | None => []
                | Some _ => DFProxyGetItemSpy._vnames_used spy
                end ++ DFProxyGetItemSpy._vnames_used spy))) = Ok df_used
    /\ Forall2 (fun vname out =>
                  DFProxyAliasing.getitem fuel
                    (DFProxyAliasing.mk (DFProxyGetItemSpy._aliasing_map spy)
                       df_used) vname tt = Ok (out, tt))
               vnames outs
    /\ match loc with
       | None => mask = None
       | Some p =>
           exists m, mask = Some m
             /\ exec (DFProxyAliasing.getitem fuel
                        (DFProxyAliasing.mk (DFProxyGetItemSpy._aliasing_map spy)
                           df_used)) p tt = Ok (m, tt)
       end
    /\ let series_out := mjoin (zip_with expand outs vnames) in
       columns df = concat_labels 0 series_out
       /\ map snd df
          = map (fun s => select_rows mask iloc
                            (pad (max_length series_out) (values s)))
                series_out.
Proof.
  unfold materialize. intros H.
  destruct (get_df source _) as [df_used | |] eqn:Hget; try discriminate.
  simpl in H.
  destruct (build_series_out fuel _ vnames) as [series_out | |] eqn:Hbuild;
    try discriminate.
  simpl in H.
  destruct (concat series_out) as [df0 | |] eqn:Hcat; try discriminate.
  simpl in H.
  apply build_series_out_spec in Hbuild as (outs & Houts & ->).
  apply concat_spec in Hcat as (_ & Hcols & Hcells).
  exists df_used, outs.
  destruct loc as [p|].
  - destruct (exec _ p tt) as [[m []] | |] eqn:Hp; try discriminate.
    simpl in H.
    destruct (loc_rows m df0) as [df1 | |] eqn:Hloc; try discriminate.
    simpl in H. injection H as <-.
    apply loc_rows_spec in Hloc as [Hc1 Hr1].
    exists (Some m). split; [done|]. split; [done|]. split; [eauto|].
    simpl. destruct iloc as [sl|]; simpl.
    + destruct (iloc_rows_spec sl df1) as [-> ->].
      rewrite Hc1, Hr1, Hcols, Hcells, !map_map. done.
    + rewrite Hc1, Hr1, Hcols, Hcells, !map_map. done.
  - simpl in H. injection H as <-.
    exists None. split; [done|]. split; [done|]. split; [done|].
    simpl. destruct iloc as [sl|]; simpl.
    + destruct (iloc_rows_spec sl df0) as [-> ->].
      rewrite Hcols, Hcells, !map_map. done.
    + rewrite Hcols, Hcells. done.
Qed.

(** When every requested name materializes to a single column, the labels
    are the requested names. *)
Lemma concat_labels_single outs vnames :
  Forall (fun out => exists s, out = VSeries s) outs ->
  length outs = length vnames ->
  forall num,
    concat_labels num (mjoin (zip_with expand outs vnames)) = map Name vnames.
Proof.
  intros Hall. revert vnames.
  induction Hall as [|out outs [s ->] _ IH]; intros [|v vnames] Hlen num;
    simpl in *; try done.
  rewrite IH by lia. done.
Qed.

End OutputFacts.

(** ** Aliases that ask for themselves *)
Module CycleFacts.

(** The materializing proxy never returns from a name whose recorded
    transform starts by asking for that same name. *)
Lemma getitem_self_loop proxy key fct grps k :
  DFProxyAliasing._aliasing_map proxy !! key = Some (Some (fct, grps)) ->
  fct grps = GetItem key k ->
  forall fuel, DFProxyAliasing.getitem fuel proxy key tt = OutOfFuel.
Proof.
  intros Hmap Hfct fuel. induction fuel as [|fuel IH]; [reflexivity|].
  cbn [DFProxyAliasing.getitem]. rewrite Hmap, Hfct. simpl. by rewrite IH.
Qed.

(** Nor from two names whose recorded transforms start by asking for each
    other. *)
Lemma getitem_two_cycle proxy p q fp gp kp fq gq kq :
  DFProxyAliasing._aliasing_map proxy !! p = Some (Some (fp, gp)) ->
  fp gp = GetItem q kp ->
  DFProxyAliasing._aliasing_map proxy !! q = Some (Some (fq, gq)) ->
  fq gq = GetItem p kq ->
  forall fuel,
    DFProxyAliasing.getitem fuel proxy p tt = OutOfFuel
    /\ DFProxyAliasing.getitem fuel proxy q tt = OutOfFuel.
Proof.
  intros Hp Hfp Hq Hfq fuel. induction fuel as [|fuel [IHp IHq]]; [done|].
  cbn [DFProxyAliasing.getitem]. rewrite Hp, Hfp, Hq, Hfq. simpl.
  by rewrite IHp, IHq.
Qed.

End CycleFacts.

(** ** An alias defined through another alias *)
Module TransitiveFacts.
Import DFProxyGetItemSpy.

Section Chain.
(** Name [b] resolves to a transform that asks for [a] and continues with
    [kb]; [a] resolves to one that asks for [x] and continues with [ka];
    [x] is matched by no alias and is a valid name. *)
Variables (als : list Alias) (valid : list string).
Variables (b a x : string) (tb ta : transform) (gb ga : groups).
Variables (kb ka : value -> prog value).
Hypothesis Hb : find_alias als b = Some (tb, gb).
Hypothesis Htb : tb gb = GetItem a kb.
Hypothesis Ha : find_alias als a = Some (ta, ga).
Hypothesis Hta : ta ga = GetItem x ka.
Hypothesis Hx : find_alias als x = None.
Hypothesis Hvalid : x ∈ valid.

Lemma chain_distinct : b <> a /\ a <> x /\ b <> x.
Proof using Hb Htb Ha Hta Hx.
  assert (a <> x) by (intros ->; congruence).
  assert (b <> x) by (intros ->; congruence).
  split; [|done]. intros ->.
  rewrite Hb in Ha. injection Ha as <- <-. congruence.
Qed.

(** On placeholders the continuations return without further lookups. *)
Variables (da db : value).
Hypothesis Hka_dum : ka dum = Ret da.
Hypothesis Hkb_dum : kb da = Ret db.

Lemma chain_trace fuel :
  trace_vnames (S (S (S fuel))) [b] (init als valid)
  = Ok {| _aliases := als; _aliasing_map := chain_map b a x tb ta gb ga;
          _vnames_used := [x]; _vnames_valid := valid; _N_call := 3 |}.
Proof using All.
  destruct chain_distinct as (Hba & Hax & Hbx).
  unfold trace_vnames, chain_map. cbn [for_each].
  cbn [getitem init incr_N_call set_aliasing append_used _N_call _aliases
       _aliasing_map _vnames_used _vnames_valid Nat.ltb Nat.leb].
  rewrite lookup_empty, Hb, Htb. cbn [exec].
  cbn [getitem init incr_N_call set_aliasing append_used _N_call _aliases
       _aliasing_map _vnames_used _vnames_valid Nat.ltb Nat.leb].
  rewrite lookup_insert_ne, lookup_empty, Ha, Hta by done. cbn [exec].
  cbn [getitem init incr_N_call set_aliasing append_used _N_call _aliases
       _aliasing_map _vnames_used _vnames_valid Nat.ltb Nat.leb].
  rewrite !lookup_insert_ne, lookup_empty, Hx by done.
  rewrite bool_decide_eq_true_2 by done.
  rewrite Hka_dum. cbn [exec]. rewrite Hkb_dum. reflexivity.
Qed.

(** On the fetched column the continuations return [va] then [vb]. *)
Variables (cells : list cell) (va vb : value).
Hypothesis Hka : ka (VSeries {| name := Some x; values := cells |}) = Ret va.
Hypothesis Hkb : kb va = Ret vb.

Lemma chain_materialize fuel :
  DFProxyAliasing.getitem (S (S (S fuel)))
    (DFProxyAliasing.mk (chain_map b a x tb ta gb ga) [(Name x, cells)]) b tt = Ok (vb, tt).
Proof using Hb Htb Ha Hta Hx Hka Hkb.
  destruct chain_distinct as (Hba & Hax & Hbx). unfold chain_map.
  cbn [DFProxyAliasing.getitem DFProxyAliasing._aliasing_map DFProxyAliasing._df].
  rewrite !lookup_insert_ne, lookup_insert_eq, Htb by done. cbn [exec].
  cbn [DFProxyAliasing.getitem DFProxyAliasing._aliasing_map DFProxyAliasing._df].
  rewrite lookup_insert_ne, lookup_insert_eq, Hta by done. cbn [exec].
  cbn [DFProxyAliasing.getitem DFProxyAliasing._aliasing_map DFProxyAliasing._df].
  rewrite lookup_insert_eq. cbn [df_getitem]. rewrite decide_True by done.
  simpl. rewrite Hka. simpl. rewrite Hkb. reflexivity.
Qed.
End Chain.

End TransitiveFacts.

Lemma wrap64_mul_wrap64 (z k : Z) : wrap64 (wrap64 z * k) = wrap64 (z * k).
Proof.
  unfold wrap64. f_equal.
  pose proof (Z.div_mod (z + 2 ^ 63) (2 ^ 64) ltac:(lia)) as Hdiv.
  set (q := ((z + 2 ^ 63) / 2 ^ 64)%Z) in *.
  set (m := ((z + 2 ^ 63) mod 2 ^ 64)%Z) in *.
  replace ((m - 2 ^ 63) * k + 2 ^ 63)%Z
    with (z * k + 2 ^ 63 + (- q * k) * 2 ^ 64)%Z.
  - apply Z_mod_plus_full.
  - replace m with (z + 2 ^ 63 - 2 ^ 64 * q)%Z by lia. ring.
Qed.

(** A fetch that returns the column [x] was asked for a known variable. *)
Lemma get_df_single_known source x cells :
  get_df source (Some [x]) = Ok [(Name x, cells)] -> x ∈ vardict_keys source.
Proof.
  unfold get_df, _clean_var_list. destruct (preload_data source); [done|].
  simpl. destruct (bool_decide (x ∈ vardict_keys source)) eqn:E.
  - intros _. by apply bool_decide_eq_true in E.
  - simpl. discriminate.
Qed.

(** ** The registry *)
Module ManagerFacts.
Import Manager.

Lemma unbind_sources_keeps srcs : forall m,
  let m' := foldl (fun m src => set_src_alias_grp src None m) m srcs in
  _alias_grps m' = _alias_grps m /\ groups_ m' = groups_ m
  /\ aliases_ m' = aliases_ m /\ _aliases m' = _aliases m
  /\ _sources m' = _sources m.
Proof.
  induction srcs as [|src srcs IH]; intros m; simpl; [done|].
  destruct (IH (set_src_alias_grp src None m)) as (-> & -> & -> & -> & ->).
  done.
Qed.

(** Deleting a registered group unbinds its sources and then raises; the
    registry of groups, the groups and the aliases are as before. *)
Lemma del_alias_grp_registered name_ logKeyError m ag :
  _alias_grps m !! name_ = Some ag ->
  let r := del_alias_grp name_ logKeyError m in
  snd r = Raise (NameError "alias_grp")
  /\ _alias_grps (fst r) = _alias_grps m /\ groups_ (fst r) = groups_ m
  /\ aliases_ (fst r) = aliases_ m.
Proof.
  intros Hag. unfold del_alias_grp. rewrite Hag. simpl.
  split; [reflexivity|].
  destruct (unbind_sources_keeps (default [] (ref_sources <$> groups_ m !! ag)) m)
    as (? & ? & ? & _). done.
Qed.

(** Registering a group under a name already in use raises and leaves the
    earlier group registered under that name. *)
Lemma add_alias_grp_registered name_ assigned_srcs m ag :
  _alias_grps m !! name_ = Some ag ->
  let r := add_alias_grp name_ assigned_srcs m in
  snd r = Raise (NameError "alias_grp")
  /\ _alias_grps (fst r) = _alias_grps m /\ groups_ (fst r) = groups_ m
  /\ aliases_ (fst r) = aliases_ m.
Proof.
  intros Hag. unfold add_alias_grp.
  pose proof (del_alias_grp_registered name_ false m ag Hag) as H.
  destruct (del_alias_grp name_ false m) as [m' r]. simpl in H.
  destruct H as (-> & ? & ? & ?). done.
Qed.

(** Registering a group under a fresh name succeeds. *)
Lemma add_alias_grp_fresh name_ assigned_srcs m :
  _alias_grps m !! name_ = None ->
  snd (add_alias_grp name_ assigned_srcs m) = Ok tt.
Proof.
  intros Hag. unfold add_alias_grp, del_alias_grp. by rewrite Hag.
Qed.

End ManagerFacts.

(** ** The materialize pass against resolution by the aliases *)
Module ReplayFacts.

Lemma exec_Ok_impl {S R : Type} (g g' : string -> S -> outcome (value * S))
    (p : prog R) :
  (forall key s r, g key s = Ok r -> g' key s = Ok r) ->
  forall s x, exec g p s = Ok x -> exec g' p s = Ok x.
Proof.
  intros Hg. induction p as [r | e | key k IH]; intros s x; simpl; try done.
  destruct (g key s) as [[v s'] | |] eqn:E; try done.
  rewrite (Hg _ _ _ E). apply IH.
Qed.

(** With an aliasing map whose entries are the resolutions of their keys,
    whatever a lookup of the materializing proxy returns is what resolving
    the name by the aliases returns, at every depth. *)
Lemma proxy_resolves_by_rules als (map : gmap string resolution) df :
  (forall key e, map !! key = Some e -> e = find_alias als key) ->
  forall n key r,
    DFProxyAliasing.getitem n (DFProxyAliasing.mk map df) key tt = Ok r ->
    resolve_by_rules n als df key tt = Ok r.
Proof.
  intros Hmap. induction n as [|n IH]; intros key r H; [done|].
  cbn [DFProxyAliasing.getitem DFProxyAliasing._aliasing_map
       DFProxyAliasing._df] in H.
  cbn [resolve_by_rules].
  destruct (map !! key) as [e|] eqn:E; [|done].
  rewrite <- (Hmap _ _ E). destruct e as [[fct grps]|]; [|done].
  eapply exec_Ok_impl; [|exact H]. intros k [] r'. apply IH.
Qed.

(** The labels of a list of named columns are their names. *)
Lemma concat_labels_named l : forall names num,
  map name l = map Some names -> concat_labels num l = map Name names.
Proof.
  induction l as [|s l IH]; intros [|n names] num H; simpl in *; try done.
  injection H as -> H. by rewrite (IH names).
Qed.

End ReplayFacts.

(** ** The claims *)

(** Evaluate the fetch from a concrete source, and the lookup of a concrete
    terminal name by the materializing proxy, where they occur in the goal. *)
Ltac compute_get_df :=
  match goal with
  | |- context [get_df ?s ?l] =>
      let v := eval vm_compute in (get_df s l) in
      change (get_df s l) with v
  end.

Ltac compute_lookup key :=
  match goal with
  | |- context [DFProxyAliasing.getitem ?f ?p key tt] =>
      let v := eval vm_compute in (DFProxyAliasing.getitem f p key tt) in
      change (DFProxyAliasing.getitem f p key tt) with v
  end.

(** The generic case of [getAliasedDF]: trace the filter, trace the
    requested names, materialize. *)
Lemma getAliasedDF_aliased fuel source g vnames loc iloc :
  alias_grp source = Some g -> aliases g <> [] ->
  getAliasedDF fuel source (Some vnames) loc iloc
  = (spy0 ← trace_loc fuel loc
              (DFProxyGetItemSpy.init (aliases g) (vardict_keys source));
     spy ← trace_vnames fuel vnames spy0;
     materialize fuel source vnames loc iloc spy).
Proof.
  intros Hag Hne. unfold getAliasedDF. rewrite Hag.
  destruct (aliases g) as [|a l] eqn:Hal; [done|]. reflexivity.
Qed.

Lemma getAliasedDF_generic fuel source g vnames loc iloc spy0 spy :
  alias_grp source = Some g -> aliases g <> [] ->
  trace_loc fuel loc
    (DFProxyGetItemSpy.init (aliases g) (vardict_keys source)) = Ok spy0 ->
  trace_vnames fuel vnames spy0 = Ok spy ->
  getAliasedDF fuel source (Some vnames) loc iloc
  = materialize fuel source vnames loc iloc spy.
Proof.
  intros Hag Hne H0 H1. rewrite (getAliasedDF_aliased _ _ g) by done.
  rewrite H0. simpl. rewrite H1. reflexivity.
Qed.

(** The spy of a fetch is consistent after the filter and any requested
    names have been traced, and still holds the aliases and valid names it
    was created with. *)
Lemma traced_spy fuel als valid loc vnames spy0 spy :
  trace_loc fuel loc (DFProxyGetItemSpy.init als valid) = Ok spy0 ->
  trace_vnames fuel vnames spy0 = Ok spy ->
  SpyInv.consistent spy
  /\ DFProxyGetItemSpy._aliases spy = als
  /\ DFProxyGetItemSpy._vnames_valid spy = valid
  /\ DFProxyGetItemSpy._aliasing_map spy0 ⊆ DFProxyGetItemSpy._aliasing_map spy
  /\ (exists l, DFProxyGetItemSpy._vnames_used spy
                = DFProxyGetItemSpy._vnames_used spy0 ++ l).
Proof.
  intros H0 H1.
  apply TraceFacts.trace_loc_inv in H0 as [[A0 V0 _ _ _] C0].
  apply TraceFacts.trace_vnames_inv in H1 as [[[A1 V1 M1 U1 _] C1] _].
  split; [apply C1, C0, SpyFacts.init_consistent|].
  split; [by rewrite A1, A0|]. split; [by rewrite V1, V0|]. done.
Qed.

(** An aliased fetch that returns a table: the two traces, the fetch of
    the used names, the lookups of the requested names and the run of the
    filter that produced it, and the table in terms of them. *)
Lemma aliased_fetch_spec fuel source g vnames loc iloc df :
  alias_grp source = Some g -> aliases g <> [] ->
  getAliasedDF fuel source (Some vnames) loc iloc = Ok df ->
  exists spy0 spy df_used outs mask,
    trace_loc fuel loc
      (DFProxyGetItemSpy.init (aliases g) (vardict_keys source)) = Ok spy0
    /\ trace_vnames fuel vnames spy0 = Ok spy
    /\ get_df source
         (Some (remove_dups
                  (match loc with
                   | None => []
                   | Some _ => DFProxyGetItemSpy._vnames_used spy
                   end ++ DFProxyGetItemSpy._vnames_used spy))) = Ok df_used
    /\ Forall2 (fun vname out =>
                  DFProxyAliasing.getitem fuel
                    (DFProxyAliasing.mk (DFProxyGetItemSpy._aliasing_map spy)
                       df_used) vname tt = Ok (out, tt))
               vnames outs
    /\ match loc with
       | None => mask = None
       | Some p =>
           exists m, mask = Some m
             /\ exec (DFProxyAliasing.getitem fuel
                        (DFProxyAliasing.mk (DFProxyGetItemSpy._aliasing_map spy)
                           df_used)) p tt = Ok (m, tt)
       end
    /\ let series_out := mjoin (zip_with expand outs vnames) in
       df = zip (concat_labels 0 series_out)
                (map (fun s => select_rows mask iloc
                                 (pad (max_length series_out) (values s)))
                     series_out).
Proof.
  intros Hag Hne H. rewrite (getAliasedDF_aliased _ _ g) in H by done.
  destruct (trace_loc _ _ _) as [spy0 | |] eqn:H0; try discriminate.
  simpl in H.
  destruct (trace_vnames _ _ _) as [spy | |] eqn:H1; try discriminate.
  simpl in H.
  apply OutputFacts.materialize_spec in H
    as (df_used & outs & mask & Hget & Houts & Hmask & Hcols & Hrows).
  exists spy0, spy, df_used, outs, mask.
  split_and!; try done. simpl.
  rewrite <- Hcols, <- Hrows. symmetry. apply zip_fst_snd.
Qed.

(** ** The case without aliases *)

(** [vnames or vnames_valid] *)
Lemma no_alias_case_no_filter fuel source vnames iloc :
  vnames = None \/ alias_grp source = None
  \/ (exists g, alias_grp source = Some g /\ aliases g = []) ->
  getAliasedDF fuel source vnames None iloc
  = (df ← get_df source
            (Some (match vnames with
                   | Some (vname :: rest) => vname :: rest
                   | _ => vardict_keys source
                   end));
     Ok (apply_iloc iloc df)).
Proof.
  intros [-> | [Hag | (g & Hag & Hal)]]; unfold getAliasedDF; simpl.
  - reflexivity.
  - rewrite Hag. simpl. by rewrite orb_true_r.
  - rewrite Hag, Hal. simpl. by rewrite orb_true_r.
Qed.

(** With a filter the case without aliases never returns a table: either
    the trace of the filter fails, or the unbound name [src] is evaluated. *)
Lemma no_alias_case_filter fuel source vnames p iloc :
  vnames = None \/ alias_grp source = None
  \/ (exists g, alias_grp source = Some g /\ aliases g = []) ->
  forall df, getAliasedDF fuel source vnames (Some p) iloc <> Ok df.
Proof.
  intros Hcase df. unfold getAliasedDF.
  destruct (trace_loc _ _ _) as [spy | e |]; simpl; try discriminate.
  destruct Hcase as [-> | [Hag | (g & Hag & Hal)]].
  - simpl. discriminate.
  - rewrite Hag. simpl. rewrite orb_true_r. discriminate.
  - rewrite Hag, Hal. simpl. rewrite orb_true_r. discriminate.
Qed.

(** ** The filter of an aliased fetch *)

(** On an aliased source, a fetch with a filter that returns a table has
    traced the filter first; the terminal names that this trace reached are
    among the columns fetched from the source; the mask is what the filter
    returns on the materializing proxy; and the columns of the table are
    those of the requested names only. *)
Lemma aliased_filter_only_names fuel source g vnames p iloc df :
  alias_grp source = Some g -> aliases g <> [] ->
  getAliasedDF fuel source (Some vnames) (Some p) iloc = Ok df ->
  exists spy0 spy df_used outs mask,
    trace_loc fuel (Some p)
      (DFProxyGetItemSpy.init (aliases g) (vardict_keys source)) = Ok spy0
    /\ trace_vnames fuel vnames spy0 = Ok spy
    /\ get_df source
         (Some (remove_dups (DFProxyGetItemSpy._vnames_used spy
                             ++ DFProxyGetItemSpy._vnames_used spy)))
       = Ok df_used
    /\ (forall x, x ∈ DFProxyGetItemSpy._vnames_used spy0 ->
                  Name x ∈ columns df_used)
    /\ exec (DFProxyAliasing.getitem fuel
               (DFProxyAliasing.mk (DFProxyGetItemSpy._aliasing_map spy) df_used))
            p tt = Ok (mask, tt)
    /\ Forall2 (fun vname out =>
                  DFProxyAliasing.getitem fuel
                    (DFProxyAliasing.mk (DFProxyGetItemSpy._aliasing_map spy)
                       df_used) vname tt = Ok (out, tt))
               vnames outs
    /\ let series_out := mjoin (zip_with expand outs vnames) in
       columns df = concat_labels 0 series_out
       /\ map snd df
          = map (fun s => select_rows (Some mask) iloc
                            (pad (max_length series_out) (values s)))
                series_out.
Proof.
  intros Hag Hne H. rewrite (getAliasedDF_aliased _ _ g) in H by done.
  destruct (trace_loc _ _ _) as [spy0 | |] eqn:H0; try discriminate.
  simpl in H.
  destruct (trace_vnames _ _ _) as [spy | |] eqn:H1; try discriminate.
  simpl in H.
  apply OutputFacts.materialize_spec in H
    as (df_used & outs & mask & Hget & Houts & (m & -> & Hm) & Hcols & Hrows).
  exists spy0, spy, df_used, outs, m.
  destruct (traced_spy _ _ _ _ _ _ _ H0 H1) as (Cs & _ & Vs & _ & l & Hl).
  repeat split; try done.
  intros x Hx.
  assert (Hin : x ∈ DFProxyGetItemSpy._vnames_used spy)
    by (rewrite Hl; apply elem_of_app; auto).
  eapply SourceFacts.get_df_columns; [exact Hget | |].
  - apply elem_of_remove_dups, elem_of_app. auto.
  - rewrite <- Vs. by apply Cs.
Qed.

(** C1. On an aliased source, the materialize pass works on the aliasing map
    that the trace pass built, and on no other.  Nothing recorded while the
    filter was traced is changed afterwards; every entry of the map is the
    resolution of its name by the aliases of the group, which is what the
    trace pass applied when it met the name; every requested name has an
    entry.  Whatever a lookup of the materializing proxy returns, at any
    depth and on any fetched table, is what resolving the name by the
    aliases returns: both passes see the same resolution for every name.
    When the fetch returns a table, each requested name contributes to it
    the result of the recorded transform applied to the recorded groups on
    the materializing proxy, or the fetched column when its entry is
    terminal; the filter is run on the same proxy; and the table is built
    from these results. *)
Theorem C1_materialize_replays_trace fuel source g vnames loc iloc spy0 spy :
  alias_grp source = Some g -> aliases g <> [] ->
  trace_loc fuel loc
    (DFProxyGetItemSpy.init (aliases g) (vardict_keys source)) = Ok spy0 ->
  trace_vnames fuel vnames spy0 = Ok spy ->
  let aliasing_map := DFProxyGetItemSpy._aliasing_map spy in
  DFProxyGetItemSpy._aliasing_map spy0 ⊆ aliasing_map
  /\ (forall key e,
        aliasing_map !! key = Some e -> e = find_alias (aliases g) key)
  /\ (forall v, v ∈ vnames -> is_Some (aliasing_map !! v))
  /\ (forall df_used n key r,
        DFProxyAliasing.getitem n (DFProxyAliasing.mk aliasing_map df_used)
          key tt = Ok r ->
        resolve_by_rules n (aliases g) df_used key tt = Ok r)
  /\ forall df,
       getAliasedDF fuel source (Some vnames) loc iloc = Ok df ->
       exists df_used outs mask,
         let df_proxy := DFProxyAliasing.mk aliasing_map df_used in
         get_df source
           (Some (remove_dups
                    (match loc with
                     | None => []
                     | Some _ => DFProxyGetItemSpy._vnames_used spy
                     end ++ DFProxyGetItemSpy._vnames_used spy))) = Ok df_used
         /\ Forall2
              (fun vname out =>
                 exists n, fuel = S n
                   /\ match aliasing_map !! vname with
                      | Some (Some (fct, grps)) =>
                          exec (DFProxyAliasing.getitem n df_proxy)
                               (fct grps) tt = Ok (out, tt)
                      | Some None => df_getitem df_used vname = Ok out
                      | None => False
                      end)
              vnames outs
         /\ match loc with
            | None => mask = None
            | Some p =>
                exists m, mask = Some m
                  /\ exec (DFProxyAliasing.getitem fuel df_proxy) p tt
                     = Ok (m, tt)
                  /\ exec (resolve_by_rules fuel (aliases g) df_used) p tt
                     = Ok (m, tt)
            end
         /\ let series_out := mjoin (zip_with expand outs vnames) in
            df = zip (concat_labels 0 series_out)
                     (map (fun s => select_rows mask iloc
                                      (pad (max_length series_out) (values s)))
                          series_out).
Proof.
  intros Hag Hne H0 H1 aliasing_map.
  destruct (traced_spy _ _ _ _ _ _ _ H0 H1) as (Cs & As & _ & Hsub & _).
  assert (Hmap : forall key e,
            aliasing_map !! key = Some e -> e = find_alias (aliases g) key).
  { intros key e He. rewrite <- As. by apply (SpyInv.cons_map _ Cs). }
  assert (Hrules : forall df_used n key r,
            DFProxyAliasing.getitem n (DFProxyAliasing.mk aliasing_map df_used)
              key tt = Ok r ->
            resolve_by_rules n (aliases g) df_used key tt = Ok r).
  { intros df_used. by apply ReplayFacts.proxy_resolves_by_rules. }
  split; [exact Hsub|]. split; [exact Hmap|].
  split; [apply (TraceFacts.trace_vnames_inv _ _ _ _ H1)|].
  split; [exact Hrules|].
  intros df H.
  destruct (aliased_fetch_spec _ _ _ _ _ _ _ Hag Hne H)
    as (spy0' & spy' & df_used & outs & mask & H0' & H1' & Hget & Houts & Hmask
        & Hdf).
  rewrite H0 in H0'. injection H0' as <-.
  rewrite H1 in H1'. injection H1' as <-.
  exists df_used, outs, mask. simpl. split_and!; [exact Hget| | |exact Hdf].
  - eapply Forall2_impl; [exact Houts|]. intros vname out Hitem.
    destruct fuel as [|n]; [discriminate|]. exists n. split; [done|].
    cbn [DFProxyAliasing.getitem DFProxyAliasing._aliasing_map
         DFProxyAliasing._df] in Hitem.
    fold aliasing_map in Hitem.
    destruct (aliasing_map !! vname) as [[[fct grps]|]|]; [done| |done].
    destruct (df_getitem df_used vname) as [v| |]; try discriminate.
    simpl in Hitem. by injection Hitem as ->.
  - destruct loc as [p|]; [|done].
    destruct Hmask as (m & -> & Hm). exists m. split_and!; [done|done|].
    eapply ReplayFacts.exec_Ok_impl; [|exact Hm].
    intros key [] r. apply Hrules.
Qed.

Lemma C1_materialize_replays_trace_witness :
  getAliasedDF 3
    (Samples.file_XY (Samples.grp [Samples.aliasB; Samples.aliasA]))
    (Some ["B"; "Y"]) (Some Samples.loc_X) None
  = Ok [(Name "B", [Int 4; Int 6; Int 8]);
        (Name "Y", [Int (-10); Int 20; Int 30])]
  /\ exists spy df_used outs mask,
       trace_vnames 3 ["B"; "Y"]
         (DFProxyGetItemSpy.append_used "X"
            (DFProxyGetItemSpy.set_aliasing "X" None
               (DFProxyGetItemSpy.incr_N_call
                  (DFProxyGetItemSpy.init [Samples.aliasB; Samples.aliasA]
                     ["X"; "Y"])))) = Ok spy
       /\ Forall2
            (fun vname out =>
               exists n, 3 = S n
                 /\ match DFProxyGetItemSpy._aliasing_map spy !! vname with
                    | Some (Some (fct, grps)) =>
                        exec (DFProxyAliasing.getitem n
                                (DFProxyAliasing.mk
                                   (DFProxyGetItemSpy._aliasing_map spy)
                                   df_used))
                             (fct grps) tt = Ok (out, tt)
                    | Some None => df_getitem df_used vname = Ok out
                    | None => False
                    end)
            ["B"; "Y"] outs
       /\ [(Name "B", [Int 4; Int 6; Int 8]);
           (Name "Y", [Int (-10); Int 20; Int 30])]
          = zip (concat_labels 0 (mjoin (zip_with expand outs ["B"; "Y"])))
                (map (fun s =>
                        select_rows mask None
                          (pad (max_length
                                  (mjoin (zip_with expand outs ["B"; "Y"])))
                               (values s)))
                     (mjoin (zip_with expand outs ["B"; "Y"]))).
Proof.
  split; [reflexivity|].
  destruct (C1_materialize_replays_trace 3
              (Samples.file_XY (Samples.grp [Samples.aliasB; Samples.aliasA]))
              {| _name := "g"; aliases := [Samples.aliasB; Samples.aliasA] |}
              ["B"; "Y"] (Some Samples.loc_X) None _ _
              eq_refl ltac:(discriminate) eq_refl eq_refl)
    as (_ & _ & _ & _ & Hrun).
  destruct (Hrun _ eq_refl) as (df_used & outs & mask & _ & Houts & _ & Hdf).
  eexists _, df_used, outs, mask. split; [reflexivity|].
  split; [exact Houts|]. exact Hdf.
Defined.

(** C2. The call counter does not stop an alias that asks for its own name.
    With the alias ["A"] defined as [df["A"]], the trace pass of a fetch of
    ["X"] and ["A"] returns after three lookups, the last one answered from
    the aliasing map, and the materialize pass, which has no counter, never
    returns; the same holds for two aliases that ask for each other. *)
Theorem C2_self_reference_escapes_the_guard :
  (exists spy,
     trace_vnames 2 ["X"; "A"]
       (DFProxyGetItemSpy.init [Samples.alias_self] ["X"; "Y"]) = Ok spy
     /\ DFProxyGetItemSpy._N_call spy = 3)
  /\ (forall fuel,
        getAliasedDF fuel (Samples.file_XY (Samples.grp [Samples.alias_self]))
          (Some ["X"; "A"]) None None = OutOfFuel)
  /\ (exists spy,
        trace_vnames 3 ["X"; "P"]
          (DFProxyGetItemSpy.init [Samples.alias_PQ; Samples.alias_QP] ["X"; "Y"])
        = Ok spy
        /\ DFProxyGetItemSpy._N_call spy = 4)
  /\ (forall fuel,
        getAliasedDF fuel
          (Samples.file_XY (Samples.grp [Samples.alias_PQ; Samples.alias_QP]))
          (Some ["X"; "P"]) None None = OutOfFuel).
Proof.
  split; [eexists; split; reflexivity|].
  split.
  - intros [|[|fuel]]; [reflexivity | reflexivity |].
    erewrite getAliasedDF_generic;
      [| reflexivity | discriminate | reflexivity | reflexivity].
    unfold materialize, build_series_out.
    compute_get_df. cbn -[DFProxyAliasing.getitem].
    compute_lookup "X". cbn -[DFProxyAliasing.getitem].
    match goal with
    | |- context [DFProxyAliasing.getitem ?f ?p "A" tt] =>
        rewrite (CycleFacts.getitem_self_loop p "A"
                   (alias_fct Samples.alias_self) [] Ret eq_refl eq_refl f)
    end.
    reflexivity.
  - split; [eexists; split; reflexivity|].
    intros [|[|[|fuel]]]; [reflexivity | reflexivity | reflexivity |].
    erewrite getAliasedDF_generic;
      [| reflexivity | discriminate | reflexivity | reflexivity].
    unfold materialize, build_series_out.
    compute_get_df. cbn -[DFProxyAliasing.getitem].
    compute_lookup "X". cbn -[DFProxyAliasing.getitem].
    match goal with
    | |- context [DFProxyAliasing.getitem ?f ?p "P" tt] =>
        rewrite (proj1 (CycleFacts.getitem_two_cycle p "P" "Q"
                   (alias_fct Samples.alias_PQ) [] Ret
                   (alias_fct Samples.alias_QP) [] Ret
                   eq_refl eq_refl eq_refl eq_refl f))
    end.
    reflexivity.
Qed.

(** C3. With alias ["B"] defined as [df["A"] * 2] and alias ["A"] defined
    as [df["X"] + 1], a fetch of ["B"] traces down to the single terminal
    name ["X"], which is all it asks of the source, and returns one column,
    named ["B"], that holds [(X + 1) * 2] row by row. *)
Theorem C3_transitive_alias fuel source gname cells :
  alias_grp source
  = Some {| _name := gname; aliases := [Samples.aliasB; Samples.aliasA] |} ->
  get_df source (Some ["X"]) = Ok [(Name "X", cells)] ->
  2 < fuel ->
  (exists spy,
     trace_vnames fuel ["B"]
       (DFProxyGetItemSpy.init [Samples.aliasB; Samples.aliasA]
          (vardict_keys source)) = Ok spy
     /\ DFProxyGetItemSpy._vnames_used spy = ["X"])
  /\ getAliasedDF fuel source (Some ["B"]) None None
     = Ok [(Name "B", map (cell_map (fun x => (x + 1) * 2)%Z) cells)].
Proof.
  intros Hag Hget Hfuel.
  destruct fuel as [|[|[|fuel]]]; try lia.
  pose proof (get_df_single_known _ _ _ Hget) as Hvalid.
  pose proof (TransitiveFacts.chain_trace
                [Samples.aliasB; Samples.aliasA] (vardict_keys source)
                "B" "A" "X" (alias_fct Samples.aliasB) (alias_fct Samples.aliasA)
                [] [] times2 plus1 eq_refl eq_refl eq_refl eq_refl eq_refl Hvalid
                _ _ eq_refl eq_refl fuel) as Htrace.
  split; [eexists; split; [exact Htrace | reflexivity]|].
  erewrite getAliasedDF_generic;
    [| exact Hag | discriminate | reflexivity | exact Htrace].
  unfold materialize.
  cbn [DFProxyGetItemSpy._vnames_used DFProxyGetItemSpy._aliasing_map].
  change (remove_dups ([] ++ ["X"])) with ["X"]. rewrite Hget.
  cbn [mbind outcome_bind]. unfold build_series_out. cbn [for_each].
  erewrite (TransitiveFacts.chain_materialize
              [Samples.aliasB; Samples.aliasA]
              "B" "A" "X" (alias_fct Samples.aliasB) (alias_fct Samples.aliasA)
              [] [] times2 plus1 eq_refl eq_refl eq_refl eq_refl eq_refl
              cells _ _ eq_refl eq_refl fuel).
  cbn. rewrite Nat.max_0_r, Nat.sub_diag. cbn.
  rewrite app_nil_r, map_map. do 3 f_equal.
  apply map_ext. intros [z|]; [|reflexivity]. cbn. f_equal.
  apply wrap64_mul_wrap64.
Qed.

Lemma C3_transitive_alias_witness :
  getAliasedDF 3 (Samples.file_XY (Samples.grp [Samples.aliasB; Samples.aliasA]))
    (Some ["B"]) None None
  = Ok [(Name "B", [Int 4; Int 6; Int 8])].
Proof.
  exact (proj2 (C3_transitive_alias 3
                  (Samples.file_XY (Samples.grp [Samples.aliasB; Samples.aliasA]))
                  "g" [Int 1; Int 2; Int 3] eq_refl eq_refl ltac:(lia))).
Defined.




(** C5. Without a filter, a fetch on a source that has no alias group
    returns the requested columns, sliced; with the filter [df["X"] > 0]
    the same fetch, and the fetches on a source whose group is empty or with
    no names given, end in the NameError of the unbound name [src] instead
    of returning the filtered rows. *)
Theorem C5_no_alias_case_filter_raises :
  getAliasedDF 1 (Samples.file_XY None) (Some ["X"]) None
    (Some {| start := Some 1%Z; stop := None |})
  = Ok [(Name "X", [Int 2; Int 3])]
  /\ getAliasedDF 1 (Samples.file_XY None) (Some ["X"]) (Some Samples.loc_X) None
     = Raise (NameError "src")
  /\ getAliasedDF 1 (Samples.file_XY (Samples.grp [])) (Some ["X"])
       (Some Samples.loc_X) None
     = Raise (NameError "src")
  /\ getAliasedDF 1 (Samples.file_XY (Samples.grp [Samples.aliasC])) None
       (Some Samples.loc_X) None
     = Raise (NameError "src").
Proof. repeat split; reflexivity. Qed.

(** C6. In a registry where the group ["g"] is bound to the source ["run"]
    and holds one alias, registering ["g"] again raises the NameError of the
    unbound name [alias_grp].  The group registered first is still the one
    under that name, with its alias, and the alias still refers to it; only
    the source has lost its binding. *)
Theorem C6_register_group_twice_raises :
  snd (Manager.add_alias_grp "g" ["run"] Manager.init) = Ok tt
  /\ snd (Manager.add_alias_grp "g" ["run"] registry_g)
     = Raise (NameError "alias_grp")
  /\ Manager._alias_grps (fst (Manager.add_alias_grp "g" ["run"] registry_g))
     = Manager._alias_grps registry_g
  /\ Manager.groups_ (fst (Manager.add_alias_grp "g" ["run"] registry_g)) !! 1
     = Some {| Manager.name := "g"; Manager.aliases := [2];
               Manager.ref_sources := [0] |}
  /\ Manager.ref_alias_grps
       <$> Manager.aliases_ (fst (Manager.add_alias_grp "g" ["run"] registry_g)) !! 2
     = Some [1]
  /\ Manager.alias_grp <$> Manager.sources_ registry_g !! 0 = Some (Some 1)
  /\ Manager.alias_grp
       <$> Manager.sources_ (fst (Manager.add_alias_grp "g" ["run"] registry_g)) !! 0
     = Some None.
Proof.
  split; [reflexivity|].
  destruct (ManagerFacts.add_alias_grp_registered "g" ["run"] registry_g 1
              eq_refl) as (Hr & Hreg & Hgrp & Hal).
  split; [exact Hr|]. split; [exact Hreg|].
  rewrite Hgrp, Hal. repeat split; reflexivity.
Qed.

(** C7. On a source without alias group, a fetch of ["X"] with the filter
    [df["Y"] > 0], whose name ["Y"] is not requested, traces ["Y"] and then
    ends in the NameError of the unbound name [src]: no mask is applied and
    no table is returned.  The same happens with a group whose alias ["C"]
    the filter refers to, when no names are given. *)
Theorem C7_filter_without_aliases_raises :
  (exists spy,
     trace_loc 1 (Some (GetItem "Y" positive))
       (DFProxyGetItemSpy.init [] ["X"; "Y"]) = Ok spy
     /\ DFProxyGetItemSpy._vnames_used spy = ["Y"])
  /\ getAliasedDF 1 (Samples.file_XY None) (Some ["X"])
       (Some (GetItem "Y" positive)) None
     = Raise (NameError "src")
  /\ getAliasedDF 2 (Samples.file_XY (Samples.grp [Samples.aliasC])) None
       (Some Samples.loc_C) None
     = Raise (NameError "src").
Proof.
  split; [eexists; split; reflexivity|]. split; reflexivity.
Qed.

(** C8. The table returned by an aliased fetch is determined by the request:
    with the spy of its trace pass, the table fetched for the used names,
    what each requested name materializes to and the mask that the filter
    gives on the materializing proxy, it is the sequence, in request order,
    of what the names contribute: a single column contributes itself
    renamed to the requested name, a list contributes its columns in place,
    each under its own name.  The labels of the table are the labels of
    that sequence, hence the names of its columns when all have one, and the
    requested names when no name expands to a list; every column holds the
    rows of the materialized column that the filter and then the slice
    keep, in their original order.  A requested name that no alias matches
    materializes to the column of the dataset that holds this variable, row
    by row. *)
Theorem C8_output_columns_and_rows fuel source g vnames loc iloc df :
  alias_grp source = Some g -> aliases g <> [] ->
  getAliasedDF fuel source (Some vnames) loc iloc = Ok df ->
  exists spy0 spy df_used outs mask,
    trace_loc fuel loc
      (DFProxyGetItemSpy.init (aliases g) (vardict_keys source)) = Ok spy0
    /\ trace_vnames fuel vnames spy0 = Ok spy
    /\ get_df source
         (Some (remove_dups
                  (match loc with
                   | None => []
                   | Some _ => DFProxyGetItemSpy._vnames_used spy
                   end ++ DFProxyGetItemSpy._vnames_used spy))) = Ok df_used
    /\ Forall2 (fun vname out =>
                  DFProxyAliasing.getitem fuel
                    (DFProxyAliasing.mk (DFProxyGetItemSpy._aliasing_map spy)
                       df_used) vname tt = Ok (out, tt))
               vnames outs
    /\ match loc with
       | None => mask = None
       | Some p =>
           exists m, mask = Some m
             /\ exec (DFProxyAliasing.getitem fuel
                        (DFProxyAliasing.mk (DFProxyGetItemSpy._aliasing_map spy)
                           df_used)) p tt = Ok (m, tt)
       end
    /\ Forall2 (fun vname out =>
                  find_alias (aliases g) vname = None ->
                  exists info cells,
                    vardict_get (_vardict source) vname = Some info
                    /\ ds_column (VarValues source) (col info) = Ok cells
                    /\ out = VSeries {| name := Some vname; values := cells |})
               vnames outs
    /\ let series_out := mjoin (zip_with expand outs vnames) in
       df = zip (concat_labels 0 series_out)
                (map (fun s => select_rows mask iloc
                                 (pad (max_length series_out) (values s)))
                     series_out)
       /\ columns df = concat_labels 0 series_out
       /\ map snd df
          = map (fun s => select_rows mask iloc
                            (pad (max_length series_out) (values s)))
                series_out
       /\ Forall2 (fun cells s =>
                     sublist cells (pad (max_length series_out) (values s)))
                  (map snd df) series_out
       /\ (forall names,
             map name series_out = map Some names ->
             columns df = map Name names)
       /\ (Forall (fun out => exists s, out = VSeries s) outs ->
           columns df = map Name vnames).
Proof.
  intros Hag Hne H.
  destruct (aliased_fetch_spec _ _ _ _ _ _ _ Hag Hne H)
    as (spy0 & spy & df_used & outs & mask & H0 & H1 & Hget & Houts & Hmask
        & Hdf).
  destruct (traced_spy _ _ _ _ _ _ _ H0 H1) as (Cs & As & _).
  exists spy0, spy, df_used, outs, mask.
  split; [exact H0|]. split; [exact H1|]. split; [exact Hget|].
  split; [exact Houts|]. split; [exact Hmask|]. split.
  - eapply Forall2_impl; [exact Houts|]. intros vname out Hitem Hfind.
    destruct fuel as [|fuel]; [discriminate|].
    cbn [DFProxyAliasing.getitem DFProxyAliasing._aliasing_map
         DFProxyAliasing._df] in Hitem.
    destruct (DFProxyGetItemSpy._aliasing_map spy !! vname) as [e|] eqn:Em;
      [|discriminate].
    pose proof (SpyInv.cons_map _ Cs _ _ Em) as He.
    rewrite As, Hfind in He. subst e.
    destruct (df_getitem df_used vname) as [out' | |] eqn:Edf;
      try discriminate.
    simpl in Hitem. injection Hitem as <-.
    apply SourceFacts.df_getitem_Ok in Edf as (cells & Hin & ->).
    destruct (SourceFacts.get_df_cells _ _ _ _ _ Hget Hin) as (info & ? & ?).
    eauto.
  - simpl in *. set (series_out := mjoin (zip_with expand outs vnames)) in *.
    assert (Hcols : columns df = concat_labels 0 series_out).
    { rewrite Hdf. unfold columns. apply fst_zip.
      by rewrite OutputFacts.concat_labels_length, length_map. }
    assert (Hrows : map snd df
                    = map (fun s => select_rows mask iloc
                                      (pad (max_length series_out) (values s)))
                          series_out).
    { rewrite Hdf. apply snd_zip.
      by rewrite OutputFacts.concat_labels_length, length_map. }
    split; [exact Hdf|]. split; [exact Hcols|]. split; [exact Hrows|].
    split_and!.
    + rewrite Hrows. apply Forall2_fmap_l, Forall_Forall2_diag, Forall_forall.
      intros s _. apply OutputFacts.select_rows_sublist.
    + intros names Hnames. rewrite Hcols.
      by apply ReplayFacts.concat_labels_named.
    + intros Hsingle. rewrite Hcols.
      apply OutputFacts.concat_labels_single; [done|].
      symmetry. by eapply Forall2_length.
Qed.

Lemma C8_output_columns_and_rows_witness :
  getAliasedDF 3
    (Samples.file_XY
       (Samples.grp [Samples.aliasB; Samples.aliasA; Samples.alias_both;
                     Samples.aliasC]))
    (Some ["Y"; "both"; "B"]) (Some Samples.loc_C)
    (Some {| start := Some 1%Z; stop := None |})
  = Ok [(Name "Y", [Int 30]); (Name "Y", [Int 30]); (Name "X", [Int 3]);
        (Name "B", [Int 8])]
  /\ exists spy df_used outs mask,
       Forall2 (fun vname out =>
                  DFProxyAliasing.getitem 3
                    (DFProxyAliasing.mk (DFProxyGetItemSpy._aliasing_map spy)
                       df_used) vname tt = Ok (out, tt))
               ["Y"; "both"; "B"] outs
       /\ [(Name "Y", [Int 30]); (Name "Y", [Int 30]); (Name "X", [Int 3]);
           (Name "B", [Int 8])]
          = zip (concat_labels 0
                   (mjoin (zip_with expand outs ["Y"; "both"; "B"])))
                (map (fun s =>
                        select_rows mask
                          (Some {| start := Some 1%Z; stop := None |})
                          (pad (max_length
                                  (mjoin (zip_with expand outs
                                            ["Y"; "both"; "B"])))
                               (values s)))
                     (mjoin (zip_with expand outs ["Y"; "both"; "B"]))).
Proof.
  split; [reflexivity|].
  destruct (C8_output_columns_and_rows 3
              (Samples.file_XY
                 (Samples.grp [Samples.aliasB; Samples.aliasA;
                               Samples.alias_both; Samples.aliasC]))
              {| _name := "g";
                 aliases := [Samples.aliasB; Samples.aliasA; Samples.alias_both;
                             Samples.aliasC] |}
              ["Y"; "both"; "B"] (Some Samples.loc_C)
              (Some {| start := Some 1%Z; stop := None |})
              [(Name "Y", [Int 30]); (Name "Y", [Int 30]); (Name "X", [Int 3]);
               (Name "B", [Int 8])]
              eq_refl ltac:(discriminate) eq_refl)
    as (spy0 & spy & df_used & outs & mask & _ & _ & _ & Houts & _ & _ & Hdf
        & _).
  exists spy, df_used, outs, mask. split; [exact Houts|]. exact Hdf.
Defined.

(** C9. When several aliases of the group match a name, the lookup commits
    to the one registered first, whatever the later ones are: it records
    that alias's transform with the groups of its match, runs it, and the
    record is what the materialize pass will find. *)
Theorem C9_first_match_wins before a after key grps fuel spy :
  (forall b, b ∈ before -> Re.search (regex b) key = None) ->
  Re.search (regex a) key = Some grps ->
  DFProxyGetItemSpy._aliases spy = before ++ a :: after ->
  DFProxyGetItemSpy._aliasing_map spy !! key = None ->
  DFProxyGetItemSpy._N_call spy < 1000 ->
  find_alias (before ++ a :: after) key = Some (alias_fct a, grps)
  /\ DFProxyGetItemSpy.getitem (S fuel) key spy
     = exec (DFProxyGetItemSpy.getitem fuel) (alias_fct a grps)
            (DFProxyGetItemSpy.set_aliasing key (Some (alias_fct a, grps))
               (DFProxyGetItemSpy.incr_N_call spy))
  /\ forall v spy',
       DFProxyGetItemSpy.getitem (S fuel) key spy = Ok (v, spy') ->
       DFProxyGetItemSpy._aliasing_map spy' !! key
       = Some (Some (alias_fct a, grps)).
Proof.
  intros Hbefore Ha Hal Emap Hc.
  pose proof (TraceFacts.find_alias_first before a after key grps Hbefore Ha)
    as Hfind.
  split; [exact Hfind|]. rewrite <- Hal in Hfind. split.
  - by apply TraceFacts.getitem_alias.
  - intros v spy'. by apply TraceFacts.getitem_commits.
Qed.

Lemma C9_first_match_wins_witness :
  Re.search (regex Samples.alias_v1) "v1" = Some []
  /\ find_alias [Samples.alias_v_any; Samples.alias_v1] "v1"
     = Some (alias_fct Samples.alias_v_any, ["1"])
  /\ getAliasedDF 2
       (Samples.file_XY (Samples.grp [Samples.alias_v_any; Samples.alias_v1]))
       (Some ["v1"]) None None
     = Ok [(Name "v1", [Int 1; Int 2; Int 3])].
Proof.
  split; [reflexivity|]. split; [|reflexivity].
  refine (proj1 (C9_first_match_wins [] Samples.alias_v_any [Samples.alias_v1]
            "v1" ["1"] 0
            (DFProxyGetItemSpy.init [Samples.alias_v_any; Samples.alias_v1] [])
            _ eq_refl eq_refl eq_refl _)).
  - intros b Hb. by apply elem_of_nil in Hb.
  - simpl. lia.
Defined.

(** C10. An alias is matched by unanchored search: if some substring of a
    name is in the language of the pattern of an alias, and no alias
    registered before it matches, then the name is resolved through that
    alias, also when the name is a valid raw column: the lookup records the
    alias's transform, runs it, and the name is not recorded as terminal. *)
Theorem C10_unanchored_search before a after pre mid post fuel spy :
  Re.plang (regex a) (list_ascii_of_string mid) ->
  (forall b, b ∈ before ->
     Re.search (regex b) (pre +:+ mid +:+ post) = None) ->
  DFProxyGetItemSpy._aliases spy = before ++ a :: after ->
  DFProxyGetItemSpy._aliasing_map spy !! (pre +:+ mid +:+ post) = None ->
  DFProxyGetItemSpy._N_call spy < 1000 ->
  exists grps,
    Re.search (regex a) (pre +:+ mid +:+ post) = Some grps
    /\ DFProxyGetItemSpy.getitem (S fuel) (pre +:+ mid +:+ post) spy
       = exec (DFProxyGetItemSpy.getitem fuel) (alias_fct a grps)
              (DFProxyGetItemSpy.set_aliasing (pre +:+ mid +:+ post)
                 (Some (alias_fct a, grps))
                 (DFProxyGetItemSpy.incr_N_call spy))
    /\ forall v spy',
         DFProxyGetItemSpy.getitem (S fuel) (pre +:+ mid +:+ post) spy
         = Ok (v, spy') ->
         DFProxyGetItemSpy._aliasing_map spy' !! (pre +:+ mid +:+ post)
         = Some (Some (alias_fct a, grps)).
Proof.
  intros Hlang Hbefore Hal Emap Hc.
  destruct (ReFacts.search_substring (regex a) pre mid post Hlang) as [grps Hg].
  exists grps. split; [exact Hg|].
  pose proof (TraceFacts.find_alias_first before a after _ grps Hbefore Hg)
    as Hfind.
  rewrite <- Hal in Hfind. split.
  - by apply TraceFacts.getitem_alias.
  - intros v spy'. by apply TraceFacts.getitem_commits.
Qed.

Lemma C10_unanchored_search_witness :
  exists grps,
    Re.search (regex Samples.aliasA) "xAy" = Some grps
    /\ forall v spy',
         DFProxyGetItemSpy.getitem 3 "xAy"
           (DFProxyGetItemSpy.init [Samples.aliasA] ["X"; "xAy"]) = Ok (v, spy') ->
         DFProxyGetItemSpy._aliasing_map spy' !! "xAy"
         = Some (Some (alias_fct Samples.aliasA, grps)).
Proof.
  destruct (C10_unanchored_search [] Samples.aliasA [] "x" "A" "y" 2
              (DFProxyGetItemSpy.init [Samples.aliasA] ["X"; "xAy"]))
    as (grps & Hg & _ & Hmap).
  - apply (Re.PCons false (Re.Chr "A") [] ["A"%char] []); constructor.
  - intros b Hb. by apply elem_of_nil in Hb.
  - reflexivity.
  - reflexivity.
  - simpl. lia.
  - exists grps. split; [exact Hg | exact Hmap].
Defined.

(** * Further properties *)

(** ** datasource.py: cleaning and ordering the requested names *)
Module CleanFacts.

Lemma clean_loop_sublist list_existing var_lst : forall clean_list unk_list,
  exists l', fst (_clean_var_list_loop list_existing var_lst clean_list unk_list)
             = clean_list ++ l'
             /\ sublist l' var_lst.
Proof.
  induction var_lst as [|v rest IH]; intros clean_list unk_list; simpl.
  - exists []. by rewrite app_nil_r.
  - destruct (bool_decide (v ∈ list_existing)).
    + destruct (bool_decide (v ∈ clean_list)).
      * destruct (IH clean_list unk_list) as (l' & -> & Hsub).
        exists l'. split; [done | by apply sublist_cons].
      * destruct (IH (clean_list ++ [v]) unk_list) as (l' & -> & Hsub).
        exists (v :: l'). rewrite <- app_assoc. split; [done | by apply sublist_skip].
    + destruct (IH clean_list (unk_list ++ [v])) as (l' & -> & Hsub).
      exists l'. split; [done | by apply sublist_cons].
Qed.

Lemma clean_loop_unk list_existing var_lst : forall clean_list unk_list,
  snd (_clean_var_list_loop list_existing var_lst clean_list unk_list)
  = unk_list ++ filter (fun v => v ∉ list_existing) var_lst.
Proof.
  induction var_lst as [|v rest IH]; intros clean_list unk_list; simpl.
  - by rewrite app_nil_r.
  - rewrite filter_cons.
    destruct (bool_decide (v ∈ list_existing)) eqn:Ev.
    + apply bool_decide_eq_true in Ev. rewrite decide_False by auto.
      destruct (bool_decide (v ∈ clean_list)); apply IH.
    + apply bool_decide_eq_false in Ev. rewrite decide_True by auto.
      rewrite IH, <- app_assoc. done.
Qed.

(** A list of known names without repetition is left as it is. *)
Lemma clean_loop_id list_existing var_lst : forall clean_list unk_list,
  NoDup (clean_list ++ var_lst) ->
  Forall (fun v => v ∈ list_existing) var_lst ->
  _clean_var_list_loop list_existing var_lst clean_list unk_list
  = (clean_list ++ var_lst, unk_list).
Proof.
  induction var_lst as [|v rest IH]; intros clean_list unk_list Hnd Hall; simpl.
  - by rewrite app_nil_r.
  - apply Forall_cons in Hall as [Hv Hrest].
    rewrite bool_decide_eq_true_2 by done.
    apply NoDup_app in Hnd as (Hc & Hdisj & Hvr).
    rewrite bool_decide_eq_false_2.
    + rewrite IH; [by rewrite <- app_assoc | | done].
      rewrite <- app_assoc. apply NoDup_app. split; [done|]. split; [|done].
      intros x Hx. by apply Hdisj.
    + intros Hin. apply (Hdisj v Hin). by left.
Qed.

End CleanFacts.

(** X1. [_clean_var_list] splits the requested names: the clean list holds
    exactly the requested names that the source knows, each once, in the
    order of the request; the other list holds the unknown ones, as often
    and in the order they were requested. *)
Theorem X1_clean_var_list_partition source var_lst :
  NoDup (fst (_clean_var_list source var_lst))
  /\ sublist (fst (_clean_var_list source var_lst)) var_lst
  /\ (forall x, x ∈ fst (_clean_var_list source var_lst)
                <-> x ∈ var_lst /\ x ∈ vardict_keys source)
  /\ snd (_clean_var_list source var_lst)
     = filter (fun v => v ∉ vardict_keys source) var_lst.
Proof.
  split; [apply SourceFacts.clean_loop_NoDup, NoDup_nil_2|]. split.
  - unfold _clean_var_list.
    destruct (CleanFacts.clean_loop_sublist (vardict_keys source) var_lst [] [])
      as (l' & -> & Hsub). done.
  - split; [apply SourceFacts.clean_var_list_spec|].
    unfold _clean_var_list. by rewrite CleanFacts.clean_loop_unk.
Qed.

(** X2. Cleaning is idempotent: the clean list of a request cleans to
    itself, with nothing unknown left. *)
Theorem X2_clean_var_list_idempotent source var_lst :
  _clean_var_list source (fst (_clean_var_list source var_lst))
  = (fst (_clean_var_list source var_lst), []).
Proof.
  unfold _clean_var_list at 1.
  rewrite CleanFacts.clean_loop_id; [done | |].
  - apply SourceFacts.clean_loop_NoDup, NoDup_nil_2.
  - apply Forall_forall. intros x Hx.
    by apply SourceFacts.clean_var_list_spec in Hx as [_ ?].
Qed.

(** Ordering the names by column index. *)
Module OrderFacts.

Lemma StronglySorted_impl {A : Type} (R R' : relation A) (l : list A) :
  (forall x y, R x y -> R' x y) -> StronglySorted R l -> StronglySorted R' l.
Proof.
  intros HR. induction 1 as [|x l _ IH Hx]; constructor; [done|].
  eapply Forall_impl; [exact Hx | auto].
Qed.

(** The column index that the layout gives to a name. *)
Lemma mapM_col_Ok source var_lst cols :
  mapM (fun v => match vardict_get (_vardict source) v with
                 | Some info => Ok (col info)
                 | None => Raise (KeyError v)
                 end) var_lst = Ok cols ->
  Forall2 (fun v c => exists info,
             vardict_get (_vardict source) v = Some info /\ col info = c)
          var_lst cols.
Proof.
  revert cols. induction var_lst as [|v l IH]; intros cols H; simpl in H.
  - injection H as <-. constructor.
  - destruct (vardict_get (_vardict source) v) as [info|] eqn:Ev;
      [|discriminate].
    simpl in H.
    destruct (mapM _ l) as [cols' | |]; try discriminate. simpl in H.
    injection H as <-. constructor; [eauto | by apply IH].
Qed.

Lemma mapM_col_known source var_lst :
  Forall (fun v => v ∈ vardict_keys source) var_lst ->
  exists cols,
    mapM (fun v => match vardict_get (_vardict source) v with
                   | Some info => Ok (col info)
                   | None => Raise (KeyError v)
                   end) var_lst = Ok cols.
Proof.
  induction 1 as [|v l Hv _ [cols IH]]; simpl; [eauto|].
  apply SourceFacts.vardict_get_keys in Hv as [info ->]. simpl.
  rewrite IH. simpl. eauto.
Qed.

Lemma mapM_col_unknown source before u after :
  Forall (fun v => v ∈ vardict_keys source) before ->
  u ∉ vardict_keys source ->
  mapM (fun v => match vardict_get (_vardict source) v with
                 | Some info => Ok (col info)
                 | None => Raise (KeyError v)
                 end) (before ++ u :: after) = Raise (KeyError u).
Proof.
  intros Hb Hu. induction Hb as [|v l Hv _ IH]; simpl.
  - destruct (vardict_get (_vardict source) u) eqn:Eu; [|done].
    exfalso. apply Hu, SourceFacts.vardict_get_keys. eauto.
  - apply SourceFacts.vardict_get_keys in Hv as [info ->]. simpl.
    by rewrite IH.
Qed.

Lemma Forall2_zip_fst {A B : Type} (P : A -> B -> Prop) (l : list A) (k : list B) :
  Forall2 P l k -> Forall (fun z => P z.2 z.1) (zip k l).
Proof. induction 1; simpl; constructor; auto. Qed.

End OrderFacts.

(** X3. When [_order_var_lst] returns, every given name is known to the
    source and the result holds the same names, rearranged so that their
    column indexes never decrease. *)
Theorem X3_order_var_lst_sorted source var_lst r :
  _order_var_lst source var_lst = Ok r ->
  Forall (fun v => v ∈ vardict_keys source) var_lst
  /\ r ≡ₚ var_lst
  /\ StronglySorted
       (fun v1 v2 => forall i1 i2,
          vardict_get (_vardict source) v1 = Some i1 ->
          vardict_get (_vardict source) v2 = Some i2 -> col i1 <= col i2) r.
Proof.
  intros H. split; [|split; [by eapply SourceFacts.order_var_lst_perm|]].
  - unfold _order_var_lst in H.
    destruct (mapM _ var_lst) as [cols | |] eqn:E; try discriminate.
    apply OrderFacts.mapM_col_Ok in E.
    eapply Forall2_Forall_l; [exact E|]. apply Forall_forall.
    intros c _ v (info & Hv & _). apply SourceFacts.vardict_get_keys. eauto.
  - unfold _order_var_lst in H.
    destruct (mapM _ var_lst) as [cols | |] eqn:E; try discriminate.
    simpl in H. injection H as <-.
    apply OrderFacts.mapM_col_Ok, OrderFacts.Forall2_zip_fst in E.
    rewrite <- (SourceFacts.sorted_by_col_perm (zip cols var_lst)) in E.
    pose proof (SourceFacts.sorted_by_col_sorted (zip cols var_lst)) as Hs.
    induction Hs as [|z l _ IH Hz]; simpl; constructor.
    + apply IH. by apply Forall_cons in E as [_ ?].
    + apply Forall_cons in E as [(iz & Hiz & Hcz) El].
      apply Forall_fmap, Forall_forall. intros y Hy i1 i2 H1 H2.
      rewrite Forall_forall in Hz, El.
      destruct (El y Hy) as (iy & Hiy & Hcy). specialize (Hz y Hy).
      simpl in *. rewrite Hiz in H1. rewrite Hiy in H2.
      injection H1 as <-. injection H2 as <-. lia.
Qed.

Lemma X3_order_var_lst_sorted_witness :
  _order_var_lst (Samples.file_XY None) ["Y"; "X"] = Ok ["X"; "Y"]
  /\ ["X"; "Y"] ≡ₚ ["Y"; "X"].
Proof.
  split; [reflexivity|].
  exact (proj1 (proj2 (X3_order_var_lst_sorted (Samples.file_XY None)
                         ["Y"; "X"] ["X"; "Y"] eq_refl))).
Defined.

(** ** datasource.py: the table that [get_df] returns *)
Module FetchFacts.

Lemma mapM_Ok_Forall {A B : Type} (f : A -> outcome B) (l : list A) :
  (exists r, mapM f l = Ok r) <-> Forall (fun x => exists y, f x = Ok y) l.
Proof.
  induction l as [|x l IH]; simpl.
  - split; [constructor | eauto].
  - split.
    + intros [r H]. destruct (f x) as [y | |] eqn:Ex; try discriminate.
      simpl in H. destruct (mapM f l) as [r' | |]; try discriminate.
      constructor; [eauto | apply IH; eauto].
    + intros [[y Hy] [r' Hr]%IH]%Forall_cons. rewrite Hy. simpl.
      rewrite Hr. simpl. eauto.
Qed.

Lemma for_each_check_Ok {A : Type} (check : A -> outcome unit) (l : list A) :
  for_each (fun x (_ : unit) => check x) l tt = Ok tt
  <-> Forall (fun x => check x = Ok tt) l.
Proof.
  induction l as [|x l IH]; simpl.
  - split; [constructor | done].
  - split.
    + destruct (check x) as [[] | |] eqn:Ex; try discriminate. simpl.
      intros H. constructor; [done | by apply IH].
    + intros [-> H]%Forall_cons. simpl. by apply IH.
Qed.

(** The check that [_substitute_str_enum] makes on one column. *)
Lemma substitute_Ok source df df' :
  _substitute_str_enum source df = Ok df' <->
  df' = df
  /\ Forall (fun l => exists v info,
               l = Name v /\ vardict_get (_vardict source) v = Some info
               /\ known_type source (v_type info) = true) (columns df).
Proof.
  unfold _substitute_str_enum.
  split.
  - destruct (for_each _ (columns df) tt) as [[] | |] eqn:E; try discriminate.
    simpl. intros [= <-]. split; [done|].
    apply for_each_check_Ok in E. eapply Forall_impl; [exact E|].
    intros [v|n] Hc; simpl in Hc; [|discriminate].
    destruct (vardict_get (_vardict source) v) as [info|] eqn:Ev;
      [|discriminate].
    destruct (known_type source (v_type info)) eqn:Ek; [eauto | discriminate].
  - intros [-> Hall].
    assert (E : for_each (fun l (_ : unit) =>
                  match l with
                  | Name v =>
                      match vardict_get (_vardict source) v with
                      | Some info =>
                          if known_type source (v_type info) then Ok tt
                          else Raise (UnknownVarType (v_type info) v)
                      | None => Raise (KeyError v)
                      end
                  | Pos _ => Raise (KeyError "")
                  end) (columns df) tt = Ok tt).
    { apply for_each_check_Ok. eapply Forall_impl; [exact Hall|].
      intros l (v & info & -> & -> & ->). done. }
    by rewrite E.
Qed.

(** How a successful fetch is put together. *)
Lemma get_df_inv source var_lst df :
  get_df source (Some var_lst) = Ok df ->
  exists var_lst_c col_lst data,
    preload_data source = false
    /\ _order_var_lst source (fst (_clean_var_list source var_lst))
       = Ok var_lst_c
    /\ Forall2 (fun v c => exists info,
                  vardict_get (_vardict source) v = Some info /\ col info = c)
               var_lst_c col_lst
    /\ mapM (ds_column (VarValues source)) col_lst = Ok data
    /\ df = zip (map Name var_lst_c) data
    /\ Forall (fun l => exists v info,
                 l = Name v /\ vardict_get (_vardict source) v = Some info
                 /\ known_type source (v_type info) = true) (columns df).
Proof.
  unfold get_df. destruct (preload_data source); [done|].
  destruct (_order_var_lst _ _) as [var_lst_c | |]; try discriminate.
  simpl.
  destruct (mapM _ var_lst_c) as [col_lst | |] eqn:Ecol; try discriminate.
  simpl.
  destruct (mapM _ col_lst) as [data | |] eqn:Edata; try discriminate.
  simpl.
  destruct (_substitute_str_enum _ _) as [df' | |] eqn:Esub; try discriminate.
  simpl. intros [= <-]. apply substitute_Ok in Esub as [-> Hall].
  exists var_lst_c, col_lst, data.
  repeat split; try done. by apply OrderFacts.mapM_col_Ok.
Qed.

Lemma ds_column_length ds c cells :
  ds_column ds c = Ok cells -> length cells = length ds.
Proof. apply SourceFacts.mapM_Ok_length. Qed.

End FetchFacts.

(** X4. When distinct variables lie in distinct columns of the dataset, a
    fetch depends only on the set of the requested names: neither their
    order nor their repetition changes the table. *)
Theorem X4_get_df_set_of_names source l1 l2 :
  (forall v1 v2 i1 i2,
     vardict_get (_vardict source) v1 = Some i1 ->
     vardict_get (_vardict source) v2 = Some i2 ->
     col i1 = col i2 -> v1 = v2) ->
  (forall x, x ∈ l1 <-> x ∈ l2) ->
  get_df source (Some l1) = get_df source (Some l2).
Proof. apply SourceFacts.get_df_set. Qed.

Lemma X4_get_df_set_of_names_witness :
  get_df (Samples.file_XY None) (Some ["Y"; "X"; "Y"; "Z"])
  = get_df (Samples.file_XY None) (Some ["X"; "Z"; "Y"]).
Proof.
  apply (X4_get_df_set_of_names (Samples.file_XY None)).
  - intros v1 v2 i1 i2 H1 H2 Hc. simpl in H1, H2.
    repeat case_decide; simplify_eq; simpl in *; congruence.
  - intros x. rewrite !elem_of_cons, !elem_of_nil. tauto.
Defined.



(** A request that is already clean and in column order. *)
Module FetchAllFacts.

Lemma sorted_by_col_id l :
  StronglySorted (fun z1 z2 : nat * string => z1.1 <= z2.1) l ->
  sorted_by_col l = l.
Proof.
  induction 1 as [|z l _ IH Hz]; [done|].
  change (sorted_by_col (z :: l)) with (insert_by_col z (sorted_by_col l)).
  rewrite IH. destruct l as [|y l]; simpl; [done|].
  apply Forall_cons in Hz as [Hzy _].
  by rewrite (proj2 (Nat.leb_le _ _) Hzy).
Qed.

(** A list of known names that is already in column order is left as it
    is. *)
Lemma order_var_lst_id source var_lst :
  Forall (fun v => v ∈ vardict_keys source) var_lst ->
  StronglySorted
    (fun v1 v2 => forall i1 i2,
       vardict_get (_vardict source) v1 = Some i1 ->
       vardict_get (_vardict source) v2 = Some i2 -> col i1 <= col i2)
    var_lst ->
  _order_var_lst source var_lst = Ok var_lst.
Proof.
  intros Hknown Hsorted. unfold _order_var_lst.
  destruct (OrderFacts.mapM_col_known source var_lst Hknown) as [cols Hcols].
  rewrite Hcols. simpl.
  pose proof (OrderFacts.mapM_col_Ok _ _ _ Hcols) as Hrel.
  rewrite sorted_by_col_id.
  - rewrite snd_zip; [done|]. apply Forall2_length in Hrel. lia.
  - clear Hcols Hknown. induction Hrel as [|v c l k (iv & Hiv & <-) Hrel IH];
      simpl; constructor.
    + apply IH. by apply StronglySorted_inv in Hsorted as [? _].
    + apply StronglySorted_inv in Hsorted as [_ Hv].
      apply OrderFacts.Forall2_zip_fst in Hrel.
      apply Forall_forall. intros [c' v'] Hin. simpl.
      rewrite Forall_forall in Hrel. destruct (Hrel _ Hin) as (i' & Hi' & Hc').
      simpl in Hi', Hc'. subst c'.
      rewrite Forall_forall in Hv. apply (Hv v'); [|done|done].
      apply elem_of_zip_r in Hin. done.
Qed.

End FetchAllFacts.

(** The fetch of all the variables. *)
Module FetchNoneFacts.

Lemma get_df_all_names source :
  NoDup (vardict_keys source) ->
  StronglySorted
    (fun v1 v2 => forall i1 i2,
       vardict_get (_vardict source) v1 = Some i1 ->
       vardict_get (_vardict source) v2 = Some i2 -> col i1 <= col i2)
    (vardict_keys source) ->
  get_df source None = get_df source (Some (vardict_keys source)).
Proof.
  intros Hnd Hsorted. unfold get_df. destruct (preload_data source); [done|].
  unfold _clean_var_list.
  rewrite CleanFacts.clean_loop_id; [| done | by apply Forall_forall].
  simpl. rewrite FetchAllFacts.order_var_lst_id; [done | | done].
  by apply Forall_forall.
Qed.

End FetchNoneFacts.

(** X6. For a layout that lists each variable once and by increasing column
    index, as [_load_data] builds it, a fetch with [var_lst=None] and a fetch
    of all the names of the layout return the same. *)
Theorem X6_get_df_all_names source :
  NoDup (vardict_keys source) ->
  StronglySorted
    (fun v1 v2 => forall i1 i2,
       vardict_get (_vardict source) v1 = Some i1 ->
       vardict_get (_vardict source) v2 = Some i2 -> col i1 <= col i2)
    (vardict_keys source) ->
  get_df source None = get_df source (Some (vardict_keys source)).
Proof. apply FetchNoneFacts.get_df_all_names. Qed.

Lemma X6_get_df_all_names_witness :
  get_df (Samples.file_XY None) None
  = get_df (Samples.file_XY None) (Some ["X"; "Y"]).
Proof.
  apply (X6_get_df_all_names (Samples.file_XY None)).
  - apply (bool_decide_unpack _). reflexivity.
  - repeat constructor; intros i1 i2 [= <-] [= <-]; simpl; lia.
Defined.

(** When a fetch returns a table. *)
Module FetchOkFacts.

Lemma get_df_succeeds_iff source var_lst :
  (exists df, get_df source (Some var_lst) = Ok df)
  <-> preload_data source = false
      /\ forall v info,
           v ∈ var_lst -> vardict_get (_vardict source) v = Some info ->
           known_type source (v_type info) = true
           /\ Forall (fun row => col info < length row) (VarValues source).
Proof.
  split.
  - intros [df H].
    destruct (FetchFacts.get_df_inv _ _ _ H)
      as (var_lst_c & col_lst & data & Hpre & Hord & Hcols & Hdata & -> & Hty).
    split; [done|]. intros v info Hv Hinfo.
    assert (Hin : v ∈ var_lst_c).
    { apply SourceFacts.order_var_lst_perm in Hord. rewrite Hord.
      apply SourceFacts.clean_var_list_spec. split; [done|].
      apply SourceFacts.vardict_get_keys. eauto. }
    assert (Hlen : length data = length var_lst_c).
    { apply SourceFacts.mapM_Ok_length in Hdata. rewrite Hdata.
      symmetry. by eapply Forall2_length. }
    split.
    + unfold columns in Hty. rewrite fst_zip in Hty by (rewrite length_map; lia).
      rewrite Forall_forall in Hty.
      destruct (Hty (Name v)) as (v' & info' & [= <-] & Hv' & Hk).
      { apply list_elem_of_fmap. eauto. }
      rewrite Hinfo in Hv'. by injection Hv' as <-.
    + apply list_elem_of_lookup in Hin as [i Hi].
      destruct (Forall2_lookup_l _ _ _ _ _ Hcols Hi) as (c & Hc & info' & Hv' & <-).
      rewrite Hinfo in Hv'. injection Hv' as <-.
      assert (Hcol : exists cells, ds_column (VarValues source) (col info) = Ok cells).
      { assert (Hall : exists r, mapM (ds_column (VarValues source)) col_lst = Ok r)
          by eauto.
        apply FetchFacts.mapM_Ok_Forall in Hall. rewrite Forall_forall in Hall.
        apply Hall. by eapply list_elem_of_lookup_2. }
      apply FetchFacts.mapM_Ok_Forall in Hcol.
      eapply Forall_impl; [exact Hcol|]. intros row [y Hy]. simpl in Hy.
      destruct (row !! col info) eqn:Er; [|discriminate].
      by eapply lookup_lt_Some.
  - intros [Hpre Hall]. unfold get_df. rewrite Hpre.
    pose proof (SourceFacts.clean_var_list_spec source var_lst) as Hclean.
    assert (Hknown : Forall (fun v => v ∈ vardict_keys source)
                       (fst (_clean_var_list source var_lst))).
    { apply Forall_forall. intros x Hx. by apply Hclean in Hx as [_ ?]. }
    destruct (OrderFacts.mapM_col_known _ _ Hknown) as [cols0 Hcols0].
    assert (Hord : exists var_lst_c,
               _order_var_lst source (fst (_clean_var_list source var_lst))
               = Ok var_lst_c).
    { unfold _order_var_lst. rewrite Hcols0. simpl. eauto. }
    destruct Hord as [var_lst_c Hord]. rewrite Hord. simpl.
    pose proof (SourceFacts.order_var_lst_perm _ _ _ Hord) as Hperm.
    assert (Hc : Forall (fun v => v ∈ var_lst /\ v ∈ vardict_keys source)
                   var_lst_c).
    { apply Forall_forall. intros x Hx. rewrite Hperm in Hx. by apply Hclean. }
    assert (Hknown_c : Forall (fun v => v ∈ vardict_keys source) var_lst_c).
    { eapply Forall_impl; [exact Hc|]. by intros ? [_ ?]. }
    destruct (OrderFacts.mapM_col_known _ _ Hknown_c) as [col_lst Hcol_lst].
    rewrite Hcol_lst. simpl.
    pose proof (OrderFacts.mapM_col_Ok _ _ _ Hcol_lst) as Hrel.
    assert (Hdata : exists data,
               mapM (ds_column (VarValues source)) col_lst = Ok data).
    { apply FetchFacts.mapM_Ok_Forall. apply Forall_forall. intros c Hcin.
      apply list_elem_of_lookup in Hcin as [i Hi].
      destruct (Forall2_lookup_r _ _ _ _ _ Hrel Hi) as (v & Hv & info & Hinfo & <-).
      rewrite Forall_forall in Hc.
      destruct (Hc v) as [Hvl _]; [by eapply list_elem_of_lookup_2|].
      destruct (Hall v info Hvl Hinfo) as [_ Hrows].
      apply FetchFacts.mapM_Ok_Forall.
      eapply Forall_impl; [exact Hrows|]. intros row Hlt. simpl in Hlt.
      apply lookup_lt_is_Some_2 in Hlt as [z ->]. eauto. }
    destruct Hdata as [data Hdata]. rewrite Hdata. simpl.
    assert (Hsub : _substitute_str_enum source (zip (map Name var_lst_c) data)
                   = Ok (zip (map Name var_lst_c) data)).
    { apply FetchFacts.substitute_Ok. split; [done|].
      unfold columns. rewrite fst_zip.
      - apply Forall_fmap. eapply Forall_impl; [exact Hc|].
        intros v [Hvl Hvk]. simpl.
        apply SourceFacts.vardict_get_keys in Hvk as [info Hinfo].
        exists v, info. split; [done|]. split; [done|].
        by apply (Hall v info).
      - rewrite length_map.
        apply SourceFacts.mapM_Ok_length in Hdata. rewrite Hdata.
        apply Forall2_length in Hrel. lia. }
    rewrite Hsub. simpl. eauto.
Qed.

End FetchOkFacts.

(** X7. A fetch of a list of names returns a table only if preloading is
    disabled and every requested variable that the source knows has a known
    type and a column index within every row of the dataset: with
    preloading enabled, with a requested variable of unknown type or with a
    column index beyond a row, the fetch raises. *)
Theorem X7_get_df_success_conditions source var_lst df :
  get_df source (Some var_lst) = Ok df ->
  preload_data source = false
  /\ forall v info,
       v ∈ var_lst -> vardict_get (_vardict source) v = Some info ->
       known_type source (v_type info) = true
       /\ Forall (fun row => col info < length row) (VarValues source).
Proof.
  intros H. apply (proj1 (FetchOkFacts.get_df_succeeds_iff source var_lst)).
  by exists df.
Qed.

Lemma X7_get_df_success_conditions_witness :
  preload_data (Samples.file_XY None) = false
  /\ forall v info,
       v ∈ ["Y"; "Q"; "X"] ->
       vardict_get (_vardict (Samples.file_XY None)) v = Some info ->
       known_type (Samples.file_XY None) (v_type info) = true
       /\ Forall (fun row => col info < length row)
                 (VarValues (Samples.file_XY None)).
Proof.
  apply (X7_get_df_success_conditions (Samples.file_XY None) ["Y"; "Q"; "X"]
           [(Name "X", [Int 1; Int 2; Int 3]);
            (Name "Y", [Int (-10); Int 20; Int 30])]%Z).
  reflexivity.
Defined.

(** ** aliasing.py: what the trace pass guarantees *)
Module UsedFacts.
Import DFProxyGetItemSpy SpyInv SpyFacts SpyUsed.

Lemma keeps_NoDup_refl s : keeps_NoDup s s.
Proof. split; [apply inv_refl | auto]. Qed.

Lemma keeps_NoDup_trans s1 s2 s3 :
  keeps_NoDup s1 s2 -> keeps_NoDup s2 s3 -> keeps_NoDup s1 s3.
Proof.
  intros [I1 N1] [I2 N2]. split; [by eapply inv_trans|].
  intros Hc Hn. apply N2; [by apply I1 | by apply N1].
Qed.

(** A lookup never records a terminal name twice. *)
Lemma getitem_keeps_NoDup fuel : forall key s v s',
  getitem fuel key s = Ok (v, s') -> keeps_NoDup s s'.
Proof.
  induction fuel as [|fuel IH]; intros key s v s' H; [discriminate|].
  split; [by apply getitem_inv in H as [? _]|].
  intros Hcons Hnd. simpl in H.
  destruct (Nat.ltb_spec 1000 (S (_N_call s))) as [|Hcalls]; [discriminate|].
  destruct (_aliasing_map s !! key) as [e|] eqn:Emap.
  - by injection H as <- <-.
  - destruct (find_alias (_aliases s) key) as [[fct grps]|] eqn:Efind.
    + apply (exec_preserves (getitem fuel) keeps_NoDup) in H.
      * destruct H as [_ HN]. apply HN; [|done].
        apply (resolve_inv (incr_N_call s) key fct grps Emap Efind).
        apply incr_inv; [lia | done].
      * apply keeps_NoDup_refl.
      * apply keeps_NoDup_trans.
      * exact (IH).
    + destruct (bool_decide (key ∈ _vnames_valid s)); [|discriminate].
      injection H as <- <-. simpl. apply NoDup_app.
      split; [done|]. split; [|apply NoDup_singleton].
      intros x Hx ->%list_elem_of_singleton.
      apply (cons_terminal _ Hcons) in Hx. congruence.
Qed.

Lemma trace_loc_keeps_NoDup fuel loc s s' :
  trace_loc fuel loc s = Ok s' -> keeps_NoDup s s'.
Proof.
  destruct loc as [p|]; simpl.
  - destruct (exec (getitem fuel) p s) as [[r s1] | |] eqn:E; try discriminate.
    intros [= <-].
    apply (exec_preserves (getitem fuel) keeps_NoDup) in E;
      [done | apply keeps_NoDup_refl | apply keeps_NoDup_trans |].
    intros key a w b Hk. by eapply getitem_keeps_NoDup.
  - intros [= <-]. apply keeps_NoDup_refl.
Qed.

Lemma trace_vnames_keeps_NoDup fuel vnames : forall s s',
  trace_vnames fuel vnames s = Ok s' -> keeps_NoDup s s'.
Proof.
  unfold trace_vnames.
  induction vnames as [|x l IH]; intros s s' H; simpl in H.
  - injection H as <-. apply keeps_NoDup_refl.
  - destruct (getitem fuel x s) as [[w s1] | |] eqn:E; try discriminate.
    simpl in H. eapply keeps_NoDup_trans; [|by apply IH].
    by eapply getitem_keeps_NoDup.
Qed.

(** Every requested name costs at least one call. *)
Lemma trace_vnames_calls fuel vnames : forall s s',
  trace_vnames fuel vnames s = Ok s' ->
  _N_call s + length vnames <= _N_call s'.
Proof.
  unfold trace_vnames.
  induction vnames as [|x l IH]; intros s s' H; simpl in H.
  - injection H as <-. simpl. lia.
  - destruct (getitem fuel x s) as [[w s1] | |] eqn:E; try discriminate.
    simpl in H. apply getitem_inv in E as (_ & _ & Hlt).
    apply IH in H. simpl. lia.
Qed.

End UsedFacts.

(** X8. The trace pass always ends: with more fuel than the bound of the
    call counter, tracing a filter and tracing requested names return a spy
    or raise, whatever the aliases are, also when they ask for themselves
    or keep asking for new names. *)
Theorem X8_trace_pass_ends fuel als valid loc vnames :
  1000 < fuel ->
  trace_loc fuel loc (DFProxyGetItemSpy.init als valid) <> OutOfFuel
  /\ forall spy, trace_vnames fuel vnames spy <> OutOfFuel.
Proof.
  intros Hfuel. split.
  - by apply TerminationFacts.trace_loc_terminates.
  - by apply TerminationFacts.trace_vnames_terminates.
Qed.

Lemma X8_trace_pass_ends_witness :
  trace_vnames 1001 ["A"; "X"]
    (DFProxyGetItemSpy.init [Samples.alias_self] ["X"; "Y"]) <> OutOfFuel.
Proof.
  apply (X8_trace_pass_ends 1001 [Samples.alias_self] ["X"; "Y"] None
           ["A"; "X"]).
  lia.
Defined.

(** X9. Every requested name costs a call of the spy, so an aliased fetch
    that returns a table was asked for at most 1000 names: a longer request
    cannot be served, cycle or not. *)
Theorem X9_at_most_1000_names fuel source g vnames loc iloc df :
  alias_grp source = Some g -> aliases g <> [] ->
  getAliasedDF fuel source (Some vnames) loc iloc = Ok df ->
  length vnames <= 1000.
Proof.
  intros Hag Hne H. rewrite (getAliasedDF_aliased _ _ g) in H by done.
  destruct (trace_loc _ _ _) as [spy0 | |] eqn:H0; try discriminate.
  simpl in H.
  destruct (trace_vnames _ _ _) as [spy | |] eqn:H1; try discriminate.
  destruct (traced_spy _ _ _ _ _ _ _ H0 H1) as (Cs & _).
  apply UsedFacts.trace_vnames_calls in H1.
  pose proof (SpyInv.cons_calls _ Cs). lia.
Qed.

Lemma X9_at_most_1000_names_witness :
  getAliasedDF 3
    (Samples.file_XY (Samples.grp [Samples.aliasB; Samples.aliasA]))
    (Some ["B"]) None None
  = Ok [(Name "B", [Int 4; Int 6; Int 8])]
  /\ length ["B"] <= 1000.
Proof.
  split; [reflexivity|].
  apply (X9_at_most_1000_names 3
           (Samples.file_XY (Samples.grp [Samples.aliasB; Samples.aliasA]))
           {| _name := "g"; aliases := [Samples.aliasB; Samples.aliasA] |}
           ["B"] None None [(Name "B", [Int 4; Int 6; Int 8])]).
  - reflexivity.
  - discriminate.
  - reflexivity.
Defined.

(** X10. After the trace pass of a fetch, the list of used names holds no
    name twice; it holds exactly the names recorded as terminal in the
    aliasing map; each of them is a valid name of the source that no alias
    matches; and every requested name that no alias matches is in it. *)
Theorem X10_used_names fuel als valid loc vnames spy0 spy :
  trace_loc fuel loc (DFProxyGetItemSpy.init als valid) = Ok spy0 ->
  trace_vnames fuel vnames spy0 = Ok spy ->
  NoDup (DFProxyGetItemSpy._vnames_used spy)
  /\ (forall x, x ∈ DFProxyGetItemSpy._vnames_used spy
                <-> DFProxyGetItemSpy._aliasing_map spy !! x = Some None)
  /\ (forall x, x ∈ DFProxyGetItemSpy._vnames_used spy ->
                x ∈ valid /\ find_alias als x = None)
  /\ (forall v, v ∈ vnames -> find_alias als v = None ->
                v ∈ DFProxyGetItemSpy._vnames_used spy).
Proof.
  intros H0 H1.
  destruct (traced_spy _ _ _ _ _ _ _ H0 H1) as (Cs & As & Vs & _).
  pose proof (SpyFacts.init_consistent als valid) as Ci.
  pose proof (UsedFacts.trace_loc_keeps_NoDup _ _ _ _ H0) as [[_ C0] N0].
  pose proof (UsedFacts.trace_vnames_keeps_NoDup _ _ _ _ H1) as [_ N1].
  split; [|split; [|split]].
  - apply N1; [by apply C0|]. apply N0; [done|]. simpl. apply NoDup_nil_2.
  - intros x. symmetry. apply (SpyInv.cons_terminal _ Cs).
  - intros x Hx. split.
    + rewrite <- Vs. by apply (SpyInv.cons_valid _ Cs).
    + apply (SpyInv.cons_terminal _ Cs) in Hx.
      apply (SpyInv.cons_map _ Cs) in Hx. by rewrite <- As, <- Hx.
  - intros v Hv Hfind.
    apply TraceFacts.trace_vnames_inv in H1 as [_ Hall].
    destruct (Hall v Hv) as [e He].
    pose proof (SpyInv.cons_map _ Cs _ _ He) as Heq.
    rewrite As, Hfind in Heq. subst e.
    by apply (SpyInv.cons_terminal _ Cs).
Qed.

Lemma X10_used_names_witness :
  exists spy,
    trace_vnames 3 ["B"; "Y"; "B"; "Y"; "X"]
      (DFProxyGetItemSpy.init [Samples.aliasB; Samples.aliasA] ["X"; "Y"])
    = Ok spy
    /\ DFProxyGetItemSpy._vnames_used spy = ["X"; "Y"]
    /\ NoDup (DFProxyGetItemSpy._vnames_used spy).
Proof.
  eexists. split; [reflexivity|]. split; [reflexivity|].
  exact (proj1 (X10_used_names 3 [Samples.aliasB; Samples.aliasA] ["X"; "Y"]
                  None ["B"; "Y"; "B"; "Y"; "X"] _ _ eq_refl eq_refl)).
Defined.

(** ** Raw names on an aliased source *)
Module RawFacts.
Import DFProxyGetItemSpy SpyInv SpyFacts.

(** A lookup of a name that no alias matches and that the source knows
    returns, records the name as terminal and counts one call. *)
Lemma getitem_raw fuel key s :
  consistent s -> _N_call s < 1000 ->
  find_alias (_aliases s) key = None -> key ∈ _vnames_valid s ->
  exists s',
    getitem (S fuel) key s = Ok (dum, s')
    /\ _N_call s' = S (_N_call s)
    /\ _aliasing_map s' !! key = Some None
    /\ (forall x, x ∈ _vnames_used s' <-> x ∈ _vnames_used s \/ x = key).
Proof.
  intros Hc Hn Hf Hv. simpl.
  rewrite (proj2 (Nat.ltb_ge _ _)) by lia.
  destruct (_aliasing_map s !! key) as [e|] eqn:E.
  - exists (incr_N_call s).
    pose proof (cons_map _ Hc _ _ E) as He. rewrite Hf in He. subst e.
    split_and!; try done.
    intros x; split; [auto|]. intros [H| ->]; [done|].
    by apply (cons_terminal _ Hc).
  - rewrite Hf, bool_decide_true by done.
    eexists; split_and!; [done|done|..]; simpl.
    + apply lookup_insert_eq.
    + intros x. rewrite elem_of_app, list_elem_of_singleton. done.
Qed.

Lemma trace_vnames_raw fuel vnames : forall s,
  consistent s -> _N_call s + length vnames <= 1000 ->
  Forall (fun v => find_alias (_aliases s) v = None /\ v ∈ _vnames_valid s)
         vnames ->
  exists s',
    trace_vnames (S fuel) vnames s = Ok s'
    /\ inv s s'
    /\ (forall v, v ∈ vnames -> _aliasing_map s' !! v = Some None)
    /\ (forall x, x ∈ _vnames_used s' <-> x ∈ _vnames_used s \/ x ∈ vnames).
Proof.
  induction vnames as [|v vnames IH]; intros s Hc Hn Hall.
  - exists s. split_and!; [done|apply inv_refl|..].
    + intros v Hv. by apply elem_of_nil in Hv.
    + intros x. rewrite elem_of_nil. tauto.
  - apply Forall_cons in Hall as [[Hf Hv] Hall]. simpl in Hn.
    destruct (getitem_raw fuel v s Hc ltac:(lia) Hf Hv)
      as (s1 & Hg & Hn1 & Hm1 & Hu1).
    destruct (getitem_inv _ _ _ _ _ Hg) as ([Hext Hcons] & _ & _).
    destruct (IH s1 (Hcons Hc) ltac:(lia)) as (s' & Ht & Hinv & Hm & Hu).
    { rewrite (ext_aliases _ _ Hext), (ext_valid _ _ Hext). done. }
    exists s'. split_and!.
    + unfold trace_vnames in *. cbn [for_each]. rewrite Hg. exact Ht.
    + eapply inv_trans; [|exact Hinv]. by split.
    + intros w [-> | Hw]%elem_of_cons; [|by apply Hm].
      eapply lookup_weaken; [exact Hm1|]. apply (ext_map _ _ (proj1 Hinv)).
    + intros x. rewrite Hu, Hu1, elem_of_cons. tauto.
Qed.

Lemma df_getitem_in df key :
  Name key ∈ columns df ->
  exists cells,
    df_getitem df key = Ok (VSeries {| name := Some key; values := cells |})
    /\ (Name key, cells) ∈ df.
Proof.
  induction df as [|[l cells] df IH]; simpl.
  - intros H. by apply elem_of_nil in H.
  - intros H. destruct (decide (l = Name key)) as [-> | Hne].
    + exists cells. split; [done|]. apply elem_of_cons; auto.
    + apply elem_of_cons in H as [H | H]; [congruence|].
      destruct (IH H) as (c & ? & ?). exists c. split; [done|].
      apply elem_of_cons; auto.
Qed.

(** The loop that fills [series_out], given what each lookup returns. *)
Lemma build_series_out_Forall2 fuel proxy vnames outs :
  Forall2 (fun vname out =>
             DFProxyAliasing.getitem fuel proxy vname tt = Ok (out, tt))
          vnames outs ->
  build_series_out fuel proxy vnames
  = Ok (mjoin (zip_with expand outs vnames)).
Proof.
  unfold build_series_out.
  enough (forall acc,
    Forall2 (fun vname out =>
               DFProxyAliasing.getitem fuel proxy vname tt = Ok (out, tt))
            vnames outs ->
    for_each (fun vname series_out =>
                r ← DFProxyAliasing.getitem fuel proxy vname tt;
                Ok (collect (fst r) vname series_out)) vnames acc
    = Ok (acc ++ mjoin (zip_with expand outs vnames))) as H.
  { intros HF. apply (H [] HF). }
  intros acc HF. revert acc.
  induction HF as [|v out vnames outs Hg HF IH]; intros acc; simpl.
  - by rewrite app_nil_r.
  - rewrite Hg. simpl. rewrite IH, OutputFacts.collect_expand.
    by rewrite <- app_assoc.
Qed.

Lemma Forall_exists_Forall2 {A B : Type} (P : A -> B -> Prop) (l : list A) :
  Forall (fun x => exists y, P x y) l -> exists k, Forall2 P l k.
Proof.
  induction 1 as [|x l [y Hy] _ [k Hk]].
  - exists []. constructor.
  - exists (y :: k). by constructor.
Qed.

Lemma max_length_const n (l : list Series) :
  l <> [] -> Forall (fun s => length (values s) = n) l -> max_length l = n.
Proof.
  intros Hne Hall. unfold max_length.
  induction Hall as [|s l Hs Hall IH]; [done|]. simpl.
  destruct l as [|s' l']; simpl in *; [lia|].
  rewrite IH by done. lia.
Qed.

Lemma pad_full n cells : length cells = n -> pad n cells = cells.
Proof.
  intros <-. unfold pad. rewrite Nat.sub_diag. simpl. apply app_nil_r.
Qed.

(** The table [pd.concat] builds from named columns of one length. *)
Lemma concat_named n vnames cols :
  vnames <> [] ->
  Forall2 (fun (v : string) (c : list cell) => length c = n) vnames cols ->
  concat (zip_with (fun v c => {| name := Some v; values := c |}) vnames cols)
  = Ok (zip (map Name vnames) cols).
Proof.
  intros Hne HF.
  set (l := zip_with (fun v c => {| name := Some v; values := c |}) vnames cols).
  assert (Hl : l <> []).
  { subst l. destruct HF; [done|]. simpl. discriminate. }
  assert (Hlen : Forall (fun s => length (values s) = n) l).
  { subst l. clear Hne Hl. induction HF; simpl; constructor; auto. }
  assert (Hc : concat l
               = Ok (zip (concat_labels 0 l)
                         (map (fun s => pad (max_length l) (values s)) l))).
  { by destruct l. }
  rewrite Hc, (max_length_const n) by done. f_equal.
  clear Hc Hl Hne Hlen. subst l.
  generalize 0. induction HF as [|v c vnames cols Hc HF IH]; intros num.
  - reflexivity.
  - simpl. rewrite (pad_full n c Hc). f_equal. by apply IH.
Qed.

End RawFacts.

(** X11. On a source bound to a group that has aliases, a request of at most
    1000 names that no alias pattern matches and that the source can serve
    returns the columns of the direct fetch, one per requested name and in
    the order of the request, sliced by [iloc]. *)
Theorem X11_raw_names_pass_through fuel source g vnames iloc df0 :
  alias_grp source = Some g -> aliases g <> [] ->
  vnames <> [] -> length vnames <= 1000 ->
  Forall (fun v => find_alias (aliases g) v = None /\ v ∈ vardict_keys source)
         vnames ->
  get_df source (Some vnames) = Ok df0 ->
  exists cols,
    Forall2 (fun v cells => (Name v, cells) ∈ df0) vnames cols
    /\ getAliasedDF (S fuel) source (Some vnames) None iloc
       = Ok (apply_iloc iloc (zip (map Name vnames) cols)).
Proof.
  intros Hag Hal Hne Hlen Hall Hdf0.
  destruct (RawFacts.trace_vnames_raw fuel vnames
              (DFProxyGetItemSpy.init (aliases g) (vardict_keys source)))
    as (spy & Ht & _ & Hm & Hu).
  { apply SpyFacts.init_consistent. }
  { simpl. lia. }
  { done. }
  simpl in Hu.
  (* the fetch of the used names *)
  assert (Hsame : forall x,
            x ∈ remove_dups ([] ++ DFProxyGetItemSpy._vnames_used spy)
            <-> x ∈ vnames).
  { intros x. rewrite elem_of_remove_dups. simpl. rewrite Hu, elem_of_nil.
    tauto. }
  destruct (proj1 (FetchOkFacts.get_df_succeeds_iff source vnames))
    as [Hpre Hcond]; [by eexists|].
  destruct (proj2 (FetchOkFacts.get_df_succeeds_iff source
              (remove_dups ([] ++ DFProxyGetItemSpy._vnames_used spy))))
    as [df_used Hused].
  { split; [done|]. intros v info Hv. apply Hcond. by apply Hsame. }
  (* each requested name is a column of both tables, with the same cells *)
  assert (Hcol : Forall (fun v => exists cells,
             (Name v, cells) ∈ df0
             /\ length cells = length (VarValues source)
             /\ DFProxyAliasing.getitem (S fuel)
                  (DFProxyAliasing.mk (DFProxyGetItemSpy._aliasing_map spy)
                     df_used) v tt
                = Ok (VSeries {| name := Some v; values := cells |}, tt))
           vnames).
  { apply Forall_forall. intros v Hv.
    pose proof (proj1 (Forall_forall _ _) Hall v Hv) as [_ Hk].
    destruct (RawFacts.df_getitem_in df_used v) as (cells & Hget & Hin).
    { eapply SourceFacts.get_df_columns; [exact Hused| |exact Hk].
      by apply Hsame. }
    destruct (RawFacts.df_getitem_in df0 v) as (cells0 & _ & Hin0).
    { eapply SourceFacts.get_df_columns; [exact Hdf0|exact Hv|exact Hk]. }
    destruct (SourceFacts.get_df_cells _ _ _ _ _ Hused Hin)
      as (info & Hi & Hc).
    destruct (SourceFacts.get_df_cells _ _ _ _ _ Hdf0 Hin0)
      as (info0 & Hi0 & Hc0).
    assert (cells0 = cells) as -> by congruence.
    exists cells. split_and!; [done|by eapply FetchFacts.ds_column_length|].
    simpl. rewrite (Hm v Hv). simpl. by rewrite Hget. }
  apply RawFacts.Forall_exists_Forall2 in Hcol as [cols Hcols].
  exists cols. split.
  { eapply Forall2_impl; [exact Hcols|]. simpl. intros ? ? (? & _). done. }
  rewrite (getAliasedDF_generic _ _ g _ _ _
             (DFProxyGetItemSpy.init (aliases g) (vardict_keys source)) spy)
    by done.
  unfold materialize. rewrite Hused. cbn [mbind outcome_bind].
  rewrite (RawFacts.build_series_out_Forall2 _ _ _
             (map (fun '(v, c) => VSeries {| name := Some v; values := c |})
                  (zip vnames cols))).
  2:{ clear -Hcols. induction Hcols as [|v c vnames cols (_ & _ & Hg) _ IH];
        simpl; constructor; auto. }
  cbn [mbind outcome_bind].
  assert (Hso : mjoin (zip_with expand
                  (map (fun '(v, c) =>
                          VSeries {| name := Some v; values := c |})
                       (zip vnames cols)) vnames)
                = zip_with (fun v c => {| name := Some v; values := c |})
                    vnames cols).
  { clear -Hcols. induction Hcols as [|v c vnames cols _ _ IH]; simpl;
      [done|]. by rewrite IH. }
  rewrite Hso.
  rewrite (RawFacts.concat_named (length (VarValues source))); [done|done|].
  eapply Forall2_impl; [exact Hcols|]. simpl. intros ? ? (_ & ? & _). done.
Qed.

Lemma X11_raw_names_pass_through_witness :
  exists cols,
    Forall2 (fun v cells =>
               (Name v, cells)
               ∈ [(Name "X", [Int 1; Int 2; Int 3]);
                  (Name "Y", [Int (-10); Int 20; Int 30])]%Z)
            ["Y"; "X"; "Y"] cols
    /\ getAliasedDF 1
         (Samples.file_XY (Samples.grp [Samples.aliasB; Samples.aliasA]))
         (Some ["Y"; "X"; "Y"]) None None
       = Ok (apply_iloc None (zip (map Name ["Y"; "X"; "Y"]) cols)).
Proof.
  apply (X11_raw_names_pass_through 0
           (Samples.file_XY (Samples.grp [Samples.aliasB; Samples.aliasA]))
           {| _name := "g"; aliases := [Samples.aliasB; Samples.aliasA] |}
           ["Y"; "X"; "Y"] None
           [(Name "X", [Int 1; Int 2; Int 3]);
            (Name "Y", [Int (-10); Int 20; Int 30])]%Z).
  - reflexivity.
  - discriminate.
  - discriminate.
  - simpl; lia.
  - repeat constructor; try reflexivity; by vm_compute; set_solver.
  - reflexivity.
Defined.

(** ** Aliases given by a format string *)
Module AliasStrFacts.

(** [Alias.__init__] with an [alias_str]: the transform is the lookup of
    the formatted name, whatever [alias_fct] is. *)
Lemma Alias_init_str re fmt fct a :
  Alias_init re (Some fmt) fct = Ok a ->
  regex a = re
  /\ forall grps,
       alias_fct a grps = match format fmt grps with
                          | Some key => GetItem key Ret
                          | None => Throw IndexError
                          end.
Proof. intros [= <-]. done. Qed.

End AliasStrFacts.

(** X12. An alias built from a format string renames a raw column: when the
    requested name is resolved by that alias, the formatted name matches no
    alias and the source serves it, the fetch returns that column under the
    requested name.  A transform passed along with the format string is
    ignored. *)
Theorem X12_alias_str_renames fuel source g before a after re fmt fct key grps
    target cells iloc :
  alias_grp source = Some g ->
  Alias_init re (Some fmt) fct = Ok a ->
  aliases g = before ++ a :: after ->
  (forall b, b ∈ before -> Re.search (regex b) key = None) ->
  Re.search re key = Some grps ->
  format fmt grps = Some target ->
  find_alias (aliases g) target = None ->
  get_df source (Some [target]) = Ok [(Name target, cells)] ->
  getAliasedDF (S (S fuel)) source (Some [key]) None iloc
  = Ok (apply_iloc iloc [(Name key, cells)]).
Proof.
  intros Hag Hinit Hal Hbefore Hre Hfmt Hraw Hdf.
  destruct (AliasStrFacts.Alias_init_str _ _ _ _ Hinit) as [Hrx Hfct].
  assert (Hfind : find_alias (aliases g) key = Some (alias_fct a, grps)).
  { rewrite Hal. apply TraceFacts.find_alias_first; [done|]. by rewrite Hrx. }
  assert (Hne : key <> target) by (intros ->; congruence).
  pose proof (get_df_single_known _ _ _ Hdf) as Hvalid.
  rewrite (getAliasedDF_aliased _ _ g);
    [|done|rewrite Hal; by destruct before].
  cbn [trace_loc mbind outcome_bind].
  unfold trace_vnames. cbn [for_each].
  cbn [DFProxyGetItemSpy.getitem DFProxyGetItemSpy.incr_N_call
       DFProxyGetItemSpy.init DFProxyGetItemSpy._N_call
       DFProxyGetItemSpy._aliasing_map DFProxyGetItemSpy._aliases
       DFProxyGetItemSpy._vnames_valid DFProxyGetItemSpy._vnames_used
       DFProxyGetItemSpy.set_aliasing DFProxyGetItemSpy.append_used].
  rewrite lookup_empty, Hfind, Hfct, Hfmt.
  cbn [exec DFProxyGetItemSpy.getitem DFProxyGetItemSpy.incr_N_call
       DFProxyGetItemSpy.init DFProxyGetItemSpy._N_call
       DFProxyGetItemSpy._aliasing_map DFProxyGetItemSpy._aliases
       DFProxyGetItemSpy._vnames_valid DFProxyGetItemSpy._vnames_used
       DFProxyGetItemSpy.set_aliasing DFProxyGetItemSpy.append_used].
  rewrite lookup_insert_ne, lookup_empty, Hraw by done.
  rewrite bool_decide_true by done.
  change (1000 <? 1) with false. change (1000 <? 2) with false.
  cbn [exec fmap outcome_fmap mbind outcome_bind snd for_each].
  unfold materialize.
  cbn [DFProxyGetItemSpy._vnames_used DFProxyGetItemSpy._aliasing_map
       DFProxyGetItemSpy.set_aliasing DFProxyGetItemSpy.append_used
       DFProxyGetItemSpy.incr_N_call DFProxyGetItemSpy.init app].
  change (remove_dups [target]) with [target]. rewrite Hdf.
  cbn [mbind outcome_bind]. unfold build_series_out. cbn [for_each].
  cbn [DFProxyAliasing.getitem DFProxyAliasing._aliasing_map
       DFProxyAliasing._df].
  rewrite lookup_insert_ne, lookup_insert_eq by done.
  rewrite Hfct, Hfmt.
  cbn [exec DFProxyAliasing.getitem DFProxyAliasing._aliasing_map
       DFProxyAliasing._df].
  rewrite lookup_insert_eq.
  cbn [df_getitem]. rewrite decide_True by done.
  cbn [exec mbind outcome_bind fst collect app rename values].
  unfold concat, max_length, pad. simpl.
  rewrite Nat.max_0_r, Nat.sub_diag. simpl. by rewrite app_nil_r.
Qed.

Lemma X12_alias_str_renames_witness :
  getAliasedDF 2 (Samples.file_XY (Samples.grp [alias_v_group]))
    (Some ["vY"]) None None
  = Ok (apply_iloc None [(Name "vY", [Int (-10); Int 20; Int 30])]%Z).
Proof.
  apply (X12_alias_str_renames 0
           (Samples.file_XY (Samples.grp [alias_v_group]))
           {| _name := "g"; aliases := [alias_v_group] |}
           [] alias_v_group [] [(false, Re.Chr "v"); (true, Re.Dot)]
           [Field 0] None "vY" ["Y"] "Y").
  - reflexivity.
  - reflexivity.
  - reflexivity.
  - intros b Hb. by apply elem_of_nil in Hb.
  - reflexivity.
  - reflexivity.
  - reflexivity.
  - reflexivity.
Defined.

(** X13. A format string that refers to a capture group the pattern does not
    have makes the fetch of a name resolved by that alias fail with
    IndexError, as soon as the name is traced. *)
Theorem X13_alias_str_missing_group fuel source g before a after re fmt fct key
    grps rest iloc :
  alias_grp source = Some g ->
  Alias_init re (Some fmt) fct = Ok a ->
  aliases g = before ++ a :: after ->
  (forall b, b ∈ before -> Re.search (regex b) key = None) ->
  Re.search re key = Some grps ->
  format fmt grps = None ->
  getAliasedDF (S fuel) source (Some (key :: rest)) None iloc
  = Raise IndexError.
Proof.
  intros Hag Hinit Hal Hbefore Hre Hfmt.
  destruct (AliasStrFacts.Alias_init_str _ _ _ _ Hinit) as [Hrx Hfct].
  assert (Hfind : find_alias (aliases g) key = Some (alias_fct a, grps)).
  { rewrite Hal. apply TraceFacts.find_alias_first; [done|]. by rewrite Hrx. }
  rewrite (getAliasedDF_aliased _ _ g);
    [|done|rewrite Hal; by destruct before].
  cbn [trace_loc mbind outcome_bind].
  unfold trace_vnames. cbn [for_each].
  cbn [DFProxyGetItemSpy.getitem DFProxyGetItemSpy.incr_N_call
       DFProxyGetItemSpy.init DFProxyGetItemSpy._N_call
       DFProxyGetItemSpy._aliasing_map DFProxyGetItemSpy._aliases].
  rewrite lookup_empty, Hfind, Hfct, Hfmt.
  change (1000 <? 1) with false. reflexivity.
Qed.

Lemma X13_alias_str_missing_group_witness :
  getAliasedDF 1 (Samples.file_XY (Samples.grp [alias_v_nogroup]))
    (Some ["vY"; "X"]) None None
  = Raise IndexError.
Proof.
  apply (X13_alias_str_missing_group 0
           (Samples.file_XY (Samples.grp [alias_v_nogroup]))
           {| _name := "g"; aliases := [alias_v_nogroup] |}
           [] alias_v_nogroup [] [(false, Re.Chr "v"); (true, Re.Dot)]
           [Field 1] None "vY" ["Y"] ["X"]).
  - reflexivity.
  - reflexivity.
  - reflexivity.
  - intros b Hb. by apply elem_of_nil in Hb.
  - reflexivity.
  - reflexivity.
Defined.

(** ** manager.py: the registry under any sequence of calls *)
Module RegistryFacts.
Import Manager Registry.

Lemma occurrences_cons x y l :
  occurrences x (y :: l) = (if decide (y = x) then 1 else 0) + occurrences x l.
Proof.
  unfold occurrences. rewrite filter_cons. by destruct (decide (y = x)).
Qed.

Lemma occurrences_singleton x y :
  occurrences x [y] = if decide (y = x) then 1 else 0.
Proof. rewrite occurrences_cons. unfold occurrences. simpl. lia. Qed.

Lemma occurrences_app x l k :
  occurrences x (l ++ k) = occurrences x l + occurrences x k.
Proof. unfold occurrences. by rewrite filter_app, length_app. Qed.

Lemma occurrences_zero x l : occurrences x l = 0 <-> x ∉ l.
Proof.
  induction l as [|y l IH].
  - split; [|done]. intros _ H. by apply elem_of_nil in H.
  - rewrite occurrences_cons, not_elem_of_cons.
    destruct (decide (y = x)) as [->|Hne]; split.
    + intros H; lia.
    + intros [? _]; congruence.
    + intros H. split; [congruence|]. apply IH. lia.
    + intros [_ H]. apply IH in H. lia.
Qed.

Lemma occurrences_pos x l : 0 < occurrences x l -> x ∈ l.
Proof.
  intros H. destruct (decide (x ∈ l)) as [|Hn]; [done|].
  apply occurrences_zero in Hn. lia.
Qed.

Lemma occurrences_list_remove_eq a l :
  a ∈ l -> S (occurrences a (list_remove a l)) = occurrences a l.
Proof.
  induction l as [|y l IH]; intros H; [by apply elem_of_nil in H|].
  simpl. destruct (decide (a = y)) as [<-|Hne].
  - rewrite occurrences_cons, decide_True by done. lia.
  - apply elem_of_cons in H as [H|H]; [congruence|].
    rewrite !occurrences_cons, decide_False by congruence.
    rewrite <- IH by done. lia.
Qed.

Lemma occurrences_list_remove_ne a x l :
  x <> a -> occurrences x (list_remove a l) = occurrences x l.
Proof.
  intros Hx. induction l as [|y l IH]; [done|].
  simpl. destruct (decide (a = y)) as [<-|Hne].
  - rewrite occurrences_cons, decide_False by congruence. done.
  - rewrite !occurrences_cons, IH. done.
Qed.

Lemma filter_list_remove a l :
  filter (fun y => y <> a) (list_remove a l) = filter (fun y => y <> a) l.
Proof.
  induction l as [|y l IH]; [done|].
  simpl. destruct (decide (a = y)) as [<-|Hne].
  - rewrite filter_cons, decide_False by (intros H; by apply H). done.
  - rewrite !filter_cons, IH. done.
Qed.

Lemma filter_ne_id a (l : list ref) : a ∉ l -> filter (fun y => y <> a) l = l.
Proof.
  induction l as [|y l IH]; [done|].
  rewrite not_elem_of_cons. intros [Hne Hl].
  rewrite filter_cons, decide_True by congruence. by rewrite IH.
Qed.

Lemma occurrences_filter_ne a x l :
  x <> a -> occurrences x (filter (fun y => y <> a) l) = occurrences x l.
Proof.
  intros Hx. induction l as [|y l IH]; [done|].
  rewrite filter_cons. destruct (decide (y <> a)) as [Hy|Hy].
  - rewrite !occurrences_cons, IH. done.
  - rewrite occurrences_cons, decide_False, IH; [done|].
    intros ->. by apply Hy.
Qed.

(** The loop of [del_alias] returns when the alias is in each group as
    often as the group is in the alias's own list; it then leaves the
    alias in no group. *)
Lemma del_alias_loop_spec a : forall ags m,
  (forall r, occurrences r ags
             <= occurrences a (default [] (aliases <$> groups_ m !! r))) ->
  exists m',
    del_alias_loop a ags m = (m', None)
    /\ m' = with_groups_ (fun _ => groups_ m') m
    /\ forall r,
         match groups_ m !! r with
         | None => groups_ m' !! r = None
         | Some g =>
             exists g',
               groups_ m' !! r = Some g'
               /\ name g' = name g /\ ref_sources g' = ref_sources g
               /\ filter (fun y => y <> a) (aliases g')
                  = filter (fun y => y <> a) (aliases g)
               /\ occurrences a (aliases g') + occurrences r ags
                  = occurrences a (aliases g)
         end.
Proof.
  induction ags as [|ag rest IH]; intros m Hle.
  - exists m. split_and!; [done|by destruct m|].
    intros r. destruct (groups_ m !! r) as [g|] eqn:E; [|done].
    exists g. split_and!; try done; unfold occurrences; simpl; lia.
  - simpl.
    pose proof (Hle ag) as Hag. rewrite occurrences_cons, decide_True in Hag by done.
    rewrite bool_decide_true by (apply occurrences_pos; lia).
    destruct (IH (remove_alias ag a m)) as (m' & Hloop & Hm' & Hgr).
    { intros r. simpl. destruct (decide (r = ag)) as [->|Hne].
      - rewrite lookup_alter_eq.
        destruct (groups_ m !! ag) as [g|] eqn:E; simpl in *; [|lia].
        pose proof (occurrences_list_remove_eq a (aliases g)
                      ltac:(apply occurrences_pos; lia)). lia.
      - rewrite lookup_alter_ne by done.
        specialize (Hle r). rewrite occurrences_cons, decide_False in Hle by done.
        done. }
    exists m'. split_and!; [done|by rewrite Hm' at 1|].
    intros r. specialize (Hgr r). simpl in Hgr.
    destruct (decide (r = ag)) as [->|Hne].
    + rewrite lookup_alter_eq in Hgr.
      destruct (groups_ m !! ag) as [g|] eqn:E; simpl in *; [|done].
      destruct Hgr as (g' & Hg' & Hn & Hr & Hf & Ho).
      exists g'. split_and!; try done.
      * by rewrite Hf, filter_list_remove.
      * rewrite occurrences_cons, decide_True by done.
        pose proof (occurrences_list_remove_eq a (aliases g)
                      ltac:(apply occurrences_pos; lia)). lia.
    + rewrite lookup_alter_ne in Hgr by done.
      destruct (groups_ m !! r) as [g|] eqn:E; [|done].
      destruct Hgr as (g' & Hg' & Hn & Hr & Hf & Ho).
      exists g'. split_and!; try done.
      rewrite occurrences_cons, decide_False by done. lia.
Qed.

Lemma py_index_lt n i k : py_index n i = Some k -> k < n.
Proof.
  unfold py_index. intros H.
  destruct (0 <=? i)%Z eqn:E0.
  - destruct (i <? Z.of_nat n)%Z eqn:E1; [|done]. injection H as <-. lia.
  - destruct (- Z.of_nat n <=? i)%Z eqn:E1; [|done]. injection H as <-. lia.
Qed.

Lemma py_index_None n i :
  py_index n i = None <-> (i < - Z.of_nat n \/ Z.of_nat n <= i)%Z.
Proof.
  unfold py_index.
  destruct (0 <=? i)%Z eqn:E0.
  - destruct (i <? Z.of_nat n)%Z eqn:E1; split; try done; lia.
  - destruct (- Z.of_nat n <=? i)%Z eqn:E1; split; try done; lia.
Qed.

(** In a consistent registry [del_alias] with an index in range returns,
    and what it leaves is the registry without that alias. *)
Lemma del_alias_spec m i n :
  wf m -> py_index (length (_aliases m)) i = Some n ->
  exists a,
    _aliases m !! n = Some a
    /\ del_alias i m
       = ({| sources_ := sources_ m;
             groups_ := without_alias a <$> groups_ m;
             aliases_ := aliases_ m; next := next m; _sources := _sources m;
             _alias_grps := _alias_grps m; _aliases := delete n (_aliases m);
             _preload_data := _preload_data m |}, None).
Proof.
  intros Hwf Hpy.
  destruct (lookup_lt_is_Some_2 (_aliases m) n (py_index_lt _ _ _ Hpy))
    as [a Ha].
  exists a. split; [done|].
  assert (Hin : a ∈ _aliases m) by (by eapply list_elem_of_lookup_2).
  destruct (wf_stored _ Hwf a Hin) as [o Ho].
  destruct (del_alias_loop_spec a (ref_alias_grps o) m) as (m' & Hloop & Hm' & Hgr).
  { intros r. by rewrite (wf_count _ Hwf a o r Hin Ho). }
  assert (Hgroups : groups_ m' = without_alias a <$> groups_ m).
  { apply map_eq. intros r. rewrite lookup_fmap. specialize (Hgr r).
    pose proof (wf_count _ Hwf a o r Hin Ho) as Hc.
    destruct (groups_ m !! r) as [g|] eqn:E; simpl in *; [|done].
    destruct Hgr as (g' & -> & Hn & Hr & Hf & Hocc). f_equal.
    assert (a ∉ aliases g') as Hni by (apply occurrences_zero; lia).
    rewrite (filter_ne_id _ _ Hni) in Hf.
    destruct g', g; unfold without_alias; simpl in *; by subst. }
  unfold del_alias. rewrite Hpy, Ha, Ho. simpl. rewrite Hloop.
  rewrite Hm' at 1 2 3 4 5 6 7 8. simpl. by rewrite Hgroups.
Qed.

End RegistryFacts.

(** Every method leaves a consistent registry consistent. *)
Module WfFacts.
Import Manager Registry RegistryFacts.

Lemma wf_init : wf init.
Proof.
  split; simpl;
    try (intros *; rewrite lookup_empty; first [done | by intros [? ?]]).
  - constructor.
  - intros a H. by apply elem_of_nil in H.
Qed.

(** Changing what a source is bound to. *)
Lemma wf_set_src_alias_grp src v m :
  wf m -> (forall ag, v = Some ag -> is_Some (groups_ m !! ag)) ->
  wf (set_src_alias_grp src v m).
Proof.
  intros [] Hv. split; simpl; try done.
  - intros n r H. apply lookup_alter_is_Some. eauto.
  - intros r o ag H Hag. apply lookup_alter_Some in H as [[<- (x & Hx & ->)]|[_ H]].
    + simpl in Hag. by apply Hv.
    + eauto.
  - intros r H. apply lookup_alter_is_Some in H. eauto.
Qed.

(** Changing a group without touching its name or its aliases. *)
Lemma wf_alter_group f ag m :
  (forall g, name (f g) = name g /\ aliases (f g) = aliases g) ->
  wf m -> wf (with_groups_ (alter f ag) m).
Proof.
  intros Hf []. split; simpl; try done.
  - intros n r H. destruct (wf_groups0 n r H) as (g & Hg & Hn).
    rewrite lookup_alter. case_decide; subst.
    + rewrite Hg. simpl. eexists. split; [done|]. apply Hf.
    + eauto.
  - intros r g H. apply lookup_alter_Some in H as [[<- (x & Hx & ->)]|[_ H]].
    + rewrite (proj1 (Hf x)). eauto.
    + eauto.
  - intros r o ag' H Hag. apply lookup_alter_is_Some. eauto.
  - intros r g a H Ha. apply lookup_alter_Some in H as [[<- (x & Hx & ->)]|[_ H]].
    + rewrite (proj2 (Hf x)) in Ha. eauto.
    + eauto.
  - intros a o r Ha Ho. rewrite (wf_count0 a o r Ha Ho). f_equal.
    rewrite lookup_alter. case_decide; subst; [|done].
    destruct (groups_ m !! r) as [g|]; simpl; [|done]. symmetry. apply Hf.
  - intros r H. apply lookup_alter_is_Some in H. eauto.
Qed.

Lemma wf_append_ref_source ag src m : wf m -> wf (append_ref_source ag src m).
Proof. apply wf_alter_group. done. Qed.

Lemma wf_set_alias_grp name_ srcs m : wf m -> wf (set_alias_grp name_ srcs m).
Proof.
  intros Hwf. unfold set_alias_grp.
  destruct (_alias_grps m !! name_) as [ag|] eqn:Hag; [|done].
  assert (Hs : is_Some (groups_ m !! ag)).
  { destruct (wf_groups _ Hwf _ _ Hag) as (g & -> & _). eauto. }
  clear Hag. revert m Hwf Hs.
  induction srcs as [|s srcs IH]; intros m Hwf Hs; simpl; [done|].
  apply IH.
  - destruct (_sources m !! s) as [src|]; [|done].
    apply wf_append_ref_source, wf_set_src_alias_grp; [done|].
    by intros ? [= <-].
  - destruct (_sources m !! s) as [src|]; [|done].
    simpl. by apply lookup_alter_is_Some.
Qed.

Lemma wf_unbind srcs : forall m,
  wf m -> wf (foldl (fun m src => set_src_alias_grp src None m) m srcs).
Proof.
  induction srcs as [|s srcs IH]; intros m Hwf; simpl; [done|].
  apply IH, wf_set_src_alias_grp; done.
Qed.

Lemma wf_del_alias_grp name_ b m : wf m -> wf (fst (del_alias_grp name_ b m)).
Proof.
  intros Hwf. unfold del_alias_grp.
  destruct (_alias_grps m !! name_) as [ag|]; [|done].
  simpl. by apply wf_unbind.
Qed.

Lemma wf_add_alias_grp name_ srcs m : wf m -> wf (fst (add_alias_grp name_ srcs m)).
Proof.
  intros Hwf. unfold add_alias_grp.
  pose proof (wf_del_alias_grp name_ false m Hwf) as Hdel.
  unfold del_alias_grp in *.
  destruct (_alias_grps m !! name_) as [ag|] eqn:Hag; [done|].
  simpl. apply wf_set_alias_grp. clear Hdel.
  assert (Hnew : groups_ m !! next m = None).
  { apply eq_None_not_Some. intros H.
    apply (wf_fresh_groups _ Hwf) in H. lia. }
  destruct Hwf. split; simpl; try done.
  - intros n r H. apply lookup_insert_Some in H as [[<- <-]|[Hne H]].
    + rewrite lookup_insert_eq. eauto.
    + destruct (wf_groups0 n r H) as (g & Hg & Hn).
      rewrite lookup_insert_ne by congruence. eauto.
  - intros r g H. apply lookup_insert_Some in H as [[<- <-]|[Hne H]].
    + simpl. apply lookup_insert_eq.
    + rewrite lookup_insert_ne; [eauto|].
      intros Heq. pose proof (wf_registered0 r g H) as Hr.
      rewrite <- Heq in Hr. congruence.
  - intros r o ag H Ho. apply lookup_insert_is_Some'. eauto.
  - intros r g a H Ha. apply lookup_insert_Some in H as [[<- <-]|[Hne H]].
    + by apply elem_of_nil in Ha.
    + eauto.
  - intros a o r Ha Ho. rewrite (wf_count0 a o r Ha Ho).
    rewrite lookup_insert. case_decide; subst; [|done].
    by rewrite Hnew.
  - intros r H. apply wf_fresh_sources0 in H. lia.
  - intros r H. apply lookup_insert_is_Some' in H as [<-|H]; [lia|].
    apply wf_fresh_groups0 in H. lia.
  - intros r H. apply wf_fresh_aliases0 in H. lia.
Qed.

Lemma wf_add_source_EP_h5 name_ file g m :
  wf m -> wf (fst (add_source_EP_h5 name_ file g m)).
Proof.
  intros Hwf. unfold add_source_EP_h5.
  set (m1 := {| sources_ := _; groups_ := _; aliases_ := _; next := _;
                _sources := _; _alias_grps := _; _aliases := _;
                _preload_data := _ |}).
  assert (Hwf1 : wf m1).
  { subst m1. destruct Hwf. split; simpl; try done.
    - intros n r H. apply lookup_insert_is_Some'.
      apply lookup_insert_Some in H as [[_ <-]|[_ H]]; eauto.
    - intros r o ag H Ho.
      apply lookup_insert_Some in H as [[<- <-]|[Hne H]]; [done|eauto].
    - intros r H. apply lookup_insert_is_Some' in H as [<-|H]; [lia|].
      apply wf_fresh_sources0 in H. lia.
    - intros r H. apply wf_fresh_groups0 in H. lia.
    - intros r H. apply wf_fresh_aliases0 in H. lia. }
  destruct g as [g|]; [|done].
  destruct (_alias_grps m1 !! g); simpl.
  - by apply wf_set_alias_grp.
  - by apply wf_add_alias_grp.
Qed.

(** One turn of the loop of [add_alias]. *)
Lemma wf_assign_alias a ag m :
  wf m -> a ∈ _aliases m -> is_Some (groups_ m !! ag) ->
  wf (append_ref_alias_grp a ag (append_alias ag a m)).
Proof.
  intros Hwf Ha [g0 Hg0]. pose proof (wf_stored _ Hwf a Ha) as [o0 Ho0].
  destruct Hwf. split; simpl; try done.
  - intros n r H. destruct (wf_groups0 n r H) as (g & Hg & Hn).
    rewrite lookup_alter. case_decide; subst.
    + rewrite Hg. simpl. eauto.
    + eauto.
  - intros r g H. apply lookup_alter_Some in H as [[<- (x & Hx & ->)]|[_ H]];
      simpl; eauto.
  - intros r o ag' H Hag. apply lookup_alter_is_Some. eauto.
  - intros a' H. apply lookup_alter_is_Some. eauto.
  - intros r g a' H Ha'.
    apply lookup_alter_Some in H as [[<- (x & Hx & ->)]|[_ H]]; [|eauto].
    simpl in Ha'. apply elem_of_app in Ha' as [Ha'|Ha']; [eauto|].
    by apply list_elem_of_singleton in Ha' as ->.
  - intros a' o r Ha' Ho.
    apply lookup_alter_Some in Ho as [[<- (x & Hx & ->)]|[Hne Ho]]; simpl.
    + rewrite occurrences_app, (wf_count0 a x r Ha' Hx), occurrences_singleton.
      rewrite lookup_alter. case_decide; subst.
      * rewrite Hg0. simpl. rewrite occurrences_app, occurrences_singleton.
        by rewrite !decide_True.
      * lia.
    + rewrite (wf_count0 a' o r Ha' Ho).
      rewrite lookup_alter. case_decide; subst; [|done].
      rewrite Hg0. simpl.
      rewrite occurrences_app, occurrences_singleton, decide_False by done.
      lia.
  - intros r H. apply lookup_alter_is_Some in H. eauto.
  - intros r H. apply lookup_alter_is_Some in H. eauto.
Qed.

Lemma wf_add_alias re s f grps m : wf m -> wf (fst (add_alias re s f grps m)).
Proof.
  intros Hwf. unfold add_alias.
  destruct (Alias_init re s f) as [a_obj| |]; [|done|done].
  simpl.
  set (m1 := {| sources_ := _; groups_ := _; aliases_ := _; next := _;
                _sources := _; _alias_grps := _; _aliases := _;
                _preload_data := _ |}).
  assert (Hfresh : next m ∉ _aliases m).
  { intros H. apply (wf_stored _ Hwf), (wf_fresh_aliases _ Hwf) in H. lia. }
  assert (Hwf1 : wf m1).
  { subst m1. destruct Hwf. split; simpl; try done.
    - apply NoDup_app. split_and!; [done| |apply NoDup_singleton].
      intros x Hx Hx'. apply list_elem_of_singleton in Hx' as ->. done.
    - intros a Ha. apply lookup_insert_is_Some'.
      apply elem_of_app in Ha as [Ha|Ha]; [eauto|].
      apply list_elem_of_singleton in Ha. auto.
    - intros r g a H Ha. apply elem_of_app. eauto.
    - intros a o r Ha Ho.
      apply lookup_insert_Some in Ho as [[<- <-]|[Hne Ho]].
      + simpl. symmetry. apply occurrences_zero.
        destruct (groups_ m !! r) as [g|] eqn:Hg; simpl.
        * intros H. apply Hfresh. eauto.
        * intros H. by apply elem_of_nil in H.
      + apply elem_of_app in Ha as [Ha|Ha]; [eauto|].
        apply list_elem_of_singleton in Ha. congruence.
    - intros r H. apply wf_fresh_sources0 in H. lia.
    - intros r H. apply wf_fresh_groups0 in H. lia.
    - intros r H. apply lookup_insert_is_Some' in H as [<-|H]; [lia|].
      apply wf_fresh_aliases0 in H. lia. }
  assert (Hin : next m ∈ _aliases m1).
  { subst m1. simpl. apply elem_of_app. right. by apply list_elem_of_singleton. }
  generalize dependent m1. clear Hfresh.
  induction grps as [|n grps IH]; intros m1 Hwf1 Hin; simpl; [done|].
  apply IH.
  - destruct (_alias_grps m1 !! n) as [ag|] eqn:Hag; [|done].
    apply wf_assign_alias; [done|done|].
    destruct (wf_groups _ Hwf1 _ _ Hag) as (g & -> & _). eauto.
  - destruct (_alias_grps m1 !! n) as [ag|]; done.
Qed.

Lemma wf_del_source name_ m : wf m -> wf (fst (del_source name_ m)).
Proof. unfold del_source. by destruct (_sources m !! name_). Qed.

Lemma wf_set_preload_data b m : wf m -> wf (set_preload_data b m).
Proof. intros []. by split. Qed.

Lemma delete_elem_of (l : list ref) n a x :
  NoDup l -> l !! n = Some a -> x ∈ delete n l <-> x ∈ l /\ x <> a.
Proof.
  intros Hnd Hl.
  assert (Hn : n < length l) by (by eapply lookup_lt_Some).
  rewrite delete_take_drop.
  rewrite <- (take_drop_middle l n a Hl) in Hnd at 1.
  rewrite <- (take_drop_middle l n a Hl) at 3.
  apply NoDup_app in Hnd as (_ & Hd & Hnd').
  apply NoDup_cons in Hnd' as [Ha _].
  rewrite !elem_of_app, elem_of_cons. split.
  - intros [H|H]; (split; [tauto|]); intros ->.
    + apply (Hd a H). apply elem_of_cons; auto.
    + done.
  - intros [[H|[H|H]] Hne]; tauto.
Qed.

Lemma wf_del_alias i m : wf m -> wf (fst (del_alias i m)).
Proof.
  intros Hwf.
  destruct (py_index (length (_aliases m)) i) as [n|] eqn:Hpy.
  2:{ unfold del_alias. by rewrite Hpy. }
  destruct (del_alias_spec m i n Hwf Hpy) as (a & Ha & ->). simpl.
  pose proof (fun x => delete_elem_of (_aliases m) n a x
                        (wf_aliases _ Hwf) Ha) as Hdel.
  destruct Hwf. split; simpl; try done.
  - intros nm r H. destruct (wf_groups0 nm r H) as (g & Hg & Hn).
    rewrite lookup_fmap, Hg. simpl. eauto.
  - intros r g H. apply lookup_fmap_Some in H as (g0 & <- & H). simpl. eauto.
  - intros r o ag H Hag. rewrite lookup_fmap.
    destruct (wf_bound0 r o ag H Hag) as [g ->]. simpl. eauto.
  - eapply sublist_NoDup; [done|apply sublist_delete].
  - intros a' H. apply list_elem_of_delete_inv in H. eauto.
  - intros r g a' H Ha'. apply lookup_fmap_Some in H as (g0 & <- & H).
    simpl in Ha'. apply list_elem_of_filter in Ha' as [Hne Ha'].
    apply Hdel. split; eauto.
  - intros a' o r Ha' Ho. apply Hdel in Ha' as [Ha' Hne].
    rewrite (wf_count0 a' o r Ha' Ho), lookup_fmap.
    destruct (groups_ m !! r) as [g|]; simpl; [|done].
    by rewrite occurrences_filter_ne.
  - intros r H. rewrite lookup_fmap in H. apply fmap_is_Some in H. eauto.
Qed.

(** Every call leaves a consistent registry behind. *)
Lemma wf_after o m : wf m -> wf (after o m).
Proof.
  destruct o; simpl.
  - apply wf_add_source_EP_h5.
  - apply wf_del_source.
  - apply wf_set_alias_grp.
  - apply wf_del_alias_grp.
  - apply wf_add_alias_grp.
  - apply wf_add_alias.
  - apply wf_del_alias.
  - apply wf_set_preload_data.
Qed.

Lemma wf_run ops : wf (run ops).
Proof.
  unfold run. generalize wf_init. generalize init.
  induction ops as [|o ops IH]; intros m Hwf; simpl; [done|].
  apply IH, wf_after, Hwf.
Qed.

End WfFacts.

(** What the methods leave of the sources. *)
Module FrameFacts.
Import Manager Registry RegistryFacts WfFacts.

Lemma keeps_sources_refl m : keeps_sources m m.
Proof. split_and!; eauto. Qed.

Lemma keeps_sources_trans m1 m2 m3 :
  keeps_sources m1 m2 -> keeps_sources m2 m3 -> keeps_sources m1 m3.
Proof.
  intros (H1 & H2 & H3) (K1 & K2 & K3). split_and!; eauto.
  - congruence.
  - intros r. by rewrite K2, H2.
Qed.

Lemma keeps_set_src_alias_grp src v m :
  keeps_sources m (set_src_alias_grp src v m).
Proof.
  split_and!; simpl; eauto.
  intros r. rewrite lookup_alter. case_decide; subst; [|done].
  by destruct (sources_ m !! r).
Qed.

Lemma keeps_with_groups f m : keeps_sources m (with_groups_ f m).
Proof. split_and!; simpl; eauto. Qed.

Lemma keeps_with_aliases f m : keeps_sources m (with_aliases_ f m).
Proof. split_and!; simpl; eauto. Qed.

Lemma keeps_foldl {A : Type} (step : t -> A -> t) (l : list A) :
  (forall m x, keeps_sources m (step m x)) ->
  forall m, keeps_sources m (foldl step m l).
Proof.
  intros Hstep. induction l as [|x l IH]; intros m; simpl.
  - apply keeps_sources_refl.
  - eapply keeps_sources_trans; [apply Hstep|apply IH].
Qed.

Lemma keeps_set_alias_grp name_ srcs m :
  keeps_sources m (set_alias_grp name_ srcs m).
Proof.
  unfold set_alias_grp.
  destruct (_alias_grps m !! name_) as [ag|]; [|apply keeps_sources_refl].
  apply keeps_foldl. intros m' s.
  destruct (_sources m' !! s) as [src|]; [|apply keeps_sources_refl].
  eapply keeps_sources_trans; [apply keeps_set_src_alias_grp|].
  apply keeps_with_groups.
Qed.

Lemma keeps_del_alias_grp name_ b m :
  keeps_sources m (fst (del_alias_grp name_ b m)).
Proof.
  unfold del_alias_grp.
  destruct (_alias_grps m !! name_) as [ag|]; [|apply keeps_sources_refl].
  simpl. apply keeps_foldl. intros m' s. apply keeps_set_src_alias_grp.
Qed.

Lemma keeps_add_alias_grp name_ srcs m :
  keeps_sources m (fst (add_alias_grp name_ srcs m)).
Proof.
  unfold add_alias_grp.
  pose proof (keeps_del_alias_grp name_ false m) as Hdel.
  unfold del_alias_grp in *.
  destruct (_alias_grps m !! name_) as [ag|] eqn:Hag; [done|].
  simpl. eapply keeps_sources_trans; [|apply keeps_set_alias_grp].
  split_and!; simpl; eauto.
  intros n r Hn. rewrite lookup_insert_ne; [done|]. congruence.
Qed.

Lemma keeps_add_alias re s f grps m :
  keeps_sources m (fst (add_alias re s f grps m)).
Proof.
  unfold add_alias.
  destruct (Alias_init re s f) as [a_obj| |]; try apply keeps_sources_refl.
  simpl. eapply keeps_sources_trans; [|apply keeps_foldl].
  - split_and!; simpl; eauto.
  - intros m' n. destruct (_alias_grps m' !! n); [|apply keeps_sources_refl].
    eapply keeps_sources_trans; [apply keeps_with_groups|].
    apply keeps_with_aliases.
Qed.

Lemma keeps_del_alias_loop a : forall ags m,
  keeps_sources m (fst (del_alias_loop a ags m)).
Proof.
  induction ags as [|ag ags IH]; intros m; simpl.
  - apply keeps_sources_refl.
  - case_bool_decide; [|apply keeps_sources_refl].
    eapply keeps_sources_trans; [apply keeps_with_groups|apply IH].
Qed.

Lemma keeps_del_alias i m : keeps_sources m (fst (del_alias i m)).
Proof.
  unfold del_alias.
  destruct (py_index _ i) as [n|]; [|apply keeps_sources_refl].
  destruct (_aliases m !! n) as [a|]; [|apply keeps_sources_refl].
  pose proof (keeps_del_alias_loop a
                (default [] (ref_alias_grps <$> aliases_ m !! a)) m) as H.
  destruct (del_alias_loop _ _ _) as [m' [e|]]; [done|].
  eapply keeps_sources_trans; [exact H|]. split_and!; simpl; eauto.
Qed.

End FrameFacts.

(** The loop of [add_alias] and the index of the last alias. *)
Module AddAliasFacts.
Import Manager Registry RegistryFacts WfFacts.

Lemma with_alias_0 a g : with_alias 0 a g = g.
Proof. destruct g. unfold with_alias. simpl. by rewrite app_nil_r. Qed.

Lemma with_alias_S k a g :
  with_alias k a {| name := name g; aliases := aliases g ++ [a];
                    ref_sources := ref_sources g |}
  = with_alias (S k) a g.
Proof. unfold with_alias. simpl. by rewrite <- app_assoc. Qed.

(** The loop of [add_alias] in closed form. *)
Lemma assign_fold a : forall grps m,
  let m' :=
    foldl (fun m ag_name =>
             match _alias_grps m !! ag_name with
             | Some ag => append_ref_alias_grp a ag (append_alias ag a m)
             | None => m
             end) m grps in
  sources_ m' = sources_ m /\ next m' = next m /\ _sources m' = _sources m
  /\ _alias_grps m' = _alias_grps m /\ _aliases m' = _aliases m
  /\ _preload_data m' = _preload_data m
  /\ (forall r, groups_ m' !! r
                = with_alias (assigned_count m grps r) a <$> groups_ m !! r)
  /\ (forall x, alias <$> aliases_ m' !! x = alias <$> aliases_ m !! x).
Proof.
  induction grps as [|n grps IH]; intros m; simpl.
  - split_and!; try done. intros r. unfold assigned_count. simpl.
    destruct (groups_ m !! r); simpl; [|done]. by rewrite with_alias_0.
  - set (m1 := match _alias_grps m !! n with
               | Some ag => append_ref_alias_grp a ag (append_alias ag a m)
               | None => m
               end).
    destruct (IH m1) as (H1 & H2 & H3 & H4 & H5 & H6 & H7 & H8).
    assert (Hag : _alias_grps m1 = _alias_grps m).
    { subst m1. by destruct (_alias_grps m !! n). }
    assert (Hcount : forall r, assigned_count m1 grps r = assigned_count m grps r).
    { intros r. unfold assigned_count. by rewrite Hag. }
    rewrite H1, H2, H3, H4, H5, H6.
    split_and!; try (subst m1; by destruct (_alias_grps m !! n)).
    + intros r. rewrite H7, Hcount. unfold assigned_count at 2.
      rewrite filter_cons. subst m1.
      destruct (_alias_grps m !! n) as [ag|] eqn:E.
      * simpl. rewrite lookup_alter. case_decide as Hd; subst.
        -- rewrite decide_True by done.
           destruct (groups_ m !! r) as [g|]; simpl; [|done].
           by rewrite with_alias_S.
        -- rewrite decide_False by congruence. done.
      * rewrite decide_False by done. done.
    + intros x. rewrite H8. subst m1.
      destruct (_alias_grps m !! n) as [ag|]; [|done].
      simpl. rewrite lookup_alter. case_decide; subst; [|done].
      by destruct (aliases_ m !! x).
Qed.

(** In a consistent registry a name denotes the group [r] exactly when it
    is the name of that group. *)
Lemma assigned_count_name m grps r g :
  wf m -> groups_ m !! r = Some g ->
  assigned_count m grps r = length (filter (fun n => n = name g) grps).
Proof.
  intros Hwf Hg. unfold assigned_count.
  induction grps as [|n grps IH]; [done|].
  rewrite !filter_cons.
  destruct (decide (n = name g)) as [->|Hne].
  - rewrite decide_True by (by apply (wf_registered _ Hwf)). simpl. by rewrite IH.
  - rewrite decide_False; [done|]. intros Hn.
    destruct (wf_groups _ Hwf _ _ Hn) as (g' & Hg' & <-). congruence.
Qed.

Lemma omap_ext_in {A B : Type} (f f' : A -> option B) (l : list A) :
  (forall x, x ∈ l -> f x = f' x) -> omap f l = omap f' l.
Proof.
  induction l as [|x l IH]; intros H; [done|]. csimpl.
  rewrite (H x) by (apply elem_of_cons; auto).
  rewrite IH; [done|]. intros y Hy. apply H, elem_of_cons. auto.
Qed.

Lemma omap_replicate {A B : Type} (f : A -> option B) k x y :
  f x = Some y -> omap f (replicate k x) = replicate k y.
Proof. intros H. induction k as [|k IH]; csimpl; [done|]. by rewrite H, IH. Qed.

Lemma py_index_last n : py_index (S n) (-1) = Some n.
Proof.
  unfold py_index. change (0 <=? -1)%Z with false. cbv iota.
  destruct (- Z.of_nat (S n) <=? -1)%Z eqn:E.
  - f_equal. lia.
  - apply Z.leb_gt in E. lia.
Qed.

Lemma filter_ne_app_replicate a (l : list ref) k :
  a ∉ l -> filter (fun y => y <> a) (l ++ replicate k a) = l.
Proof.
  intros Hl. rewrite filter_app, (filter_ne_id _ _ Hl).
  induction k as [|k IH]; simpl; [by rewrite app_nil_r|].
  rewrite filter_cons, decide_False by (intros H; by apply H). done.
Qed.

End AddAliasFacts.

(** X14. In a consistent registry [del_alias] with an index in range,
    negative indexes counting from the end, never fails: it drops that
    alias from the alias list and from the list of every group, leaves the
    other aliases of the groups in place and in order, and leaves the
    sources alone. *)
Theorem X14_del_alias_removes_everywhere m i n :
  Registry.wf m ->
  py_index (length (Manager._aliases m)) i = Some n ->
  exists a m',
    (Manager._aliases m) !! n = Some a
    /\ Registry.del_alias i m = (m', None)
    /\ Manager._aliases m' = delete n (Manager._aliases m)
    /\ ~ a ∈ Manager._aliases m'
    /\ (forall r, Manager.groups_ m' !! r
                  = Registry.without_alias a <$> Manager.groups_ m !! r)
    /\ (forall r g, Manager.groups_ m' !! r = Some g -> a ∉ Manager.aliases g)
    /\ Manager.sources_ m' = Manager.sources_ m
    /\ Manager._sources m' = Manager._sources m
    /\ Manager._alias_grps m' = Manager._alias_grps m.
Proof.
  intros Hwf Hpy.
  destruct (RegistryFacts.del_alias_spec m i n Hwf Hpy) as (a & Ha & Hdel).
  eexists a, _. split_and!; [done|exact Hdel|done| | | |done|done|done]; simpl.
  - intros H.
    apply (WfFacts.delete_elem_of _ n a a (Registry.wf_aliases _ Hwf) Ha) in H.
    by destruct H.
  - intros r. by rewrite lookup_fmap.
  - intros r g Hg. apply lookup_fmap_Some in Hg as (g0 & <- & _). simpl.
    intros H. apply list_elem_of_filter in H as [H _]. by apply H.
Qed.

Lemma X14_del_alias_removes_everywhere_witness :
  exists a m',
    (Manager._aliases registry_g) !! 0 = Some a
    /\ Registry.del_alias (-1) registry_g = (m', None)
    /\ Manager._aliases m' = delete 0 (Manager._aliases registry_g)
    /\ ~ a ∈ Manager._aliases m'
    /\ (forall r, Manager.groups_ m' !! r
                  = Registry.without_alias a <$> Manager.groups_ registry_g !! r)
    /\ (forall r g, Manager.groups_ m' !! r = Some g -> a ∉ Manager.aliases g)
    /\ Manager.sources_ m' = Manager.sources_ registry_g
    /\ Manager._sources m' = Manager._sources registry_g
    /\ Manager._alias_grps m' = Manager._alias_grps registry_g.
Proof.
  apply (X14_del_alias_removes_everywhere registry_g (-1) 0).
  - apply (WfFacts.wf_run
             [Registry.AddSource "run" (Samples.file_XY None) None;
              Registry.AddAliasGrp "g" ["run"];
              Registry.AddAlias (Re.literal "A") None
                (Some (alias_fct Samples.aliasA)) ["g"]]).
  - reflexivity.
Defined.

(** X15. After any sequence of calls on a new manager, whether they
    returned or raised, the registry is consistent: a registered name
    denotes a stored object, every group is registered under its own name,
    the group of a bound source exists, the alias list has no repetition,
    a group lists only registered aliases, and an alias is in a group as
    often as the group is in the alias's own list. *)
Theorem X15_registry_stays_consistent ops : Registry.wf (Registry.run ops).
Proof. apply WfFacts.wf_run. Qed.

(** The sources under any sequence of calls. *)
Module SourcesFacts.
Import Manager Registry RegistryFacts WfFacts FrameFacts.

(** Every call but [add_source_EP_h5] keeps the sources. *)
Lemma keeps_after o m :
  (forall name_ file g, o <> AddSource name_ file g) ->
  keeps_sources m (after o m).
Proof.
  intros Hne. destruct o; simpl.
  - by destruct (Hne name_ file alias_grp_name).
  - unfold del_source. destruct (_sources m !! name_); apply keeps_sources_refl.
  - apply keeps_set_alias_grp.
  - apply keeps_del_alias_grp.
  - apply keeps_add_alias_grp.
  - apply keeps_add_alias.
  - apply keeps_del_alias.
  - split_and!; simpl; eauto.
Qed.

(** [add_source_EP_h5] registers the new source and then keeps the
    sources. *)
Lemma add_source_keeps name_ file g m :
  keeps_sources
    {| sources_ :=
         <[next m := {| data := mkSource name_ (_vardict file) None false
                                  (_enums file) (VarValues file);
                        alias_grp := None |}]> (sources_ m);
       groups_ := groups_ m; aliases_ := aliases_ m; next := S (next m);
       _sources := <[name_ := next m]> (_sources m);
       _alias_grps := _alias_grps m; _aliases := _aliases m;
       _preload_data := _preload_data m |}
    (fst (add_source_EP_h5 name_ file g m)).
Proof.
  unfold add_source_EP_h5.
  destruct g as [g|]; [|apply keeps_sources_refl].
  match goal with |- context [_alias_grps ?m1 !! g] =>
    destruct (_alias_grps m1 !! g) end.
  - apply keeps_set_alias_grp.
  - apply keeps_add_alias_grp.
Qed.

Lemma no_preload_keeps m m' : keeps_sources m m' -> no_preload m -> no_preload m'.
Proof.
  intros (_ & Hd & _) Hm r o' Ho'. specialize (Hd r). rewrite Ho' in Hd.
  destruct (sources_ m !! r) as [o|] eqn:Ho; [|done].
  injection Hd as ->. by apply (Hm r o).
Qed.

Lemma no_preload_after o m : no_preload m -> no_preload (after o m).
Proof.
  intros Hm.
  destruct o;
    try (eapply no_preload_keeps; [apply keeps_after; by intros|exact Hm]).
  simpl. eapply no_preload_keeps; [apply add_source_keeps|].
  intros r o Ho. simpl in Ho.
  apply lookup_insert_Some in Ho as [[_ <-]|[_ Ho]]; [done|].
  by apply (Hm r o).
Qed.

Lemma no_preload_run ops : no_preload (run ops).
Proof.
  unfold run. assert (H : no_preload init) by (intros r o H; done).
  revert H. generalize init.
  induction ops as [|o ops IH]; intros m Hm; simpl; [done|].
  apply IH, no_preload_after, Hm.
Qed.

Lemma keeps_registered m m' n :
  keeps_sources m m' ->
  (forall r, _alias_grps m !! n = Some r -> _alias_grps m' !! n = Some r)
  /\ (is_Some (_sources m !! n) -> is_Some (_sources m' !! n)).
Proof. intros (Hs & _ & Hg). split; [by apply Hg|by rewrite Hs]. Qed.

End SourcesFacts.

(** X16. After any sequence of calls on a new manager, every source has
    preloading disabled, also when [preload_data] was set on the manager
    before the source was added: a fetch through the manager never takes
    the preloading branch of the source. *)
Theorem X16_sources_never_preload ops src sv :
  Manager.source_view (Registry.run ops) src = Some sv ->
  preload_data sv = false.
Proof.
  intros Hv. unfold Manager.source_view in Hv.
  destruct (Manager.sources_ (Registry.run ops) !! src) as [o|] eqn:Ho;
    [|done].
  simpl in Hv. injection Hv as <-. simpl.
  apply (SourcesFacts.no_preload_run ops src o Ho).
Qed.

Lemma X16_sources_never_preload_witness :
  Manager.source_view
    (Registry.run [Registry.SetPreloadData true;
                   Registry.AddSource "run" (Samples.file_XY None) None;
                   Registry.SetPreloadData true]) 0
  = Some (Samples.file_XY None)
  /\ preload_data (Samples.file_XY None) = false.
Proof.
  split; [reflexivity|].
  apply (X16_sources_never_preload
           [Registry.SetPreloadData true;
            Registry.AddSource "run" (Samples.file_XY None) None;
            Registry.SetPreloadData true] 0 (Samples.file_XY None)).
  reflexivity.
Defined.

(** X17. No call unregisters anything: after any call, [del_source] and
    [del_alias_grp] included, a registered group name still denotes the
    same group and a registered source name still denotes a source. *)
Theorem X17_nothing_is_unregistered o m n :
  (forall r, Manager._alias_grps m !! n = Some r ->
             Manager._alias_grps (Registry.after o m) !! n = Some r)
  /\ (is_Some (Manager._sources m !! n) ->
      is_Some (Manager._sources (Registry.after o m) !! n)).
Proof.
  destruct o;
    try (apply SourcesFacts.keeps_registered, SourcesFacts.keeps_after;
         by intros).
  simpl.
  destruct (SourcesFacts.add_source_keeps name_ file alias_grp_name m)
    as (Hs & _ & Hg).
  split.
  - intros r Hr. by apply Hg.
  - intros H. rewrite Hs. simpl. apply lookup_insert_is_Some'. auto.
Qed.

(** What a source sees of its group after [add_alias]. *)
Module ViewFacts.
Import Manager Registry RegistryFacts WfFacts AddAliasFacts.

(** What [add_alias] leaves behind when the alias can be built. *)
Lemma add_alias_spec re s f grps a_obj m :
  Alias_init re s f = Ok a_obj ->
  let m' := fst (add_alias re s f grps m) in
  sources_ m' = sources_ m /\ _sources m' = _sources m
  /\ _alias_grps m' = _alias_grps m /\ _aliases m' = _aliases m ++ [next m]
  /\ (forall r, groups_ m' !! r
                = with_alias (assigned_count m grps r) (next m)
                    <$> groups_ m !! r)
  /\ (forall x, alias <$> aliases_ m' !! x
                = if decide (next m = x) then Some a_obj
                  else alias <$> aliases_ m !! x).
Proof.
  intros Hinit. unfold add_alias. rewrite Hinit. simpl.
  match goal with |- context [foldl ?step ?m1 grps] =>
    destruct (assign_fold (next m) grps m1)
      as (H1 & H2 & H3 & H4 & H5 & H6 & H7 & H8)
  end.
  simpl in *. rewrite H1, H3, H4, H5. split_and!; try done.
  intros x. rewrite H8, lookup_insert. by case_decide.
Qed.

(** The aliases of a group of a consistent registry are stored, under
    references older than the next one. *)
Lemma member_stored m r g x :
  wf m -> groups_ m !! r = Some g -> x ∈ aliases g ->
  is_Some (aliases_ m !! x) /\ x < next m.
Proof.
  intros Hwf Hg Hx.
  pose proof (wf_stored _ Hwf x (wf_members _ Hwf r g x Hg Hx)) as Hs.
  split; [done|]. by apply (wf_fresh_aliases _ Hwf).
Qed.

End ViewFacts.

(** X18. In a consistent registry a new alias goes to the end of the alias
    list of each group it is assigned to, once per mention of the group's
    name, as every source sees it: the earlier aliases keep their places,
    so the new one is tried last. *)
Theorem X18_add_alias_goes_last m re s f grps a_obj src sv :
  Registry.wf m ->
  Alias_init re s f = Ok a_obj ->
  Manager.source_view m src = Some sv ->
  Manager.source_view (fst (Manager.add_alias re s f grps m)) src
  = Some (mkSource (src_name sv) (_vardict sv)
            ((fun G =>
                mkAliasGroup (_name G)
                  (aliases G
                   ++ replicate (length (filter (fun n => n = _name G) grps))
                        a_obj))
               <$> alias_grp sv)
            (preload_data sv) (_enums sv) (VarValues sv)).
Proof.
  intros Hwf Hinit Hv.
  destruct (ViewFacts.add_alias_spec re s f grps a_obj m Hinit)
    as (Hs & _ & _ & _ & Hg & Ha).
  unfold Manager.source_view in *. rewrite Hs.
  destruct (Manager.sources_ m !! src) as [o|] eqn:Ho; [|done].
  simpl in *. injection Hv as <-. simpl. f_equal. f_equal.
  destruct (Manager.alias_grp o) as [r|] eqn:Hr; [|done]. simpl.
  rewrite Hg.
  destruct (Manager.groups_ m !! r) as [g|] eqn:Hgr; [|done]. simpl.
  f_equal. f_equal.
  rewrite omap_app. f_equal.
  - apply AddAliasFacts.omap_ext_in. intros x Hx. rewrite Ha.
    destruct (ViewFacts.member_stored m r g x Hwf Hgr Hx) as [_ Hlt].
    rewrite decide_False by lia. done.
  - rewrite (AddAliasFacts.assigned_count_name m grps r g Hwf Hgr).
    apply AddAliasFacts.omap_replicate. rewrite Ha.
    by rewrite decide_True.
Qed.

Lemma X18_add_alias_goes_last_witness :
  Manager.source_view
    (fst (Manager.add_alias (Re.literal "B") None
            (Some (alias_fct Samples.aliasB)) ["g"; "h"; "g"] registry_g)) 0
  = Some (mkSource "run" (_vardict (Samples.file_XY None))
            (Some (mkAliasGroup "g"
                     ([{| regex := Re.literal "A";
                          alias_fct := alias_fct Samples.aliasA |}]
                      ++ replicate 2 Samples.aliasB)))
            false [] (VarValues (Samples.file_XY None))).
Proof.
  apply (X18_add_alias_goes_last registry_g (Re.literal "B") None
           (Some (alias_fct Samples.aliasB)) ["g"; "h"; "g"] Samples.aliasB 0
           (mkSource "run" (_vardict (Samples.file_XY None))
              (Some (mkAliasGroup "g"
                       [{| regex := Re.literal "A";
                           alias_fct := alias_fct Samples.aliasA |}]))
              false [] (VarValues (Samples.file_XY None)))).
  - apply (WfFacts.wf_run
             [Registry.AddSource "run" (Samples.file_XY None) None;
              Registry.AddAliasGrp "g" ["run"];
              Registry.AddAlias (Re.literal "A") None
                (Some (alias_fct Samples.aliasA)) ["g"]]).
  - reflexivity.
  - reflexivity.
Defined.

(** X19. Adding an alias and deleting the last alias undo each other: in a
    consistent registry [del_alias(-1)] after [add_alias] returns, and the
    alias list, the groups, the sources and what every source sees are as
    before the two calls. *)
Theorem X19_add_then_del_alias m re s f grps a_obj :
  Registry.wf m ->
  Alias_init re s f = Ok a_obj ->
  exists m2,
    Registry.del_alias (-1) (fst (Manager.add_alias re s f grps m))
    = (m2, None)
    /\ Manager._aliases m2 = Manager._aliases m
    /\ Manager.groups_ m2 = Manager.groups_ m
    /\ Manager.sources_ m2 = Manager.sources_ m
    /\ Manager._sources m2 = Manager._sources m
    /\ Manager._alias_grps m2 = Manager._alias_grps m
    /\ forall src, Manager.source_view m2 src = Manager.source_view m src.
Proof.
  intros Hwf Hinit.
  destruct (ViewFacts.add_alias_spec re s f grps a_obj m Hinit)
    as (Hs & Hsn & Hgn & Hal & Hg & Ha).
  set (m1 := fst (Manager.add_alias re s f grps m)) in *.
  assert (Hwf1 : Registry.wf m1) by (by apply WfFacts.wf_add_alias).
  assert (Hpy : py_index (length (Manager._aliases m1)) (-1)
                = Some (length (Manager._aliases m))).
  { rewrite Hal, length_app. simpl. rewrite Nat.add_1_r.
    apply AddAliasFacts.py_index_last. }
  destruct (RegistryFacts.del_alias_spec m1 (-1) _ Hwf1 Hpy)
    as (a & Hlook & Hdel).
  assert (a = Manager.next m) as ->.
  { rewrite Hal in Hlook. rewrite list_lookup_middle in Hlook by done.
    by injection Hlook. }
  assert (Hgroups : Registry.without_alias (Manager.next m)
                      <$> Manager.groups_ m1 = Manager.groups_ m).
  { apply map_eq. intros r. rewrite lookup_fmap, Hg.
    destruct (Manager.groups_ m !! r) as [g|] eqn:Hgr; [|done]. simpl.
    f_equal. unfold Registry.without_alias, Registry.with_alias. simpl.
    rewrite AddAliasFacts.filter_ne_app_replicate; [by destruct g|].
    intros Hx.
    destruct (ViewFacts.member_stored m r g _ Hwf Hgr Hx) as [_ Hlt]. lia. }
  eexists. split; [exact Hdel|]. simpl.
  split_and!; try done.
  - rewrite Hal. rewrite <- (Nat.add_0_r (length (Manager._aliases m))).
    rewrite <- (app_nil_r (Manager._aliases m)) at 3.
    change [Manager.next m] with (Manager.next m :: []).
    rewrite Nat.add_0_r. by rewrite delete_middle, app_nil_r.
  - intros src. unfold Manager.source_view. simpl. rewrite Hs, Hgroups.
    destruct (Manager.sources_ m !! src) as [o|] eqn:Ho; [|done]. simpl.
    f_equal. f_equal.
    destruct (Manager.alias_grp o) as [r|] eqn:Hr; [|done]. simpl.
    destruct (Manager.groups_ m !! r) as [g|] eqn:Hgr; [|done]. simpl.
    f_equal. f_equal.
    apply AddAliasFacts.omap_ext_in. intros x Hx. rewrite Ha.
    destruct (ViewFacts.member_stored m r g x Hwf Hgr Hx) as [_ Hlt].
    rewrite decide_False by lia. done.
Qed.

Lemma X19_add_then_del_alias_witness :
  exists m2,
    Registry.del_alias (-1)
      (fst (Manager.add_alias (Re.literal "B") None
              (Some (alias_fct Samples.aliasB)) ["g"; "g"] registry_g))
    = (m2, None)
    /\ Manager._aliases m2 = Manager._aliases registry_g
    /\ Manager.groups_ m2 = Manager.groups_ registry_g
    /\ Manager.sources_ m2 = Manager.sources_ registry_g
    /\ Manager._sources m2 = Manager._sources registry_g
    /\ Manager._alias_grps m2 = Manager._alias_grps registry_g
    /\ forall src,
         Manager.source_view m2 src = Manager.source_view registry_g src.
Proof.
  apply (X19_add_then_del_alias registry_g (Re.literal "B") None
           (Some (alias_fct Samples.aliasB)) ["g"; "g"] Samples.aliasB).
  - apply (WfFacts.wf_run
             [Registry.AddSource "run" (Samples.file_XY None) None;
              Registry.AddAliasGrp "g" ["run"];
              Registry.AddAlias (Re.literal "A") None
                (Some (alias_fct Samples.aliasA)) ["g"]]).
  - reflexivity.
Defined.

(** ** manager.py: [Manager.get_df] *)
Module GetDfFacts.
Import Manager Registry.

Lemma get_df_loop_unknown fuel m vnames loc iloc u after : forall before d,
  _sources m !! u = None ->
  get_df_loop fuel m vnames loc iloc (before ++ u :: after) d
  = get_df_loop fuel m vnames loc iloc before d.
Proof.
  induction before as [|x before IH]; intros d Hu; simpl.
  - by rewrite Hu.
  - destruct (_sources m !! x ≫= source_view m) as [src|]; [|done].
    destruct (getAliasedDF fuel src vnames loc iloc); simpl; auto.
Qed.

Lemma get_df_loop_entries fuel m vnames loc iloc : forall sources d d',
  get_df_loop fuel m vnames loc iloc sources d = Ok d' ->
  forall n df,
    d' !! n = Some df ->
    d !! n = Some df
    \/ (n ∈ sources
        /\ exists r src,
             _sources m !! n = Some r /\ source_view m r = Some src
             /\ getAliasedDF fuel src vnames loc iloc = Ok df).
Proof.
  induction sources as [|x sources IH]; intros d d' H n df Hn; simpl in H.
  - injection H as <-. auto.
  - destruct (_sources m !! x) as [r|] eqn:Hx; simpl in H;
      [|injection H as <-; auto].
    destruct (source_view m r) as [src|] eqn:Hv; simpl in H;
      [|injection H as <-; auto].
    destruct (getAliasedDF fuel src vnames loc iloc) as [df0| |] eqn:Hf;
      simpl in H; [|done..].
    destruct (IH _ _ H n df Hn) as [Hd|(Hin & Hrest)].
    + apply lookup_insert_Some in Hd as [[<- <-]|[_ Hd]]; [|auto].
      right. split; [apply elem_of_cons; auto|]. eauto.
    + right. split; [apply elem_of_cons; auto|done].
Qed.

End GetDfFacts.

(** X20. [Manager.get_df] stops at the first source name that is not
    registered, without an error: the result is that of the names before
    it, and the sources listed after it are left out. *)
Theorem X20_get_df_stops_at_unknown fuel m vnames loc iloc before u after :
  Manager._sources m !! u = None ->
  Registry.get_df fuel m vnames (before ++ u :: after) loc iloc
  = Registry.get_df_loop fuel m vnames loc iloc before ∅
  /\ forall d,
       Registry.get_df fuel m vnames (before ++ u :: after) loc iloc = Ok d ->
       forall n, is_Some (d !! n) -> n ∈ before.
Proof.
  intros Hu.
  assert (Heq : Registry.get_df fuel m vnames (before ++ u :: after) loc iloc
                = Registry.get_df_loop fuel m vnames loc iloc before ∅).
  { by apply GetDfFacts.get_df_loop_unknown. }
  split; [done|]. rewrite Heq. intros d Hd n [df Hn].
  destruct (GetDfFacts.get_df_loop_entries _ _ _ _ _ _ _ _ Hd n df Hn)
    as [H|[H _]]; [|done].
  by rewrite lookup_empty in H.
Qed.

Lemma X20_get_df_stops_at_unknown_witness :
  Registry.get_df 3 registry_g (Some ["A"]) (["run"] ++ "other" :: ["run"])
    None None
  = Registry.get_df_loop 3 registry_g (Some ["A"]) None None ["run"] ∅
  /\ forall d,
       Registry.get_df 3 registry_g (Some ["A"])
         (["run"] ++ "other" :: ["run"]) None None = Ok d ->
       forall n, is_Some (d !! n) -> n ∈ ["run"].
Proof.
  apply (X20_get_df_stops_at_unknown 3 registry_g (Some ["A"]) None None
           ["run"] "other" ["run"]).
  reflexivity.
Defined.

(** X21. For a non-empty list of source names, every entry of the dict that
    [Manager.get_df] returns is the aliased fetch of the source registered
    under that name, which was among the requested source names. *)
Theorem X21_get_df_entries fuel m vnames sources loc iloc d n df :
  sources <> [] ->
  Registry.get_df fuel m vnames sources loc iloc = Ok d ->
  d !! n = Some df ->
  n ∈ sources
  /\ exists r src,
       Manager._sources m !! n = Some r
       /\ Manager.source_view m r = Some src
       /\ getAliasedDF fuel src vnames loc iloc = Ok df.
Proof.
  intros _ Hd Hn.
  destruct (GetDfFacts.get_df_loop_entries _ _ _ _ _ _ _ _ Hd n df Hn)
    as [H|H]; [|done].
  by rewrite lookup_empty in H.
Qed.

Lemma X21_get_df_entries_witness :
  "run" ∈ ["run"]
  /\ exists r src,
       Manager._sources registry_g !! "run" = Some r
       /\ Manager.source_view registry_g r = Some src
       /\ getAliasedDF 3 src (Some ["A"]) None None
          = Ok [(Name "A", [Int 2; Int 3; Int 4])].
Proof.
  apply (X21_get_df_entries 3 registry_g (Some ["A"]) ["run"] None None
           {["run" := [(Name "A", [Int 2; Int 3; Int 4])]]} "run"
           [(Name "A", [Int 2; Int 3; Int 4])]).
  - discriminate.
  - vm_compute. reflexivity.
  - reflexivity.
Defined.

(** ** datasource.py: the layout built by [_load_data] *)
Module LayoutFacts.

Lemma re_sub_from_drop : forall s k, re_sub_from k s = drop k s.
Proof.
  induction s as [|c s IH]; intros k; [by destruct k|].
  destruct k as [|k]; [|apply IH].
  cbn [re_sub_from drop]. unfold reg_match.
  destruct (Ascii.eqb c "[") eqn:Ec; [|by rewrite IH].
  apply Ascii.eqb_eq in Ec as ->.
  destruct (digits_close s) as [n|]; simpl; [|by rewrite IH].
  rewrite IH, Nat.sub_0_r. f_equal. apply take_drop.
Qed.

Lemma fstr_id v : fstr v = v.
Proof.
  unfold fstr. rewrite re_sub_from_drop. simpl.
  apply string_of_list_ascii_of_string.
Qed.

Lemma insert_layout_perm z l : insert_layout z l ≡ₚ z :: l.
Proof.
  induction l as [|y l IH]; simpl; [done|].
  destruct (col z.2 <=? col y.2); [done|]. rewrite IH. apply perm_swap.
Qed.

Lemma sort_layout_perm l : sort_layout l ≡ₚ l.
Proof.
  induction l as [|z l IH]; simpl; [done|].
  by rewrite insert_layout_perm, IH.
Qed.

Lemma insert_layout_sorted z l :
  StronglySorted (fun a b : string * var_layout => col a.2 <= col b.2) l ->
  StronglySorted (fun a b : string * var_layout => col a.2 <= col b.2)
                 (insert_layout z l).
Proof.
  induction 1 as [|y l Hl IH Hy]; simpl.
  - repeat constructor.
  - destruct (col z.2 <=? col y.2) eqn:E.
    + apply Nat.leb_le in E. constructor; [by constructor|].
      constructor; [done|].
      eapply Forall_impl; [exact Hy|]. simpl. intros; lia.
    + apply Nat.leb_gt in E. constructor; [done|].
      rewrite insert_layout_perm. constructor; [lia|done].
Qed.

Lemma sort_layout_sorted l :
  StronglySorted (fun a b : string * var_layout => col a.2 <= col b.2)
                 (sort_layout l).
Proof.
  induction l as [|z l IH]; simpl; [constructor|].
  by apply insert_layout_sorted.
Qed.

Lemma dict_set_keys k v d :
  map fst (dict_set k v d)
  = if decide (k ∈ map fst d) then map fst d else map fst d ++ [k].
Proof.
  induction d as [|[k' v'] d IH]; simpl.
  - done.
  - destruct (decide (k' = k)) as [->|Hne]; simpl.
    + rewrite decide_True; [done|]. apply elem_of_cons; auto.
    + rewrite IH. destruct (decide (k ∈ map fst d)) as [Hin|Hin].
      * rewrite decide_True; [done|]. apply elem_of_cons; auto.
      * rewrite decide_False; [done|].
        intros [?|?]%elem_of_cons; congruence.
Qed.

Lemma dict_set_fresh k v d :
  k ∉ map fst d -> dict_set k v d = d ++ [(k, v)].
Proof.
  induction d as [|[k' v'] d IH]; simpl; [done|].
  rewrite not_elem_of_cons. intros [Hne Hd].
  rewrite decide_False by congruence. by rewrite IH.
Qed.

(** The keys of a dict comprehension: each key once, in the order of its
    first occurrence. *)
Lemma dict_of_keys_loop l : forall d,
  NoDup (map fst d) ->
  let d' := foldl (fun d t => dict_set (fst t) (snd t) d) d l in
  NoDup (map fst d')
  /\ forall x, x ∈ map fst d' <-> x ∈ map fst d \/ x ∈ map fst l.
Proof.
  induction l as [|[k v] l IH]; intros d Hd; simpl.
  - split; [done|]. intros x. rewrite elem_of_nil. tauto.
  - destruct (IH (dict_set k v d)) as [Hnd Hx].
    { rewrite dict_set_keys. case_decide; [done|].
      apply NoDup_app. split_and!; [done| |apply NoDup_singleton].
      intros x Hx ->%list_elem_of_singleton. done. }
    split; [done|]. intros x. rewrite Hx, dict_set_keys, elem_of_cons.
    case_decide as Hk.
    + split; [tauto|]. intros [?|[->|?]]; auto.
    + rewrite elem_of_app, list_elem_of_singleton. tauto.
Qed.

(** A comprehension over pairwise distinct keys keeps the list. *)
Lemma dict_of_distinct_loop l : forall d,
  NoDup (map fst (d ++ l)) ->
  foldl (fun d t => dict_set (fst t) (snd t) d) d l = d ++ l.
Proof.
  induction l as [|[k v] l IH]; intros d Hd; simpl.
  - by rewrite app_nil_r.
  - rewrite dict_set_fresh.
    + rewrite IH; [by rewrite <- app_assoc|]. by rewrite <- app_assoc.
    + rewrite map_app in Hd. apply NoDup_app in Hd as (_ & Hdis & _).
      intros Hk. apply (Hdis k Hk). simpl. apply elem_of_cons. auto.
Qed.

Lemma vardict_get_NoDup d k v :
  NoDup (map fst d) -> (k, v) ∈ d -> vardict_get d k = Some v.
Proof.
  induction d as [|[k' v'] d IH]; simpl; intros Hnd Hin.
  - by apply elem_of_nil in Hin.
  - apply NoDup_cons in Hnd as [Hk' Hnd].
    apply elem_of_cons in Hin as [[= <- <-]|Hin].
    + by rewrite decide_True.
    + rewrite decide_False; [by apply IH|].
      intros ->. apply Hk'. apply list_elem_of_fmap. by exists (k, v).
Qed.

Lemma mapM_rows strs vars_arr rows :
  mapM (fun t =>
          u ← strs_get strs (sym_unit t);
          Ok (fstr (sym_name t),
              {| v_type := sym_type t; v_unit := u; col := sym_col t |}))
       vars_arr = Ok rows ->
  Forall2 (fun t row =>
             exists u, strs_get strs (sym_unit t) = Ok u
                       /\ row = (sym_name t,
                                 {| v_type := sym_type t; v_unit := u;
                                    col := sym_col t |}))
          vars_arr rows.
Proof.
  revert rows. induction vars_arr as [|t l IH]; intros rows; csimpl.
  - intros [= <-]. constructor.
  - destruct (strs_get strs (sym_unit t)) as [u| |] eqn:Eu; csimpl; [|done..].
    destruct (mapM _ l) as [rows'| |]; csimpl; [|done..].
    intros [= <-]. constructor; [|by apply IH].
    exists u. by rewrite fstr_id.
Qed.

Lemma vars_layout_spec strs vars_arr d :
  vars_layout strs vars_arr = Ok d ->
  NoDup (map fst d)
  /\ (forall x, x ∈ map fst d <-> x = "TIME" \/ x ∈ map sym_name vars_arr)
  /\ (NoDup ("TIME" :: map sym_name vars_arr) ->
      StronglySorted
        (fun v1 v2 => forall i1 i2,
           vardict_get d v1 = Some i1 -> vardict_get d v2 = Some i2 ->
           col i1 <= col i2)
        (map fst d)
      /\ vardict_get d "TIME"
         = Some {| v_type := "Real"; v_unit := "s"; col := 13 |}
      /\ forall t, t ∈ vars_arr ->
           exists u,
             strs_get strs (sym_unit t) = Ok u
             /\ vardict_get d (sym_name t)
                = Some {| v_type := sym_type t; v_unit := u;
                          col := sym_col t |}).
Proof.
  unfold vars_layout. intros H.
  destruct (mapM _ vars_arr) as [rows| |] eqn:Hrows; simpl in H; [|done..].
  injection H as <-.
  apply mapM_rows in Hrows.
  set (time := ("TIME", {| v_type := "Real"; v_unit := "s"; col := 13 |})).
  assert (Hnames : map fst rows = map sym_name vars_arr).
  { clear -Hrows. induction Hrows as [|t row l k (u & _ & ->) _ IH]; simpl;
      [done|]. by rewrite IH. }
  assert (Hperm : sort_layout (time :: rows) ≡ₚ time :: rows)
    by apply sort_layout_perm.
  destruct (dict_of_keys_loop (sort_layout (time :: rows)) [])
    as [Hnd Hkeys]; [constructor|].
  fold (dict_of (sort_layout (time :: rows))) in Hnd, Hkeys.
  change (insert_layout time (sort_layout rows))
    with (sort_layout (time :: rows)).
  split; [exact Hnd|]. split.
  { intros x. rewrite Hkeys, Hperm. simpl.
    rewrite elem_of_nil, elem_of_cons, Hnames. tauto. }
  intros Hdistinct.
  assert (Hd : dict_of (sort_layout (time :: rows))
               = sort_layout (time :: rows)).
  { unfold dict_of. rewrite dict_of_distinct_loop; [done|].
    simpl. rewrite Hperm. simpl. by rewrite Hnames. }
  rewrite Hd in *.
  assert (Hget : forall k v, (k, v) ∈ time :: rows ->
            vardict_get (sort_layout (time :: rows)) k = Some v).
  { intros k v Hin. apply vardict_get_NoDup; [done|].
    by rewrite Hperm. }
  split_and!.
  - pose proof (sort_layout_sorted (time :: rows)) as Hs.
    revert Hnd Hs.
    generalize (sort_layout (time :: rows)). intros l Hnd Hs.
    assert (Hall : forall k v, (k, v) ∈ l -> vardict_get l k = Some v).
    { intros k v. by apply vardict_get_NoDup. }
    revert Hall. generalize (vardict_get l). intros get Hall.
    induction Hs as [|[k v] l Hs IH Hk]; simpl; constructor.
    + apply IH.
      * simpl in Hnd. by apply NoDup_cons in Hnd as [_ ?].
      * intros k' v' Hin. apply Hall. apply elem_of_cons. auto.
    + apply Forall_forall. intros k' Hk' i1 i2 H1 H2.
      apply list_elem_of_fmap in Hk' as ([k'' v'] & -> & Hin). simpl in *.
      rewrite (Hall k v) in H1 by (apply elem_of_cons; auto).
      rewrite (Hall k'' v') in H2 by (apply elem_of_cons; auto).
      injection H1 as <-. injection H2 as <-.
      rewrite Forall_forall in Hk. apply (Hk _ Hin).
  - apply Hget. apply elem_of_cons. auto.
  - intros t Ht.
    apply list_elem_of_lookup in Ht as [i Hi].
    destruct (Forall2_lookup_l _ _ _ _ _ Hrows Hi) as (row & Hrow & u & Hu & ->).
    exists u. split; [done|]. apply Hget. apply elem_of_cons. right.
    by eapply list_elem_of_lookup_2.
Qed.

End LayoutFacts.

(** X22. The renaming applied to the variable names of a file leaves every
    name as it is: a match of [\[[0-9]*\]] starts with the bracket, so that
    stripping leading zeros off it removes nothing, and an index such as
    [[010]] keeps its zeros. *)
Theorem X22_fstr_keeps_names v : fstr v = v.
Proof. apply LayoutFacts.fstr_id. Qed.

(** X23. The layout built from the symbols of a file lists each name once
    and holds ["TIME"] and the symbol names; when the symbol names are
    pairwise distinct and differ from ["TIME"], it is in the order of the
    column indexes and maps each symbol to its type, unit and column. *)
Theorem X23_vars_layout strs vars_arr d :
  vars_layout strs vars_arr = Ok d ->
  NoDup (map fst d)
  /\ (forall x, x ∈ map fst d <-> x = "TIME" \/ x ∈ map sym_name vars_arr)
  /\ (NoDup ("TIME" :: map sym_name vars_arr) ->
      StronglySorted
        (fun v1 v2 => forall i1 i2,
           vardict_get d v1 = Some i1 -> vardict_get d v2 = Some i2 ->
           col i1 <= col i2)
        (map fst d)
      /\ vardict_get d "TIME"
         = Some {| v_type := "Real"; v_unit := "s"; col := 13 |}
      /\ forall t, t ∈ vars_arr ->
           exists u,
             strs_get strs (sym_unit t) = Ok u
             /\ vardict_get d (sym_name t)
                = Some {| v_type := sym_type t; v_unit := u;
                          col := sym_col t |}).
Proof. apply LayoutFacts.vars_layout_spec. Qed.

Lemma X23_vars_layout_witness :
  NoDup (map fst sample_layout)
  /\ (forall x, x ∈ map fst sample_layout
                <-> x = "TIME" \/ x ∈ map sym_name sample_symbols)
  /\ (NoDup ("TIME" :: map sym_name sample_symbols) ->
      StronglySorted
        (fun v1 v2 => forall i1 i2,
           vardict_get sample_layout v1 = Some i1 ->
           vardict_get sample_layout v2 = Some i2 ->
           col i1 <= col i2)
        (map fst sample_layout)
      /\ vardict_get sample_layout "TIME"
         = Some {| v_type := "Real"; v_unit := "s"; col := 13 |}
      /\ forall t, t ∈ sample_symbols ->
           exists u,
             strs_get sample_strs (sym_unit t) = Ok u
             /\ vardict_get sample_layout (sym_name t)
                = Some {| v_type := sym_type t; v_unit := u;
                          col := sym_col t |}).
Proof.
  apply (X23_vars_layout sample_strs sample_symbols sample_layout).
  vm_compute. reflexivity.
Defined.

(** X24. For a file whose symbol names are pairwise distinct and differ
    from ["TIME"], a source holding the layout built from it returns the
    same table for [var_lst=None] as for the list of all its names. *)
Theorem X24_loaded_layout_fetch_all strs vars_arr source :
  vars_layout strs vars_arr = Ok (_vardict source) ->
  NoDup ("TIME" :: map sym_name vars_arr) ->
  get_df source None = get_df source (Some (vardict_keys source)).
Proof.
  intros Hl Hnd.
  destruct (LayoutFacts.vars_layout_spec _ _ _ Hl) as (Hkeys & _ & Hs).
  destruct (Hs Hnd) as (Hsorted & _).
  by apply FetchNoneFacts.get_df_all_names.
Qed.

Lemma X24_loaded_layout_fetch_all_witness :
  get_df (mkSource "run" sample_layout None false [] []) None
  = get_df (mkSource "run" sample_layout None false [] [])
      (Some (vardict_keys (mkSource "run" sample_layout None false [] []))).
Proof.
  apply (X24_loaded_layout_fetch_all sample_strs sample_symbols
           (mkSource "run" sample_layout None false [] [])).
  - vm_compute. reflexivity.
  - apply (bool_decide_unpack _). vm_compute. reflexivity.
Defined.

(** ** manager.py: a source that changes its group *)
Module StaleFacts.
Import Manager Registry.

Lemma unbind_keeps_unbound src srcs : forall m,
  alias_grp <$> sources_ m !! src = Some None ->
  alias_grp <$> sources_ (foldl (fun m s => set_src_alias_grp s None m) m srcs)
                !! src
  = Some None.
Proof.
  induction srcs as [|s srcs IH]; intros m H; simpl; [done|].
  apply IH. simpl. rewrite lookup_alter. case_decide; subst; [|done].
  by destruct (sources_ m !! src).
Qed.

Lemma unbind_member src srcs : forall m,
  src ∈ srcs -> is_Some (sources_ m !! src) ->
  alias_grp <$> sources_ (foldl (fun m s => set_src_alias_grp s None m) m srcs)
                !! src
  = Some None.
Proof.
  induction srcs as [|s srcs IH]; intros m Hin [o Ho]; simpl.
  - by apply elem_of_nil in Hin.
  - destruct (decide (s = src)) as [->|Hne].
    + apply unbind_keeps_unbound. simpl. by rewrite lookup_alter_eq, Ho.
    + apply elem_of_cons in Hin as [?|Hin]; [congruence|].
      apply IH; [done|]. simpl. rewrite lookup_alter_ne by done. eauto.
Qed.

End StaleFacts.

(** X25. Binding a source to a group does not take it off the list of the
    group it was bound to before: after a source has moved from one group to
    another, [del_alias_grp] on the first group unbinds it from the
    second. *)
Theorem X25_rebinding_leaves_stale_reference m sname src g0 r0 g1 r1 b :
  Registry.wf m ->
  Manager._sources m !! sname = Some src ->
  Manager._alias_grps m !! g0 = Some r0 ->
  Manager._alias_grps m !! g1 = Some r1 ->
  let m2 :=
    Manager.set_alias_grp g1 [sname] (Manager.set_alias_grp g0 [sname] m) in
  Manager.alias_grp <$> Manager.sources_ m2 !! src = Some (Some r1)
  /\ Manager.alias_grp
       <$> Manager.sources_ (fst (Manager.del_alias_grp g0 b m2)) !! src
     = Some None.
Proof.
  intros Hwf Hs H0 H1 m2.
  destruct (Registry.wf_sources _ Hwf _ _ Hs) as [o Ho].
  destruct (Registry.wf_groups _ Hwf _ _ H0) as (G0 & HG0 & _).
  assert (Hm2 : m2 = Manager.append_ref_source r1 src
                       (Manager.set_src_alias_grp src (Some r1)
                          (Manager.append_ref_source r0 src
                             (Manager.set_src_alias_grp src (Some r0) m)))).
  { subst m2. unfold Manager.set_alias_grp at 2. rewrite H0. cbn [foldl].
    rewrite Hs. unfold Manager.set_alias_grp. simpl. rewrite H1. simpl.
    by rewrite Hs. }
  clearbody m2. subst m2. split.
  - simpl. by rewrite !lookup_alter_eq, Ho.
  - unfold Manager.del_alias_grp. simpl. rewrite H0. simpl.
    apply StaleFacts.unbind_member.
    + simpl. rewrite lookup_alter.
      case_decide; subst; rewrite ?lookup_alter_eq, ?HG0; simpl;
        rewrite !elem_of_app, list_elem_of_singleton; auto.
    + simpl. rewrite !lookup_alter_eq, Ho. simpl. eauto.
Qed.

Lemma X25_rebinding_leaves_stale_reference_witness :
  Manager.alias_grp
    <$> Manager.sources_
          (Manager.set_alias_grp "h" ["run"]
             (Manager.set_alias_grp "g" ["run"] registry_gh)) !! 0
  = Some (Some 3)
  /\ Manager.alias_grp
       <$> Manager.sources_
             (fst (Manager.del_alias_grp "g" true
                     (Manager.set_alias_grp "h" ["run"]
                        (Manager.set_alias_grp "g" ["run"] registry_gh))))
           !! 0
     = Some None.
Proof.
  apply (X25_rebinding_leaves_stale_reference registry_gh
           "run" 0 "g" 1 "h" 3 true).
  - apply (WfFacts.wf_run
             [Registry.AddSource "run" (Samples.file_XY None) None;
              Registry.AddAliasGrp "g" ["run"];
              Registry.AddAlias (Re.literal "A") None
                (Some (alias_fct Samples.aliasA)) ["g"];
              Registry.AddAliasGrp "h" []]).
  - reflexivity.
  - reflexivity.
  - reflexivity.
Defined.
